(** * JKL-Game: the editing engine of [GameEngine] (components/GameCanvas.tsx)

    A shallow embedding of the tape model, the transport, the key handlers
    and the extraction engine.  JavaScript numbers are modelled as exact
    rationals [Q]: every tape position the engine compares is an integer
    multiple of [FRAME_PIXELS] (or a sum of such), on which IEEE doubles are
    exact far beyond any reachable tape length, and [Math.round] is
    [floor (x + 1/2)].  Callbacks, audio writes and particle bursts are
    logged as a list of [Effect]s next to the new state. *)

From Stdlib Require Import QArith Qround Qminmax Qabs Lqa Lia ZArith List Bool.
From Stdlib Require Import Sorted Permutation.
From stdpp Require Import gmap strings pretty.
Import ListNotations.

Local Open Scope Q_scope.

(** * The engine *)

(** ** Numbers *)

Definition Qlt_bool (x y : Q) : bool := negb (Qle_bool y x).

(** [Math.round]: the nearest integer, halves going up. *)
Definition Math_round (x : Q) : Z := Qfloor (x + (1 # 2)).

(** [Math.floor] *)
Definition Math_floor (x : Q) : Z := Qfloor x.

(** ** constants.ts *)

Definition CANVAS_WIDTH : Q := 800.
Definition CANVAS_HEIGHT : Q := 600.

Definition RED : string := "#ef4444".
Definition BLUE : string := "#3b82f6".
Definition GREEN : string := "#22c55e".
Definition YELLOW : string := "#eab308".
Definition PURPLE : string := "#a855f7".
Definition ORANGE : string := "#f97316".

(** [Object.values(COLORS)], in insertion order. *)
Definition AVAILABLE_COLORS : list string :=
  [RED; BLUE; GREEN; YELLOW; PURPLE; ORANGE].

Definition SOURCE_TRACK_Y : Q := 220.
Definition SEQUENCE_TRACK_Y : Q := 480.
Definition TRACK_HEIGHT : Q := 80.
Definition SEGMENT_MIN_WIDTH : Q := 100.
Definition SEGMENT_MAX_WIDTH : Q := 300.
Definition MAX_SPEED : Q := 32.
Definition WIN_PIXELS : Q := 1200.

Definition KEY_J : string := "j".
Definition KEY_K : string := "k".
Definition KEY_L : string := "l".
Definition KEY_I : string := "i".
Definition KEY_O : string := "o".
Definition KEY_PERIOD : string := ".".

(** Consistency constant: 1 frame = 6 pixels. *)
Definition FRAME_PIXELS : Q := 6.

(** ** types.ts *)

Inductive GameMode := STANDARD | CAT_MODE.

Record TimelineSegment := mkSegment {
  seg_id : string;
  seg_x : Q;
  seg_width : Q;
  seg_color : string
}.

Record SequenceClip := mkClip {
  clip_id : string;
  clip_width : Q;
  clip_color : string
}.

Inductive Mood := idle | happy | worried | dizzy | focused.

Inductive ParticleType := star | heart | spark.

(** What a handler does to the world outside the engine fields below: the
    five callbacks, [stopAudio] and [createParticles]. *)
Inductive Effect :=
| ScoreUpdate (score : Q)
| PenaltyUpdate (penalty : Z)
| FinalScoreUpdate (score : Z)
| GameOver
| Win
| StopAudio
| Particles (x y : Q) (count : nat) (color : string) (type : ParticleType).

(** The clock readings of one handler run: [performance.now()] on entry,
    [performance.now()] inside [calculateFinalScore], and [Date.now()]. *)
Record Clock := mkClock {
  now : Q;
  score_now : Q;
  date_now : Z
}.

(** ** The engine state *)

Record GameEngine := mkEngine {
  width : Q;
  height : Q;
  sourceSegments : list TimelineSegment;
  sequenceClips : list SequenceClip;
  gameMode : GameMode;
  conveyorOffset : Q;
  markIn : option Q;
  markOut : option Q;
  currentSpeed : Q;
  lastTime : Q;
  startTime : Q;
  isHoldingK : bool;
  isHoldingJ : bool;
  isHoldingL : bool;
  inputTimestamps : gmap string Q;
  inputStartOffsets : gmap string Q;
  targetColor : string;
  penaltyCount : Z;
  characterMood : Mood;
  characterMoodTimer : Q
}.

Definition set_sourceSegments v (e : GameEngine) : GameEngine :=
  mkEngine (width e) (height e) v (sequenceClips e) (gameMode e)
    (conveyorOffset e) (markIn e) (markOut e) (currentSpeed e) (lastTime e)
    (startTime e) (isHoldingK e) (isHoldingJ e) (isHoldingL e)
    (inputTimestamps e) (inputStartOffsets e) (targetColor e)
    (penaltyCount e) (characterMood e) (characterMoodTimer e).
Definition set_sequenceClips v (e : GameEngine) : GameEngine :=
  mkEngine (width e) (height e) (sourceSegments e) v (gameMode e)
    (conveyorOffset e) (markIn e) (markOut e) (currentSpeed e) (lastTime e)
    (startTime e) (isHoldingK e) (isHoldingJ e) (isHoldingL e)
    (inputTimestamps e) (inputStartOffsets e) (targetColor e)
    (penaltyCount e) (characterMood e) (characterMoodTimer e).
Definition set_gameMode v (e : GameEngine) : GameEngine :=
  mkEngine (width e) (height e) (sourceSegments e) (sequenceClips e) v
    (conveyorOffset e) (markIn e) (markOut e) (currentSpeed e) (lastTime e)
    (startTime e) (isHoldingK e) (isHoldingJ e) (isHoldingL e)
    (inputTimestamps e) (inputStartOffsets e) (targetColor e)
    (penaltyCount e) (characterMood e) (characterMoodTimer e).
Definition set_conveyorOffset v (e : GameEngine) : GameEngine :=
  mkEngine (width e) (height e) (sourceSegments e) (sequenceClips e)
    (gameMode e) v (markIn e) (markOut e) (currentSpeed e) (lastTime e)
    (startTime e) (isHoldingK e) (isHoldingJ e) (isHoldingL e)
    (inputTimestamps e) (inputStartOffsets e) (targetColor e)
    (penaltyCount e) (characterMood e) (characterMoodTimer e).
Definition set_markIn v (e : GameEngine) : GameEngine :=
  mkEngine (width e) (height e) (sourceSegments e) (sequenceClips e)
    (gameMode e) (conveyorOffset e) v (markOut e) (currentSpeed e)
    (lastTime e) (startTime e) (isHoldingK e) (isHoldingJ e) (isHoldingL e)
    (inputTimestamps e) (inputStartOffsets e) (targetColor e)
    (penaltyCount e) (characterMood e) (characterMoodTimer e).
Definition set_markOut v (e : GameEngine) : GameEngine :=
  mkEngine (width e) (height e) (sourceSegments e) (sequenceClips e)
    (gameMode e) (conveyorOffset e) (markIn e) v (currentSpeed e)
    (lastTime e) (startTime e) (isHoldingK e) (isHoldingJ e) (isHoldingL e)
    (inputTimestamps e) (inputStartOffsets e) (targetColor e)
    (penaltyCount e) (characterMood e) (characterMoodTimer e).
Definition set_currentSpeed v (e : GameEngine) : GameEngine :=
  mkEngine (width e) (height e) (sourceSegments e) (sequenceClips e)
    (gameMode e) (conveyorOffset e) (markIn e) (markOut e) v (lastTime e)
    (startTime e) (isHoldingK e) (isHoldingJ e) (isHoldingL e)
    (inputTimestamps e) (inputStartOffsets e) (targetColor e)
    (penaltyCount e) (characterMood e) (characterMoodTimer e).
Definition set_lastTime v (e : GameEngine) : GameEngine :=
  mkEngine (width e) (height e) (sourceSegments e) (sequenceClips e)
    (gameMode e) (conveyorOffset e) (markIn e) (markOut e) (currentSpeed e)
    v (startTime e) (isHoldingK e) (isHoldingJ e) (isHoldingL e)
    (inputTimestamps e) (inputStartOffsets e) (targetColor e)
    (penaltyCount e) (characterMood e) (characterMoodTimer e).
Definition set_startTime v (e : GameEngine) : GameEngine :=
  mkEngine (width e) (height e) (sourceSegments e) (sequenceClips e)
    (gameMode e) (conveyorOffset e) (markIn e) (markOut e) (currentSpeed e)
    (lastTime e) v (isHoldingK e) (isHoldingJ e) (isHoldingL e)
    (inputTimestamps e) (inputStartOffsets e) (targetColor e)
    (penaltyCount e) (characterMood e) (characterMoodTimer e).
Definition set_isHoldingK v (e : GameEngine) : GameEngine :=
  mkEngine (width e) (height e) (sourceSegments e) (sequenceClips e)
    (gameMode e) (conveyorOffset e) (markIn e) (markOut e) (currentSpeed e)
    (lastTime e) (startTime e) v (isHoldingJ e) (isHoldingL e)
    (inputTimestamps e) (inputStartOffsets e) (targetColor e)
    (penaltyCount e) (characterMood e) (characterMoodTimer e).
Definition set_isHoldingJ v (e : GameEngine) : GameEngine :=
  mkEngine (width e) (height e) (sourceSegments e) (sequenceClips e)
    (gameMode e) (conveyorOffset e) (markIn e) (markOut e) (currentSpeed e)
    (lastTime e) (startTime e) (isHoldingK e) v (isHoldingL e)
    (inputTimestamps e) (inputStartOffsets e) (targetColor e)
    (penaltyCount e) (characterMood e) (characterMoodTimer e).
Definition set_isHoldingL v (e : GameEngine) : GameEngine :=
  mkEngine (width e) (height e) (sourceSegments e) (sequenceClips e)
    (gameMode e) (conveyorOffset e) (markIn e) (markOut e) (currentSpeed e)
    (lastTime e) (startTime e) (isHoldingK e) (isHoldingJ e) v
    (inputTimestamps e) (inputStartOffsets e) (targetColor e)
    (penaltyCount e) (characterMood e) (characterMoodTimer e).
Definition set_inputTimestamps v (e : GameEngine) : GameEngine :=
  mkEngine (width e) (height e) (sourceSegments e) (sequenceClips e)
    (gameMode e) (conveyorOffset e) (markIn e) (markOut e) (currentSpeed e)
    (lastTime e) (startTime e) (isHoldingK e) (isHoldingJ e) (isHoldingL e)
      v (inputStartOffsets e) (targetColor e)
    (penaltyCount e) (characterMood e) (characterMoodTimer e).
Definition set_inputStartOffsets v (e : GameEngine) : GameEngine :=
  mkEngine (width e) (height e) (sourceSegments e) (sequenceClips e)
    (gameMode e) (conveyorOffset e) (markIn e) (markOut e) (currentSpeed e)
    (lastTime e) (startTime e) (isHoldingK e) (isHoldingJ e) (isHoldingL e)
    (inputTimestamps e) v (targetColor e)
    (penaltyCount e) (characterMood e) (characterMoodTimer e).
Definition set_targetColor v (e : GameEngine) : GameEngine :=
  mkEngine (width e) (height e) (sourceSegments e) (sequenceClips e)
    (gameMode e) (conveyorOffset e) (markIn e) (markOut e) (currentSpeed e)
    (lastTime e) (startTime e) (isHoldingK e) (isHoldingJ e) (isHoldingL e)
    (inputTimestamps e) (inputStartOffsets e) v
    (penaltyCount e) (characterMood e) (characterMoodTimer e).
Definition set_penaltyCount v (e : GameEngine) : GameEngine :=
  mkEngine (width e) (height e) (sourceSegments e) (sequenceClips e)
    (gameMode e) (conveyorOffset e) (markIn e) (markOut e) (currentSpeed e)
    (lastTime e) (startTime e) (isHoldingK e) (isHoldingJ e) (isHoldingL e)
    (inputTimestamps e) (inputStartOffsets e) (targetColor e)
      v (characterMood e) (characterMoodTimer e).
Definition set_characterMood v (e : GameEngine) : GameEngine :=
  mkEngine (width e) (height e) (sourceSegments e) (sequenceClips e)
    (gameMode e) (conveyorOffset e) (markIn e) (markOut e) (currentSpeed e)
    (lastTime e) (startTime e) (isHoldingK e) (isHoldingJ e) (isHoldingL e)
    (inputTimestamps e) (inputStartOffsets e) (targetColor e)
    (penaltyCount e) v (characterMoodTimer e).
Definition set_characterMoodTimer v (e : GameEngine) : GameEngine :=
  mkEngine (width e) (height e) (sourceSegments e) (sequenceClips e)
    (gameMode e) (conveyorOffset e) (markIn e) (markOut e) (currentSpeed e)
    (lastTime e) (startTime e) (isHoldingK e) (isHoldingJ e) (isHoldingL e)
    (inputTimestamps e) (inputStartOffsets e) (targetColor e)
    (penaltyCount e) (characterMood e) v.

(** ** Methods as commands: a state and effect-log monad at type [unit] *)

Definition Cmd : Type := GameEngine -> GameEngine * list Effect.

Definition skip : Cmd := fun e => (e, []).
Definition assign (f : GameEngine -> GameEngine) : Cmd := fun e => (f e, []).
Definition emit (x : Effect) : Cmd := fun e => (e, [x]).
Definition emitWith (f : GameEngine -> Effect) : Cmd := fun e => (e, [f e]).
Definition andThen (c d : Cmd) : Cmd :=
  fun e => let r1 := c e in let r2 := d (fst r1) in (fst r2, snd r1 ++ snd r2).
Definition when (b : GameEngine -> bool) (c d : Cmd) : Cmd :=
  fun e => if b e then c e else d e.

Notation "c >>> d" := (andThen c d) (at level 62, right associativity).

(** ** Physics and grid logic *)

Definition getTapeXAtPlayhead (e : GameEngine) : Q :=
  (width e / 2) - conveyorOffset e.

(** [Math.round(x / FRAME_PIXELS) * FRAME_PIXELS] *)
Definition frameGrid (x : Q) : Q :=
  inject_Z (Math_round (x / FRAME_PIXELS)) * FRAME_PIXELS.

Definition snapToFrame : Cmd := assign (fun e =>
  let currentTapeX := getTapeXAtPlayhead e in
  let snappedTapeX := frameGrid currentTapeX in
  set_conveyorOffset ((width e / 2) - snappedTapeX) e).

Definition stopAudio : Cmd := emit StopAudio.

Definition createParticles (x y : Q) (count : nat) (color : string)
    (type : ParticleType) : Cmd :=
  emit (Particles x y count color type).

Definition setCharacterMood (mood : Mood) (duration : Q) : Cmd :=
  assign (fun e =>
    let e := set_characterMood mood e in
    if Qlt_bool 0 duration then set_characterMoodTimer duration e else e).

(** ** Tape generation

    [Math.random()] is an input: [rnd] lists the values it returns, in call
    order.  The generator answers [None] when the list ends while a loop is
    still drawing, and otherwise the tape with the draws left over. *)

(** [AVAILABLE_COLORS[Math.floor(r * AVAILABLE_COLORS.length)]]; an index
    outside the palette reads [undefined]. *)
Definition randomColor (r : Q) : string :=
  nth (Z.to_nat (Math_floor (r * inject_Z (Z.of_nat (length AVAILABLE_COLORS)))))
      AVAILABLE_COLORS "undefined".

(** The [do ... while (i > 0 && color === sourceSegments[i-1].color)] loop;
    [prev] is [None] when [i = 0]. *)
Fixpoint drawColor (prev : option string) (rnd : list Q)
    : option (string * list Q) :=
  match rnd with
  | [] => None
  | r :: rnd' =>
      let color := randomColor r in
      if match prev with Some p => String.eqb color p | None => false end
      then drawColor prev rnd'
      else Some (color, rnd')
  end.

(** The body of the [for] loop, iterations [i .. i + n - 1]. *)
Fixpoint generateLoop (n i : nat) (currentX : Q) (segs : list TimelineSegment)
    (rnd : list Q) : option (list TimelineSegment * list Q) :=
  match n with
  | O => Some (segs, rnd)
  | S n' =>
      match rnd with
      | [] => None
      | r :: rnd1 =>
          let rawWidth :=
            r * (SEGMENT_MAX_WIDTH - SEGMENT_MIN_WIDTH) + SEGMENT_MIN_WIDTH in
          let width := frameGrid rawWidth in
          let prev :=
            if (0 <? i)%nat then option_map seg_color (nth_error segs (i - 1))
            else None in
          match drawColor prev rnd1 with
          | None => None
          | Some (color, rnd2) =>
              generateLoop n' (S i) (currentX + width)
                (segs ++ [mkSegment ("seg_" +:+ pretty i) currentX width color])
                rnd2
          end
      end
  end.

Definition generateSourceTape (rnd : list Q)
    : option (list TimelineSegment * list Q) :=
  generateLoop 200 0 0 [] rnd.

(** [start]: [t_last] and [t_start] are its two [performance.now()] reads.
    The audio context is outside the model; its [resume] is not logged. *)
Definition start (target : string) (mode : GameMode) (t_last t_start : Q)
    (rnd : list Q) (e : GameEngine) : option (GameEngine * list Effect) :=
  match generateSourceTape rnd with
  | None => None
  | Some (tape, _) =>
      Some ((assign (set_targetColor target) >>>
             assign (set_gameMode mode) >>>
             assign (set_conveyorOffset 0) >>>
             assign (set_currentSpeed 0) >>>
             assign (set_markIn None) >>>
             assign (set_markOut None) >>>
             assign (set_penaltyCount 0%Z) >>>
             assign (set_isHoldingK false) >>>
             assign (set_isHoldingJ false) >>>
             assign (set_isHoldingL false) >>>
             assign (set_sequenceClips []) >>>
             assign (set_sourceSegments tape) >>>
             assign (set_lastTime t_last) >>>
             assign (set_startTime t_start) >>>
             emit (ScoreUpdate 0) >>>
             emit (PenaltyUpdate 0) >>>
             setCharacterMood idle 0 >>>
             snapToFrame >>>
             stopAudio) e)
  end.

(** ** Scoring *)

Definition registerBadHabit : Cmd :=
  assign (fun e => set_penaltyCount (penaltyCount e + 1)%Z e) >>>
  emitWith (fun e => PenaltyUpdate (penaltyCount e)) >>>
  setCharacterMood worried 200 >>>
  (fun e => createParticles (width e / 2) SOURCE_TRACK_Y 3 "#ef4444" star e).

Definition calculateFinalScore (clk : Clock) (e : GameEngine) : Z :=
  let timeElapsed := (score_now clk - startTime e) / 1000 in
  let penalties := inject_Z (penaltyCount e) in
  let score := 10000 - (timeElapsed * 10) - (penalties * 50) in
  Z.max 0 (Math_floor score).

(** ** Extraction and validation *)

(** The predicate of [sourceSegments.filter]: the segment meets the marked
    range. *)
Definition overlapsRange (start end_ : Q) (s : TimelineSegment) : bool :=
  Qlt_bool (seg_x s) end_ && Qlt_bool start (seg_x s + seg_width s).

(** The CAT_MODE branch of [performExtract]. *)
Definition catModeSuccess (target : string) (start end_ : Q)
    (affectedSegments : list TimelineSegment) : bool :=
  let ALLOWED_SILENCE_FRAMES := 10 in
  let ALLOWED_SILENCE_PX := ALLOWED_SILENCE_FRAMES * FRAME_PIXELS in
  match List.find (fun s => String.eqb (seg_color s) target) affectedSegments with
  | None => false
  | Some targetMeow =>
      let caughtStart := Qle_bool start (seg_x targetMeow + (1 # 10)) in
      let caughtEnd :=
        Qle_bool (seg_x targetMeow + seg_width targetMeow - (1 # 10)) end_ in
      if caughtStart && caughtEnd then
        let silenceBefore := Qmax 0 (seg_x targetMeow - start) in
        let silenceAfter :=
          Qmax 0 (end_ - (seg_x targetMeow + seg_width targetMeow)) in
        if Qlt_bool ALLOWED_SILENCE_PX silenceBefore
           || Qlt_bool ALLOWED_SILENCE_PX silenceAfter
        then false
        else true
      else false
  end.

(** The STANDARD branch: [correctColorLength] summed by [forEach]. *)
Definition correctColorLength (target : string) (start end_ : Q)
    (affectedSegments : list TimelineSegment) : Q :=
  fold_left (fun acc seg =>
      let segStart := Qmax start (seg_x seg) in
      let segEnd := Qmin end_ (seg_x seg + seg_width seg) in
      let len := segEnd - segStart in
      if String.eqb (seg_color seg) target then acc + len else acc)
    affectedSegments 0.

Definition standardSuccess (target : string) (start end_ : Q)
    (affectedSegments : list TimelineSegment) : bool :=
  let duration := end_ - start in
  let accuracy := correctColorLength target start end_ affectedSegments / duration in
  Qle_bool (95 # 100) accuracy.

(** [sequenceClips.reduce((acc, clip) => acc + clip.width, 0)] *)
Definition totalPixels (clips : list SequenceClip) : Q :=
  fold_left (fun acc clip => acc + clip_width clip) clips 0.

(** The "Ripple Delete" block: two [forEach] passes pushing onto
    [newSegments]. *)
Definition pushBefore (start : Q) (newSegments : list TimelineSegment)
    (seg : TimelineSegment) : list TimelineSegment :=
  if Qle_bool (seg_x seg + seg_width seg) start then newSegments ++ [seg]
  else if Qlt_bool (seg_x seg) start then
    newSegments ++
      [mkSegment (seg_id seg) (seg_x seg) (start - seg_x seg) (seg_color seg)]
  else newSegments.

Definition pushAfter (end_ duration : Q) (newSegments : list TimelineSegment)
    (seg : TimelineSegment) : list TimelineSegment :=
  if Qle_bool end_ (seg_x seg) then
    newSegments ++
      [mkSegment (seg_id seg) (seg_x seg - duration) (seg_width seg)
         (seg_color seg)]
  else if Qlt_bool end_ (seg_x seg + seg_width seg) then
    let newLen := (seg_x seg + seg_width seg) - end_ in
    newSegments ++
      [mkSegment (seg_id seg) (end_ - duration) newLen (seg_color seg)]
  else newSegments.

Definition rippleDelete (start end_ : Q) (segs : list TimelineSegment)
    : list TimelineSegment :=
  let duration := end_ - start in
  let newSegments := fold_left (pushBefore start) segs [] in
  fold_left (pushAfter end_ duration) segs newSegments.

Definition performExtract (clk : Clock) : Cmd := fun e =>
  match markIn e, markOut e with
  | Some start, Some end_ =>
      let duration := end_ - start in
      if Qle_bool duration 0 then skip e else
      let affectedSegments :=
        List.filter (overlapsRange start end_) (sourceSegments e) in
      if (length affectedSegments =? 0)%nat then skip e else
      let success :=
        match gameMode e with
        | CAT_MODE => catModeSuccess (targetColor e) start end_ affectedSegments
        | STANDARD => standardSuccess (targetColor e) start end_ affectedSegments
        end in
      if negb success then
        (setCharacterMood worried 120 >>> emit GameOver) e
      else
        let particleColor :=
          match gameMode e with
          | CAT_MODE => "#f472b6"
          | STANDARD => targetColor e
          end in
        (setCharacterMood happy 60 >>>
         createParticles (width e / 2) SEQUENCE_TRACK_Y 20 particleColor heart >>>
         assign (fun e =>
           set_sequenceClips
             (sequenceClips e ++
                [mkClip ("clip_" +:+ pretty (date_now clk)) duration
                   (targetColor e)]) e) >>>
         emitWith (fun e => ScoreUpdate (totalPixels (sequenceClips e))) >>>
         when (fun e => Qle_bool WIN_PIXELS (totalPixels (sequenceClips e)))
           (emitWith (fun e => FinalScoreUpdate (calculateFinalScore clk e)) >>>
            stopAudio >>>
            emit Win)
           (assign (fun e =>
              set_sourceSegments (rippleDelete start end_ (sourceSegments e)) e) >>>
            assign (fun e => set_conveyorOffset ((width e / 2) - start) e) >>>
            assign (set_markIn None) >>>
            assign (set_markOut None) >>>
            assign (set_currentSpeed 0) >>>
            snapToFrame >>>
            stopAudio)) e
  | _, _ => skip e
  end.

(** ** Input handling *)

Definition handleKeyDown (clk : Clock) (key : string) : Cmd :=
  if String.eqb key KEY_K then
    when (fun e => negb (isHoldingK e))
      (assign (set_isHoldingK true) >>>
       assign (set_currentSpeed 0) >>>
       snapToFrame >>>
       stopAudio)
      skip
  else if String.eqb key KEY_L then
    when (fun e => negb (isHoldingL e))
      (assign (set_isHoldingL true) >>>
       assign (fun e =>
         set_inputTimestamps (<[KEY_L := now clk]> (inputTimestamps e)) e) >>>
       assign (fun e =>
         set_inputStartOffsets
           (<[KEY_L := conveyorOffset e]> (inputStartOffsets e)) e) >>>
       when isHoldingK
         (assign (set_currentSpeed (2 # 10)))
         (when (fun e => Qlt_bool (currentSpeed e) 0)
            (assign (set_currentSpeed 0))
            (when (fun e => Qeq_bool (currentSpeed e) 0)
               (assign (set_currentSpeed 1))
               (assign (fun e =>
                  set_currentSpeed (Qmin (currentSpeed e * 2) MAX_SPEED) e)))))
      skip
  else if String.eqb key KEY_J then
    when (fun e => negb (isHoldingJ e))
      (assign (set_isHoldingJ true) >>>
       assign (fun e =>
         set_inputTimestamps (<[KEY_J := now clk]> (inputTimestamps e)) e) >>>
       assign (fun e =>
         set_inputStartOffsets
           (<[KEY_J := conveyorOffset e]> (inputStartOffsets e)) e) >>>
       when isHoldingK
         (assign (set_currentSpeed (- (2 # 10))))
         (when (fun e => Qlt_bool 0 (currentSpeed e))
            (assign (set_currentSpeed 0))
            (when (fun e => Qeq_bool (currentSpeed e) 0)
               (assign (set_currentSpeed (- (1))))
               (assign (fun e =>
                  set_currentSpeed
                    (Qmax (currentSpeed e * 2) (- MAX_SPEED)) e)))))
      skip
  else if String.eqb key KEY_I then
    assign (fun e =>
      let tapeX := getTapeXAtPlayhead e in
      set_markIn (Some (frameGrid tapeX)) e) >>>
    when (fun e =>
            match markOut e, markIn e with
            | Some mo, Some mi => Qlt_bool mo mi
            | _, _ => false
            end)
      (assign (set_markOut None))
      skip >>>
    (fun e => createParticles (width e / 2)
                (SOURCE_TRACK_Y + TRACK_HEIGHT / 2) 5 "#fbbf24" spark e)
  else if String.eqb key KEY_O then
    fun e =>
      let tapeX := getTapeXAtPlayhead e in
      let snappedX := frameGrid tapeX in
      if match markIn e with
         | None => true
         | Some mi => Qlt_bool mi snappedX
         end
      then (assign (set_markOut (Some snappedX)) >>>
            createParticles (width e / 2)
              (SOURCE_TRACK_Y + TRACK_HEIGHT / 2) 5 "#fbbf24" spark) e
      else skip e
  else if String.eqb key KEY_PERIOD then performExtract clk
  else skip.

(** [handleKeyDown] writes [inputTimestamps] and [inputStartOffsets]
    together.  A key never pressed has no timestamp, the subtraction is
    [NaN] and the comparison with 200 is false; a timestamp without an
    offset does not arise, and the model takes the same branch there. *)
Definition handleKeyUp (clk : Clock) (key : string) : Cmd :=
  if String.eqb key KEY_K then assign (set_isHoldingK false)
  else if String.eqb key KEY_L then
    assign (set_isHoldingL false) >>>
    when isHoldingK
      (assign (set_currentSpeed 0) >>>
       stopAudio >>>
       fun e =>
         match inputTimestamps e !! KEY_L, inputStartOffsets e !! KEY_L with
         | Some pressed, Some startOffset =>
             if Qlt_bool (now clk - pressed) 200 then
               (assign (fun e =>
                  let startTapeX := (width e / 2) - startOffset in
                  let gridTapeX := frameGrid startTapeX in
                  let targetTapeX := gridTapeX + FRAME_PIXELS in
                  set_conveyorOffset ((width e / 2) - targetTapeX) e) >>>
                registerBadHabit) e
             else snapToFrame e
         | _, _ => snapToFrame e
         end)
      skip
  else if String.eqb key KEY_J then
    assign (set_isHoldingJ false) >>>
    when isHoldingK
      (assign (set_currentSpeed 0) >>>
       stopAudio >>>
       fun e =>
         match inputTimestamps e !! KEY_J, inputStartOffsets e !! KEY_J with
         | Some pressed, Some startOffset =>
             if Qlt_bool (now clk - pressed) 200 then
               (assign (fun e =>
                  let startTapeX := (width e / 2) - startOffset in
                  let gridTapeX := frameGrid startTapeX in
                  let targetTapeX := gridTapeX - FRAME_PIXELS in
                  set_conveyorOffset ((width e / 2) - targetTapeX) e) >>>
                registerBadHabit) e
             else snapToFrame e
         | _, _ => snapToFrame e
         end)
      skip
  else skip.

(** ** The animation tick

    [update] moves the tape and decays the mood; the audio graph and the
    particle list it also touches are outside the model. *)
Definition update (timestamp : Q) : Cmd :=
  fun e =>
    let dt := (timestamp - lastTime e) / (16666 # 1000) in
    (assign (set_lastTime timestamp) >>>
     assign (fun e =>
       set_conveyorOffset
         (conveyorOffset e - currentSpeed e * FRAME_PIXELS * dt) e) >>>
     when (fun e => Qlt_bool 0 (characterMoodTimer e))
       (assign (fun e => set_characterMoodTimer (characterMoodTimer e - dt) e) >>>
        when (fun e => Qle_bool (characterMoodTimer e) 0)
          (setCharacterMood idle 0)
          skip)
       (when (fun e => Qlt_bool 4 (Qabs (currentSpeed e)))
          (setCharacterMood dizzy 0)
          (when (fun e => negb (Qeq_bool (currentSpeed e) 0))
             (setCharacterMood focused 0)
             (setCharacterMood idle 0)))) e.

(** ** Extraction: the guards and the failing path *)

(** The value of [success] in [performExtract], for marks [start], [end_]. *)
Definition extractionValid (e : GameEngine) (start end_ : Q) : bool :=
  let affectedSegments :=
    List.filter (overlapsRange start end_) (sourceSegments e) in
  match gameMode e with
  | CAT_MODE => catModeSuccess (targetColor e) start end_ affectedSegments
  | STANDARD => standardSuccess (targetColor e) start end_ affectedSegments
  end.

(** A segment meets the half-open range [[start, end_)]. *)
Definition overlaps (start end_ : Q) (s : TimelineSegment) : Prop :=
  seg_x s < end_ /\ start < seg_x s + seg_width s.

(** The engine after a failed validation: only the mood fields move. *)
Definition afterFailure (e : GameEngine) : GameEngine :=
  set_characterMoodTimer 120 (set_characterMood worried e).

(** ** Sample states *)

(** The field initialisers of the class, with the canvas size the component
    passes to the constructor. *)
Definition newGameEngine : GameEngine :=
  mkEngine CANVAS_WIDTH CANVAS_HEIGHT [] [] STANDARD 0 None None 0 0 0
    false false false ∅ ∅ RED 0 idle 0.

Definition clock0 : Clock := mkClock 1000 1000 1700000000000.

(** An engine in mid-run: a tape, a mode and two marks. *)
Definition engineWith (tape : list TimelineSegment) (mode : GameMode)
    (mi mo : option Q) : GameEngine :=
  set_markOut mo (set_markIn mi (set_gameMode mode
    (set_sourceSegments tape newGameEngine))).

Definition redTape : list TimelineSegment :=
  [mkSegment "seg_0" 0 300 RED].

Definition redBlueTape : list TimelineSegment :=
  [mkSegment "seg_0" 0 300 RED; mkSegment "seg_1" 300 120 BLUE].

(** A run of 400 draws: every width draw is 1/2, the color draws walk
    through the palette. *)
Definition sampleDraws : list Q :=
  flat_map (fun i : nat =>
      [1 # 2; inject_Z (2 * (Z.of_nat i mod 6) + 1) / 12])
    (seq 0 200).

Definition sampleTape : list TimelineSegment :=
  match generateSourceTape sampleDraws with
  | Some (tape, _) => tape
  | None => []
  end.

(** ** Marks *)

(** The engine right after [start(RED, 'STANDARD')] on [sampleDraws]. *)
Definition started : GameEngine :=
  match start RED STANDARD 0 0 sampleDraws newGameEngine with
  | Some (e, _) => e
  | None => newGameEngine
  end.

(** The mark invariant of the data model: [markOut], when both marks are
    set, lies strictly after [markIn]. *)
Definition marksOrdered (e : GameEngine) : Prop :=
  match markIn e, markOut e with
  | Some mi, Some mo => mi < mo
  | _, _ => True
  end.

(** ** Tap or hold on release *)

(** A jog tap: K down at 1000 ms, L down at 1100 ms, one tick of drift at
    1116 ms; the release comes at 1150 ms. *)
Definition parked : GameEngine :=
  fst (handleKeyDown (mkClock 1000 1000 0) KEY_K newGameEngine).

Definition tapping : GameEngine :=
  fst (update 1116
         (fst (handleKeyDown (mkClock 1100 1100 0) KEY_L
                 (set_lastTime 1100 parked)))).

(** ** Tapes *)

(** Neighbouring entries of a list are related by [R]. *)
Definition adjacent {A} (R : A -> A -> Prop) (l : list A) : Prop :=
  forall (i : nat) (s t : A),
    nth_error l i = Some s -> nth_error l (S i) = Some t -> R s t.

(** [segments[i].x + segments[i].width == segments[i+1].x] for every [i]. *)
Definition contiguous (segs : list TimelineSegment) : Prop :=
  adjacent (fun s t => seg_x s + seg_width s == seg_x t) segs.

Definition positiveWidths (segs : list TimelineSegment) : Prop :=
  Forall (fun s => 0 < seg_width s) segs.

(** The edit-list invariant: segments of positive width, each starting where
    the one before it ends. *)
Definition tapeOk (segs : list TimelineSegment) : Prop :=
  positiveWidths segs /\ contiguous segs.

(** [segs] runs from position [a] to position [b] without gap. *)
Fixpoint chain (a : Q) (segs : list TimelineSegment) (b : Q) : Prop :=
  match segs with
  | [] => a == b
  | s :: segs' =>
      seg_x s == a /\ 0 < seg_width s /\
      chain (seg_x s + seg_width s) segs' b
  end.

Definition totalWidth (segs : list TimelineSegment) : Q :=
  fold_right (fun s acc => seg_width s + acc) 0 segs.

(** ** Outcome of an extraction attempt *)

(** The attempt succeeds: a clip is appended to the sequence. *)
Definition extractSucceeds (clk : Clock) (e : GameEngine) : Prop :=
  exists clip,
    sequenceClips (fst (performExtract clk e)) = sequenceClips e ++ [clip].

(** The attempt fails: the game-over callback is invoked. *)
Definition extractFails (clk : Clock) (e : GameEngine) : Prop :=
  In GameOver (snd (performExtract clk e)).

(** ** STANDARD mode: coverage of the marked range *)

(** Length of the part of segment [s] inside [[start, end_)]. *)
Definition overlapLength (start end_ : Q) (s : TimelineSegment) : Q :=
  Qmax 0 (Qmin end_ (seg_x s + seg_width s) - Qmax start (seg_x s)).

(** Pixels of the range covered by the segments whose color satisfies [p]. *)
Definition coverage (p : string -> bool) (start end_ : Q)
    (segs : list TimelineSegment) : Q :=
  fold_right (fun s acc =>
      if p (seg_color s) then overlapLength start end_ s + acc else acc)
    0 segs.

Definition targetCoverage (target : string) : Q -> Q -> list TimelineSegment -> Q :=
  coverage (fun c => String.eqb c target).

Definition offTargetCoverage (target : string) : Q -> Q -> list TimelineSegment -> Q :=
  coverage (fun c => negb (String.eqb c target)).

(** The fraction of the marked duration covered by target-colored segments. *)
Definition targetFraction (e : GameEngine) (start end_ : Q) : Q :=
  targetCoverage (targetColor e) start end_ (sourceSegments e) / (end_ - start).

Definition offTargetFraction (e : GameEngine) (start end_ : Q) : Q :=
  offTargetCoverage (targetColor e) start end_ (sourceSegments e) / (end_ - start).

(** ** CAT_MODE *)

(** The target-colored segments among those meeting the range, in tape
    order. *)
Definition targetsInRange (target : string) (start end_ : Q)
    (segs : list TimelineSegment) : list TimelineSegment :=
  List.filter (fun s => String.eqb (seg_color s) target)
    (List.filter (overlapsRange start end_) segs).

(** Segment [m] lies inside the range up to 0.1 px at either edge, with at
    most 60 px of range before it and after it. *)
Definition catAccepts (start end_ : Q) (m : TimelineSegment) : Prop :=
  start <= seg_x m + (1 # 10) /\
  seg_x m + seg_width m - (1 # 10) <= end_ /\
  seg_x m - start <= 60 /\
  end_ - (seg_x m + seg_width m) <= 60.

Definition twoRedTape : list TimelineSegment :=
  [mkSegment "seg_0" 0 102 RED; mkSegment "seg_1" 102 48 BLUE;
   mkSegment "seg_4" 150 102 RED].

(** ** Ripple delete *)

Definition fullyBefore (start : Q) (s : TimelineSegment) : bool :=
  Qle_bool (seg_x s + seg_width s) start.

Definition straddlesStart (start : Q) (s : TimelineSegment) : bool :=
  negb (Qle_bool (seg_x s + seg_width s) start) && Qlt_bool (seg_x s) start.

Definition fullyAfter (end_ : Q) (s : TimelineSegment) : bool :=
  Qle_bool end_ (seg_x s).

Definition straddlesEnd (end_ : Q) (s : TimelineSegment) : bool :=
  negb (Qle_bool end_ (seg_x s)) && Qlt_bool end_ (seg_x s + seg_width s).

(** [{ ...seg, width: start - seg.x }] *)
Definition truncateAtStart (start : Q) (s : TimelineSegment) : TimelineSegment :=
  mkSegment (seg_id s) (seg_x s) (start - seg_x s) (seg_color s).

(** [{ ...seg, x: end - duration, width: newLen }] *)
Definition resumeAfterEnd (end_ duration : Q) (s : TimelineSegment)
    : TimelineSegment :=
  mkSegment (seg_id s) (end_ - duration) ((seg_x s + seg_width s) - end_)
    (seg_color s).

(** [{ ...seg, x: seg.x - duration }] *)
Definition shiftLeft (duration : Q) (s : TimelineSegment) : TimelineSegment :=
  mkSegment (seg_id s) (seg_x s - duration) (seg_width s) (seg_color s).

(** What each pass pushes for one segment. *)
Definition keepBefore (start : Q) (s : TimelineSegment) : list TimelineSegment :=
  if fullyBefore start s then [s]
  else if Qlt_bool (seg_x s) start then [truncateAtStart start s]
  else [].

Definition keepAfter (end_ duration : Q) (s : TimelineSegment)
    : list TimelineSegment :=
  if fullyAfter end_ s then [shiftLeft duration s]
  else if Qlt_bool end_ (seg_x s + seg_width s)
  then [resumeAfterEnd end_ duration s]
  else [].

Definition rgbTape : list TimelineSegment :=
  [mkSegment "seg_0" 0 120 BLUE; mkSegment "seg_1" 120 300 RED;
   mkSegment "seg_2" 420 180 GREEN].

(** ** The generated tape *)

(** A value [Math.random()] can return. *)
Definition unitDraw (r : Q) : Prop := 0 <= r /\ r < 1.

(** The width was obtained by rounding a draw from
    [[SEGMENT_MIN_WIDTH, SEGMENT_MAX_WIDTH]] to the frame grid. *)
Definition roundedWidth (s : TimelineSegment) : Prop :=
  exists raw : Q,
    SEGMENT_MIN_WIDTH <= raw /\ raw <= SEGMENT_MAX_WIDTH /\
    seg_width s = frameGrid raw.

Definition differentColor (s t : TimelineSegment) : Prop :=
  seg_color s <> seg_color t.

(** The loop invariant of [generateSourceTape] before iteration [i]. *)
Definition generated (i : nat) (currentX : Q) (segs : list TimelineSegment)
    : Prop :=
  length segs = i /\
  chain 0 segs currentX /\
  adjacent differentColor segs /\
  Forall roundedWidth segs.

(** ** The tape invariant along a run *)

(** Commands that leave the tape alone. *)
Definition keepsTape (c : Cmd) : Prop :=
  forall e, sourceSegments (fst (c e)) = sourceSegments e.

(** The states of a run: [start], then key events and ticks in any order. *)
Inductive reachable : GameEngine -> Prop :=
| reach_start target mode t_last t_start rnd e e' log :
    Forall unitDraw rnd ->
    start target mode t_last t_start rnd e = Some (e', log) ->
    reachable e'
| reach_keyDown clk key e :
    reachable e -> reachable (fst (handleKeyDown clk key e))
| reach_keyUp clk key e :
    reachable e -> reachable (fst (handleKeyUp clk key e))
| reach_update timestamp e :
    reachable e -> reachable (fst (update timestamp e)).

(** ** Segment lookup and audio feedback *)

(** [sourceSegments.find(s => tapeX >= s.x && tapeX < s.x + s.width)], the
    lookup of [updateAudio] and [drawCharacterOnTimeline]. *)
Definition segmentAt (tapeX : Q) (segs : list TimelineSegment)
    : option TimelineSegment :=
  List.find (fun s =>
      Qle_bool (seg_x s) tapeX && Qlt_bool tapeX (seg_x s + seg_width s))
    segs.

(** Pentatonic scale frequencies, keyed by color. *)
Definition COLOR_FREQUENCIES : gmap string Q :=
  <[RED := 26163 # 100]> (<[ORANGE := 29366 # 100]> (<[YELLOW := 32963 # 100]>
  (<[GREEN := 34923 # 100]> (<[BLUE := 392]> (<[PURPLE := 440]> ∅))))).

(** The audio fields of the engine: the flag, the context (by its
    [currentTime]), the two nodes, and the meow buffer (by its [duration]). *)
Record AudioHandles := mkAudio {
  isAudioInitialized : bool;
  audioCtx : option Q;
  gainNode : bool;
  oscillator : bool;
  meowBuffer : option Q
}.

(** The calls [updateAudio] makes on the audio graph:
    [gain.setTargetAtTime], [frequency.setTargetAtTime], and a buffer source
    started with its playback rate. *)
Inductive AudioCommand :=
| GainTarget (target startTime timeConstant : Q)
| FrequencyTarget (target startTime timeConstant : Q)
| PlayGrain (startTime offset duration playbackRate : Q).

(** [COLOR_FREQUENCIES[color] || 440] *)
Definition baseFrequency (color : string) : Q :=
  match COLOR_FREQUENCIES !! color with
  | Some f => if Qeq_bool f 0 then 440 else f
  | None => 440
  end.

Definition updateAudio (a : AudioHandles) (e : GameEngine)
    : list AudioCommand :=
  match audioCtx a with
  | None => []
  | Some currentTime =>
      if negb (isAudioInitialized a) || negb (gainNode a) then [] else
      let tapeX := getTapeXAtPlayhead e in
      match segmentAt tapeX (sourceSegments e) with
      | Some segment =>
          if negb (Qeq_bool (currentSpeed e) 0) then
            match gameMode e with
            | CAT_MODE =>
                match meowBuffer a with
                | Some duration =>
                    if String.eqb (seg_color segment) (targetColor e) then
                      let progress := (tapeX - seg_x segment) / seg_width segment in
                      let bufferOffset :=
                        Qmax 0 (Qmin (progress * duration) duration) in
                      let pitchShift := Qabs (currentSpeed e) in
                      let playbackRate := Qmax (1 # 10) (Qmin pitchShift 3) in
                      let grainDuration := 5 # 100 in
                      (if oscillator a
                       then [GainTarget 0 currentTime (1 # 100)] else [])
                      ++ [PlayGrain currentTime bufferOffset grainDuration
                            playbackRate;
                          GainTarget (3 # 10) currentTime (1 # 100)]
                    else [GainTarget 0 currentTime (5 # 100)]
                | None => [GainTarget 0 currentTime (5 # 100)]
                end
            | STANDARD =>
                let baseFreq := baseFrequency (seg_color segment) in
                let pitchShift :=
                  Qmin (Qmax (currentSpeed e * (5 # 100)) (- (1 # 2))) (1 # 2) in
                if oscillator a then
                  [FrequencyTarget (baseFreq * (1 + pitchShift)) currentTime
                     (5 # 100);
                   GainTarget (1 # 10) currentTime (5 # 100)]
                else []
            end
          else [GainTarget 0 currentTime (5 # 100)]
      | None => [GainTarget 0 currentTime (5 # 100)]
      end
  end.

(** ** Jogging *)

(** A key pressed and released: [handleKeyDown] then [handleKeyUp]. *)
Definition tapKey (key : string) (clks : Clock * Clock) : Cmd :=
  handleKeyDown (fst clks) key >>> handleKeyUp (snd clks) key.

(** A series of taps of one key, one pair of clock readings per tap. *)
Definition tapKeys (key : string) (clks : list (Clock * Clock))
    (e : GameEngine) : GameEngine :=
  fold_left (fun e c => fst (tapKey key c e)) clks e.

(** ** Invariants of a run *)

Definition speedWithinLimits (e : GameEngine) : Prop :=
  - MAX_SPEED <= currentSpeed e /\ currentSpeed e <= MAX_SPEED.

Definition onFrameGrid (x : Q) : Prop :=
  exists k : Z, x = inject_Z k * FRAME_PIXELS.

(** Both marks sit on the frame grid, and [markOut] is not before
    [markIn]. *)
Definition marksOk (e : GameEngine) : Prop :=
  (forall m, markIn e = Some m -> onFrameGrid m) /\
  (forall m, markOut e = Some m -> onFrameGrid m) /\
  (forall mi mo, markIn e = Some mi -> markOut e = Some mo -> mi <= mo).


Definition paletteTape (segs : list TimelineSegment) : Prop :=
  Forall (fun s => In (seg_color s) AVAILABLE_COLORS) segs.

(** The engine after the clip is pushed, and after the ripple delete. *)
Definition withClip (clk : Clock) (e : GameEngine) (start end_ : Q)
    : GameEngine :=
  set_sequenceClips
    (sequenceClips e ++
       [mkClip ("clip_" +:+ pretty (date_now clk)) (end_ - start)
          (targetColor e)])
    (set_characterMoodTimer 60 (set_characterMood happy e)).

Definition afterRipple (clk : Clock) (e : GameEngine) (start end_ : Q)
    : GameEngine :=
  fst (snapToFrame
    (set_currentSpeed 0 (set_markOut None (set_markIn None
      (set_conveyorOffset ((width e / 2) - start)
        (set_sourceSegments (rippleDelete start end_ (sourceSegments e))
           (withClip clk e start end_))))))).

(** ** The component around the engine (App.tsx, GameCanvas) *)

Inductive GameState := START | PLAYING | WON | GAME_OVER.

Record HighScore := mkHighScore {
  hs_name : string;
  hs_score : Z;
  hs_mode : GameMode;
  hs_date : Z
}.

(** The React state of [App] and the engine behind [gameEngineRef]. *)
Record App := mkApp {
  gameState : GameState;
  ui_gameMode : GameMode;
  score : Q;
  ui_penaltyCount : Z;
  finalScore : Z;
  ui_targetColor : string;
  highScores : list HighScore;
  engine : GameEngine
}.

(** The five callbacks the component hands to the engine. *)
Definition applyEffect (app : App) (x : Effect) : App :=
  match x with
  | ScoreUpdate s =>
      mkApp (gameState app) (ui_gameMode app) s (ui_penaltyCount app)
        (finalScore app) (ui_targetColor app) (highScores app) (engine app)
  | PenaltyUpdate p =>
      mkApp (gameState app) (ui_gameMode app) (score app) p
        (finalScore app) (ui_targetColor app) (highScores app) (engine app)
  | FinalScoreUpdate s =>
      mkApp (gameState app) (ui_gameMode app) (score app) (ui_penaltyCount app)
        s (ui_targetColor app) (highScores app) (engine app)
  | GameOver =>
      mkApp GAME_OVER (ui_gameMode app) (score app) (ui_penaltyCount app)
        (finalScore app) (ui_targetColor app) (highScores app) (engine app)
  | Win =>
      mkApp WON (ui_gameMode app) (score app) (ui_penaltyCount app)
        (finalScore app) (ui_targetColor app) (highScores app) (engine app)
  | StopAudio => app
  | Particles _ _ _ _ _ => app
  end.

(** An engine method run from the component: the engine is replaced and the
    callbacks it invoked are applied in order. *)
Definition runEngine (c : Cmd) (app : App) : App :=
  let r := c (engine app) in
  fold_left applyEffect (snd r)
    (mkApp (gameState app) (ui_gameMode app) (score app) (ui_penaltyCount app)
       (finalScore app) (ui_targetColor app) (highScores app) (fst r)).

(** The state of [App] at mount. *)
Definition mountApp : App :=
  mkApp START STANDARD 0 0 0 RED [] newGameEngine.

(** [startGame(mode)]: the first draw picks the target color, the rest go
    to the generator. *)
Definition startGame (mode : GameMode) (t_last t_start : Q) (rnd : list Q)
    (app : App) : option App :=
  match rnd with
  | [] => None
  | r :: rnd' =>
      let randomColor := randomColor r in
      match start randomColor mode t_last t_start rnd' (engine app) with
      | None => None
      | Some (e', log) =>
          Some (fold_left applyEffect log
                  (mkApp PLAYING mode 0 0 0 randomColor (highScores app) e'))
      end
  end.

(** The effect that runs at mount: the scores parsed from local storage,
    when there are any and they parse. *)
Definition loadHighScores (stored : option (list HighScore)) (app : App)
    : App :=
  match stored with
  | Some scores =>
      mkApp (gameState app) (ui_gameMode app) (score app)
        (ui_penaltyCount app) (finalScore app) (ui_targetColor app) scores
        (engine app)
  | None => app
  end.

(** [goToMenu] *)
Definition goToMenu (app : App) : App :=
  let app := runEngine stopAudio app in
  mkApp START (ui_gameMode app) (score app) (ui_penaltyCount app)
    (finalScore app) (ui_targetColor app) (highScores app) (engine app).

(** The window listeners of [GameCanvas]; [key] is [e.key.toLowerCase()]. *)
Definition onKeyDown (clk : Clock) (key : string) (app : App) : App :=
  match gameState app with
  | PLAYING => runEngine (handleKeyDown clk key) app
  | _ => app
  end.

Definition onKeyUp (clk : Clock) (key : string) (app : App) : App :=
  runEngine (handleKeyUp clk key) app.

(** The animation frame callback, up to drawing. *)
Definition onFrame (time : Q) (app : App) : App :=
  match gameState app with
  | PLAYING => runEngine (update time) app
  | _ => app
  end.

(** [Array.prototype.sort((a, b) => b.score - a.score)]: the sort is stable,
    so an entry goes before the first one that does not beat it. *)
Fixpoint insertByScore (h : HighScore) (l : list HighScore) : list HighScore :=
  match l with
  | [] => [h]
  | x :: l' =>
      if (hs_score x <=? hs_score h)%Z then h :: x :: l'
      else x :: insertByScore h l'
  end.

Definition sortByScore (l : list HighScore) : list HighScore :=
  fold_right insertByScore [] l.

(** [saveHighScore(name)]; [trim] is [String.prototype.trim]. *)
Definition saveHighScore (trim : string -> string) (name : string)
    (dateNow : Z) (app : App) : App :=
  let trimmed := trim name in
  let newScore :=
    mkHighScore (if String.eqb trimmed EmptyString then "Anonymous" else trimmed)
      (finalScore app) (ui_gameMode app) dateNow in
  let updatedScores :=
    firstn 10 (sortByScore (highScores app ++ [newScore])) in
  mkApp (gameState app) (ui_gameMode app) (score app) (ui_penaltyCount app)
    (finalScore app) (ui_targetColor app) updatedScores (engine app).

(** The states the component goes through. *)
Inductive appReachable : App -> Prop :=
| app_mount : appReachable mountApp
| app_startGame mode t_last t_start rnd app app' :
    appReachable app -> Forall unitDraw rnd ->
    startGame mode t_last t_start rnd app = Some app' ->
    appReachable app'
| app_keyDown clk key app :
    appReachable app -> appReachable (onKeyDown clk key app)
| app_keyUp clk key app :
    appReachable app -> appReachable (onKeyUp clk key app)
| app_frame time app :
    appReachable app -> appReachable (onFrame time app)
| app_menu app :
    appReachable app -> appReachable (goToMenu app)
| app_save trim name dateNow app :
    appReachable app -> appReachable (saveHighScore trim name dateNow app)
| app_load stored app :
    appReachable app -> appReachable (loadHighScores stored app).

(** ** The key handlers, branch by branch *)

(** The speed the L key sets, and the J key. *)
Definition speedAfterL (e : GameEngine) : Q :=
  if isHoldingK e then 2 # 10
  else if Qlt_bool (currentSpeed e) 0 then 0
  else if Qeq_bool (currentSpeed e) 0 then 1
  else Qmin (currentSpeed e * 2) MAX_SPEED.

Definition speedAfterJ (e : GameEngine) : Q :=
  if isHoldingK e then - (2 # 10)
  else if Qlt_bool 0 (currentSpeed e) then 0
  else if Qeq_bool (currentSpeed e) 0 then - (1)
  else Qmax (currentSpeed e * 2) (- MAX_SPEED).

(** The engine after a shuttle key goes down for the first time. *)
Definition pressed (clk : Clock) (key : string) (speed : Q)
    (e : GameEngine) : GameEngine :=
  set_currentSpeed speed
    (set_inputStartOffsets (<[key := conveyorOffset e]> (inputStartOffsets e))
       (set_inputTimestamps (<[key := now clk]> (inputTimestamps e)) e)).

(** The engine after a tap of [key] is recognised on release: one frame
    [step] from the grid position of the press, and a bad habit. *)
Definition stepped (startOffset step : Q) (e : GameEngine) : GameEngine :=
  set_characterMoodTimer 200 (set_characterMood worried
    (set_penaltyCount (penaltyCount e + 1)%Z
       (set_conveyorOffset
          ((width e / 2) - (frameGrid ((width e / 2) - startOffset) + step))
          (set_currentSpeed 0 e)))).

Definition snapped (e : GameEngine) : GameEngine := fst (snapToFrame e).

(** The particle burst of a successful extraction. *)
Definition extractBurst (e : GameEngine) : Effect :=
  Particles (width e / 2) SEQUENCE_TRACK_Y 20
    match gameMode e with
    | CAT_MODE => "#f472b6"
    | STANDARD => targetColor e
    end heart.

Definition markSpark (e : GameEngine) : Effect :=
  Particles (width e / 2) (SOURCE_TRACK_Y + TRACK_HEIGHT / 2) 5 "#fbbf24" spark.

(** What the release of a shuttle key does once its flag is cleared. *)
Definition released (clk : Clock) (key : string) (step : Q)
    (e : GameEngine) : GameEngine * list Effect :=
  if isHoldingK e then
    match inputTimestamps e !! key, inputStartOffsets e !! key with
    | Some pressed, Some startOffset =>
        if Qlt_bool (now clk - pressed) 200 then
          (stepped startOffset step e,
           [StopAudio; PenaltyUpdate (penaltyCount e + 1)%Z;
            Particles (width e / 2) SOURCE_TRACK_Y 3 "#ef4444" star])
        else (snapped (set_currentSpeed 0 e), [StopAudio])
    | _, _ => (snapped (set_currentSpeed 0 e), [StopAudio])
    end
  else (e, []).

(** The engine after [update]: the tape moved, the mood decayed. *)
Definition moved (timestamp : Q) (e : GameEngine) : GameEngine :=
  let dt := (timestamp - lastTime e) / (16666 # 1000) in
  set_conveyorOffset (conveyorOffset e - currentSpeed e * FRAME_PIXELS * dt)
    (set_lastTime timestamp e).

(** The engine [start] leaves behind on the tape [tape]. *)
Definition fresh (target : string) (mode : GameMode) (t_last t_start : Q)
    (tape : list TimelineSegment) (e : GameEngine) : GameEngine :=
  mkEngine (width e) (height e) tape [] mode
    ((width e / 2) - frameGrid ((width e / 2) - 0)) None None 0 t_last t_start
    false false false (inputTimestamps e) (inputStartOffsets e) target 0%Z
    idle (characterMoodTimer e).


(** A command that turns the gain down to zero. *)
Definition silences (c : AudioCommand) : bool :=
  match c with
  | GainTarget target _ _ => Qeq_bool target 0
  | _ => false
  end.

(** The pitch shift of the color tone: [min(max(speed * 0.05, -0.5), 0.5)]. *)
Definition tonePitchShift (e : GameEngine) : Q :=
  Qmin (Qmax (currentSpeed e * (5 # 100)) (- (1 # 2))) (1 # 2).

(** [(tapeX - segment.x) / segment.width] *)
Definition scrubProgress (e : GameEngine) (segment : TimelineSegment) : Q :=
  (getTapeXAtPlayhead e - seg_x segment) / seg_width segment.

(** An audio graph as [initAudio] leaves it when the browser has Web Audio:
    the context at [currentTime], both nodes, and the one-second meow. *)
Definition audioReady (currentTime : Q) : AudioHandles :=
  mkAudio true (Some currentTime) true true (Some 1).

(** The tape rolling at [speed] with the playhead at 400, over the red
    segment of [rgbTape]. *)
Definition rolling (mode : GameMode) (speed : Q) : GameEngine :=
  set_currentSpeed speed (engineWith rgbTape mode None None).

(** ** The component in step with the engine *)

(** Effects that reach no React state. *)
Definition quiet (x : Effect) : bool :=
  match x with
  | StopAudio | Particles _ _ _ _ _ => true
  | _ => false
  end.

(** What the component shows is what the engine holds. *)
Definition hudInSync (app : App) : Prop :=
  score app = totalPixels (sequenceClips (engine app)) /\
  ui_penaltyCount app = penaltyCount (engine app) /\
  ui_targetColor app = targetColor (engine app) /\
  ui_gameMode app = gameMode (engine app).

(** The game state agrees with the score, and outside the start screen the
    engine is in a state of a run. *)
Definition inStep (app : App) : Prop :=
  hudInSync app /\
  (gameState app = PLAYING \/ gameState app = GAME_OVER ->
   score app < WIN_PIXELS) /\
  (gameState app = WON -> WIN_PIXELS <= score app) /\
  (0 <= finalScore app)%Z /\
  (gameState app <> START -> reachable (engine app)).

(** The component right after [startGame('STANDARD')], the first draw
    picking red. *)
Definition playingApp : App :=
  match startGame STANDARD 0 0 ((1 # 12) :: sampleDraws) mountApp with
  | Some app => app
  | None => mountApp
  end.

(** The order of the leaderboard: best score first. *)
Definition byScore (a b : HighScore) : Prop := (hs_score b <= hs_score a)%Z.

(** ** States of a run *)

(** The tape of a run: well formed, in palette colors, no longer than 200
    segments of [SEGMENT_MAX_WIDTH]. *)
Definition runTape (e : GameEngine) : Prop :=
  tapeOk (sourceSegments e) /\
  paletteTape (sourceSegments e) /\
  totalWidth (sourceSegments e) <= 60000.

(** A stop off the grid: J from rest, a tick of reverse play, then L. *)
Definition reversing : GameEngine :=
  fst (handleKeyUp clock0 KEY_J
         (fst (update 25 (fst (handleKeyDown clock0 KEY_J started))))).

(** * Properties *)

(** ** Numbers *)

Lemma Qlt_bool_iff (x y : Q) : Qlt_bool x y = true <-> x < y.
Proof.
  unfold Qlt_bool. rewrite negb_true_iff.
  split; intro H.
  - apply Qnot_le_lt. intro Hle. apply Qle_bool_iff in Hle. congruence.
  - destruct (Qle_bool y x) eqn:E; [|reflexivity].
    apply Qle_bool_iff in E. exfalso. apply (Qlt_not_le _ _ H E).
Qed.

Lemma Qle_bool_false (x y : Q) : Qle_bool x y = false <-> y < x.
Proof.
  rewrite <- Qlt_bool_iff. unfold Qlt_bool. rewrite negb_true_iff. tauto.
Qed.

(** Unfolds the command combinators down to a state and an effect list. *)
Ltac decide_durations :=
  repeat match goal with
  | |- context [Qlt_bool 0 ?d] =>
      let b := eval vm_compute in (Qlt_bool 0 d) in
      match b with
      | true => change (Qlt_bool 0 d) with true
      | false => change (Qlt_bool 0 d) with false
      end
  end.

Ltac run_cmd :=
  cbv [andThen assign emit emitWith when skip stopAudio createParticles
       setCharacterMood snapToFrame registerBadHabit];
  decide_durations;
  cbn [fst snd app].

(** ** Frame grid *)

Lemma Math_round_inject_Z (k : Z) : Math_round (inject_Z k) = k.
Proof.
  unfold Math_round.
  pose proof (Qfloor_le (inject_Z k + (1 # 2))) as Hlo.
  pose proof (Qlt_floor (inject_Z k + (1 # 2))) as Hhi.
  set (f := Qfloor (inject_Z k + (1 # 2))) in *. clearbody f.
  destruct (Z.lt_trichotomy f k) as [Hlt | [Heq | Hgt]]; [| exact Heq |]; exfalso.
  - assert (Hle : (f + 1 <= k)%Z) by lia.
    rewrite Zle_Qle in Hle. lra.
  - assert (Hle : (k + 1 <= f)%Z) by lia.
    rewrite Zle_Qle, inject_Z_plus in Hle.
    change (inject_Z 1) with 1 in Hle. lra.
Qed.

Lemma frameGrid_on_grid (x : Q) (k : Z) :
  x == inject_Z k * FRAME_PIXELS ->
  frameGrid x = inject_Z k * FRAME_PIXELS.
Proof.
  intro Hx. unfold frameGrid. f_equal. f_equal.
  rewrite <- (Math_round_inject_Z k).
  unfold Math_round at 1 2. apply Qfloor_comp.
  rewrite Hx. unfold FRAME_PIXELS. field.
Qed.

Lemma frameGrid_multiple (x : Q) :
  frameGrid x = inject_Z (Math_round (x / FRAME_PIXELS)) * FRAME_PIXELS.
Proof. reflexivity. Qed.

Lemma getTapeX_snapToFrame (e : GameEngine) :
  getTapeXAtPlayhead (fst (snapToFrame e)) == frameGrid (getTapeXAtPlayhead e).
Proof.
  run_cmd. unfold getTapeXAtPlayhead at 1. cbn. ring.
Qed.

(** C9. [snapToFrame] is idempotent: a second application leaves the engine
    as the first one left it, and after one application the playhead's tape
    position is an integer multiple of [FRAME_PIXELS]. *)
Theorem snapToFrame_idempotent (e : GameEngine) :
  fst (snapToFrame (fst (snapToFrame e))) = fst (snapToFrame e) /\
  snd (snapToFrame e) = [] /\
  exists k : Z,
    getTapeXAtPlayhead (fst (snapToFrame e)) == inject_Z k * FRAME_PIXELS.
Proof.
  split; [| split; [reflexivity |]].
  - pose proof (getTapeX_snapToFrame e) as H.
    rewrite frameGrid_multiple in H.
    apply frameGrid_on_grid in H.
    unfold snapToFrame at 1. unfold assign. cbn [fst].
    rewrite H. reflexivity.
  - eexists. rewrite getTapeX_snapToFrame. rewrite frameGrid_multiple. reflexivity.
Qed.

(** ** Extraction: the guards and the failing path *)

Lemma overlapsRange_iff (start end_ : Q) (s : TimelineSegment) :
  overlapsRange start end_ s = true <-> overlaps start end_ s.
Proof.
  unfold overlapsRange, overlaps.
  rewrite andb_true_iff, !Qlt_bool_iff. tauto.
Qed.

Lemma filter_nil_iff {A} (f : A -> bool) (l : list A) :
  List.filter f l = [] <-> Forall (fun x => f x = false) l.
Proof.
  induction l as [| a l IH]; cbn.
  - split; [constructor | reflexivity].
  - destruct (f a) eqn:E.
    + split; [discriminate |]. intro H. inversion H; subst. congruence.
    + rewrite IH. split; [constructor; assumption |].
      intro H. inversion H; assumption.
Qed.

Lemma no_overlap_filter (start end_ : Q) (segs : list TimelineSegment) :
  Forall (fun s => ~ overlaps start end_ s) segs ->
  List.filter (overlapsRange start end_) segs = [].
Proof.
  intro H. apply filter_nil_iff.
  eapply List.Forall_impl; [| exact H]. cbn. intros s Hs.
  destruct (overlapsRange start end_ s) eqn:E; [| reflexivity].
  apply overlapsRange_iff in E. contradiction.
Qed.

Lemma some_overlap_filter (start end_ : Q) (segs : list TimelineSegment) :
  Exists (overlaps start end_) segs ->
  (length (List.filter (overlapsRange start end_) segs) =? 0)%nat = false.
Proof.
  intro H. apply List.Exists_exists in H. destruct H as [s [Hin Hs]].
  apply overlapsRange_iff in Hs.
  assert (Hf : In s (List.filter (overlapsRange start end_) segs))
    by (apply List.filter_In; split; assumption).
  destruct (List.filter (overlapsRange start end_) segs); [destruct Hf |].
  reflexivity.
Qed.

Lemma positive_duration (start end_ : Q) :
  start < end_ -> Qle_bool (end_ - start) 0 = false.
Proof. intro H. apply Qle_bool_false. lra. Qed.

Lemma performExtract_noop_run
    (clk : Clock) (e : GameEngine) (start end_ : Q) :
  markIn e = Some start ->
  markOut e = Some end_ ->
  start < end_ ->
  Forall (fun s => ~ overlaps start end_ s) (sourceSegments e) ->
  performExtract clk e = (e, []).
Proof.
  intros Hin Hout Hlt Hno.
  unfold performExtract. rewrite Hin, Hout.
  rewrite (positive_duration _ _ Hlt).
  rewrite (no_overlap_filter _ _ _ Hno). reflexivity.
Qed.

(** C10. With both marks set and [markOut > markIn], when the range meets no
    source segment the extract key does nothing: [performExtract] (and the
    [.] key that calls it) returns the engine as it was and fires no
    callback, neither a success nor a game over. *)
Theorem performExtract_no_overlap_noop
    (clk : Clock) (e : GameEngine) (start end_ : Q) :
  markIn e = Some start ->
  markOut e = Some end_ ->
  start < end_ ->
  Forall (fun s => ~ overlaps start end_ s) (sourceSegments e) ->
  performExtract clk e = (e, []) /\
  handleKeyDown clk KEY_PERIOD e = (e, []).
Proof.
  intros Hin Hout Hlt Hno.
  pose proof (performExtract_noop_run clk e start end_ Hin Hout Hlt Hno) as H.
  split; [exact H |].
  unfold handleKeyDown. cbn. exact H.
Qed.

Lemma performExtract_failure_run
    (clk : Clock) (e : GameEngine) (start end_ : Q) :
  markIn e = Some start ->
  markOut e = Some end_ ->
  start < end_ ->
  Exists (overlaps start end_) (sourceSegments e) ->
  extractionValid e start end_ = false ->
  performExtract clk e = (afterFailure e, [GameOver]).
Proof.
  intros Hin Hout Hlt Hex Hbad.
  unfold performExtract. rewrite Hin, Hout.
  rewrite (positive_duration _ _ Hlt).
  rewrite (some_overlap_filter _ _ _ Hex).
  unfold extractionValid in Hbad. cbv zeta in Hbad.
  rewrite Hbad. reflexivity.
Qed.

(** C7. When validation fails (either mode, both marks set, positive
    duration, at least one overlapping segment) the game-over callback is the
    one thing signalled, and the tape, the clips, the marks, the conveyor
    offset and the penalty count are as before the call. *)
Theorem performExtract_failure_no_mutation
    (clk : Clock) (e : GameEngine) (start end_ : Q) :
  markIn e = Some start ->
  markOut e = Some end_ ->
  start < end_ ->
  Exists (overlaps start end_) (sourceSegments e) ->
  extractionValid e start end_ = false ->
  let r := performExtract clk e in
  snd r = [GameOver] /\
  fst r = afterFailure e /\
  sourceSegments (fst r) = sourceSegments e /\
  sequenceClips (fst r) = sequenceClips e /\
  markIn (fst r) = markIn e /\
  markOut (fst r) = markOut e /\
  conveyorOffset (fst r) = conveyorOffset e /\
  penaltyCount (fst r) = penaltyCount e.
Proof.
  intros Hin Hout Hlt Hex Hbad r.
  assert (Hr : r = (afterFailure e, [GameOver]))
    by exact (performExtract_failure_run clk e start end_
                Hin Hout Hlt Hex Hbad).
  rewrite Hr. cbn. repeat split; reflexivity.
Qed.

Lemma performExtract_no_overlap_noop_witness :
  performExtract clock0 (engineWith redTape STANDARD (Some 306) (Some 360))
    = (engineWith redTape STANDARD (Some 306) (Some 360), []) /\
  handleKeyDown clock0 KEY_PERIOD
      (engineWith redTape STANDARD (Some 306) (Some 360))
    = (engineWith redTape STANDARD (Some 306) (Some 360), []).
Proof.
  apply (performExtract_no_overlap_noop clock0
           (engineWith redTape STANDARD (Some 306) (Some 360)) 306 360).
  - reflexivity.
  - reflexivity.
  - reflexivity.
  - repeat constructor. intros [_ H]. vm_compute in H. discriminate.
Defined.

Lemma performExtract_failure_no_mutation_witness :
  snd (performExtract clock0 (engineWith redBlueTape STANDARD (Some 240) (Some 360)))
    = [GameOver] /\
  sourceSegments
    (fst (performExtract clock0
            (engineWith redBlueTape STANDARD (Some 240) (Some 360))))
    = redBlueTape.
Proof.
  pose proof (performExtract_failure_no_mutation clock0
           (engineWith redBlueTape STANDARD (Some 240) (Some 360)) 240 360
           eq_refl eq_refl eq_refl) as H.
  cbv zeta in H.
  destruct H as [H1 [_ [H2 _]]].
  - apply Exists_cons_hd. split; reflexivity.
  - vm_compute. reflexivity.
  - split; [exact H1 | exact H2].
Defined.

(** ** Marks *)

(** The mark-out key keeps the marks ordered. *)
Lemma markOut_key_keeps_order (clk : Clock) (e : GameEngine) :
  marksOrdered e -> marksOrdered (fst (handleKeyDown clk KEY_O e)).
Proof.
  unfold marksOrdered, handleKeyDown. cbn.
  destruct (markIn e) as [mi |] eqn:Hmi.
  - destruct (Qlt_bool mi (frameGrid (getTapeXAtPlayhead e))) eqn:Hlt.
    + run_cmd. cbn. rewrite Hmi. intros _. apply Qlt_bool_iff. exact Hlt.
    + run_cmd. rewrite Hmi. tauto.
  - run_cmd. cbn. rewrite Hmi. tauto.
Qed.

(** The mark-in key clears a [markOut] that lies before the new [markIn],
    and keeps one that lies on it. *)
Lemma markIn_key_weak_order (clk : Clock) (e : GameEngine) :
  match markIn (fst (handleKeyDown clk KEY_I e)),
        markOut (fst (handleKeyDown clk KEY_I e)) with
  | Some mi, Some mo => mi <= mo
  | _, _ => True
  end.
Proof.
  unfold handleKeyDown. cbn. run_cmd. cbn.
  destruct (markOut e) as [mo |] eqn:Hmo; cbn; [| rewrite Hmo; exact I].
  destruct (Qlt_bool mo (frameGrid (getTapeXAtPlayhead e))) eqn:Hlt; cbn.
  - exact I.
  - rewrite Hmo.
    destruct (Qlt_le_dec mo (frameGrid (getTapeXAtPlayhead e))) as [H | H].
    + apply Qlt_bool_iff in H. congruence.
    + exact H.
Qed.

(** C4. The mark-in key breaks the mark invariant: right after [start],
    with the playhead at rest on frame 402, [o] and then [i] leave both
    marks at 402, so [markOut] is set and does not exceed [markIn]. *)
Theorem markIn_key_breaks_mark_order :
  let e1 := fst (handleKeyDown clock0 KEY_O started) in
  let e2 := fst (handleKeyDown clock0 KEY_I e1) in
  getTapeXAtPlayhead started == 402 /\
  marksOrdered started /\
  marksOrdered e1 /\
  markIn e2 = Some 402 /\
  markOut e2 = Some 402 /\
  ~ marksOrdered e2.
Proof.
  cbv zeta.
  split; [vm_compute; reflexivity |].
  split; [vm_compute; exact I |].
  split; [vm_compute; exact I |].
  split; [vm_compute; reflexivity |].
  split; [vm_compute; reflexivity |].
  intro H. vm_compute in H. discriminate.
Qed.

(** ** Tap or hold on release *)

(** C5. Releasing L while K is held zeroes the speed.  Under 200 ms since the
    key-down, the playhead lands one [FRAME_PIXELS] after the frame-grid
    position of the offset recorded at the press, whatever the live offset
    is, and the penalty count goes up by one (and is reported); from 200 ms
    on, the playhead is snapped to the nearest frame and the penalty count
    stays.  J does the same with the step going backwards. *)
Theorem handleKeyUp_tap_or_hold
    (clk : Clock) (e : GameEngine) (key : string) (dir pressed startOffset : Q) :
  (key = KEY_L /\ dir = 1) \/ (key = KEY_J /\ dir = - (1)) ->
  isHoldingK e = true ->
  inputTimestamps e !! key = Some pressed ->
  inputStartOffsets e !! key = Some startOffset ->
  let r := handleKeyUp clk key e in
  currentSpeed (fst r) = 0 /\
  (now clk - pressed < 200 ->
     getTapeXAtPlayhead (fst r)
       == frameGrid ((width e / 2) - startOffset) + dir * FRAME_PIXELS /\
     penaltyCount (fst r) = (penaltyCount e + 1)%Z /\
     In (PenaltyUpdate (penaltyCount e + 1)%Z) (snd r)) /\
  (200 <= now clk - pressed ->
     getTapeXAtPlayhead (fst r) == frameGrid (getTapeXAtPlayhead e) /\
     penaltyCount (fst r) = penaltyCount e /\
     snd r = [StopAudio]).
Proof.
  intros Hkey HK Hts Hoff r.
  assert (Hf : 200 <= now clk - pressed ->
               Qlt_bool (now clk - pressed) 200 = false).
  { intro Ht. destruct (Qlt_bool (now clk - pressed) 200) eqn:E; [| reflexivity].
    apply Qlt_bool_iff in E. lra. }
  destruct Hkey as [[-> ->] | [-> ->]]; subst r;
    unfold handleKeyUp; cbn [String.eqb Ascii.eqb Bool.eqb KEY_K KEY_L KEY_J];
    cbv [andThen assign when set_isHoldingL set_isHoldingJ set_currentSpeed
         stopAudio emit];
    cbn [fst snd isHoldingK inputTimestamps inputStartOffsets];
    rewrite HK; cbn [fst snd isHoldingK inputTimestamps inputStartOffsets];
    rewrite Hts, Hoff;
    (split; [destruct (Qlt_bool (now clk - pressed) 200); reflexivity |]);
    (split; intro Ht;
     [ apply Qlt_bool_iff in Ht; rewrite Ht; run_cmd;
       (split; [| split; [reflexivity | cbn; auto]]);
       unfold getTapeXAtPlayhead; cbn; unfold FRAME_PIXELS; ring
     | rewrite (Hf Ht); run_cmd;
       (split; [| split; reflexivity]);
       unfold getTapeXAtPlayhead; cbn; ring ]).
Qed.

Lemma handleKeyUp_tap_or_hold_witness :
  conveyorOffset tapping < conveyorOffset parked /\
  getTapeXAtPlayhead parked == 402 /\
  getTapeXAtPlayhead (fst (handleKeyUp (mkClock 1150 1150 0) KEY_L tapping))
    == 408 /\
  penaltyCount (fst (handleKeyUp (mkClock 1150 1150 0) KEY_L tapping)) = 1%Z.
Proof.
  split; [vm_compute; reflexivity |].
  split; [vm_compute; reflexivity |].
  pose proof (handleKeyUp_tap_or_hold (mkClock 1150 1150 0) tapping KEY_L 1
                1100 (conveyorOffset parked)) as H.
  cbv zeta in H.
  destruct H as [_ [H _]].
  - left. split; reflexivity.
  - reflexivity.
  - vm_compute. reflexivity.
  - vm_compute. reflexivity.
  - destruct H as [H1 [H2 _]]; [vm_compute; reflexivity |].
    split; [| exact H2].
    rewrite H1. vm_compute. reflexivity.
Defined.

(** ** Clips, win and score *)

Lemma totalPixels_push (clips : list SequenceClip) (c : SequenceClip) :
  totalPixels (clips ++ [c]) = totalPixels clips + clip_width c.
Proof. unfold totalPixels. rewrite fold_left_app. reflexivity. Qed.

(** The engine and effects of the success path, up to the win test. *)
Lemma performExtract_success_run
    (clk : Clock) (e : GameEngine) (start end_ : Q) :
  markIn e = Some start ->
  markOut e = Some end_ ->
  start < end_ ->
  Exists (overlaps start end_) (sourceSegments e) ->
  extractionValid e start end_ = true ->
  let clip := mkClip ("clip_" +:+ pretty (date_now clk)) (end_ - start)
                (targetColor e) in
  let total := totalPixels (sequenceClips e) + (end_ - start) in
  let e1 := set_sequenceClips (sequenceClips e ++ [clip])
              (set_characterMoodTimer 60 (set_characterMood happy e)) in
  let burst := Particles (width e / 2) SEQUENCE_TRACK_Y 20
                 (match gameMode e with
                  | CAT_MODE => "#f472b6"
                  | STANDARD => targetColor e
                  end) heart in
  performExtract clk e =
    if Qle_bool WIN_PIXELS total then
      (e1, [burst; ScoreUpdate total;
            FinalScoreUpdate (calculateFinalScore clk e); StopAudio; Win])
    else
      (fst (snapToFrame
         (set_currentSpeed 0 (set_markOut None (set_markIn None
           (set_conveyorOffset ((width e / 2) - start)
             (set_sourceSegments (rippleDelete start end_ (sourceSegments e))
                e1)))))),
       [burst; ScoreUpdate total; StopAudio]).
Proof.
  intros Hin Hout Hlt Hex Hok. cbv zeta.
  unfold performExtract. rewrite Hin, Hout.
  rewrite (positive_duration _ _ Hlt).
  rewrite (some_overlap_filter _ _ _ Hex).
  unfold extractionValid in Hok. cbv zeta in Hok. rewrite Hok.
  cbn [negb]. run_cmd. cbn [sequenceClips set_sequenceClips set_characterMoodTimer
    set_characterMood].
  rewrite totalPixels_push. cbn [clip_width].
  destruct (Qle_bool WIN_PIXELS (totalPixels (sequenceClips e) + (end_ - start)));
    reflexivity.
Qed.

Lemma calculateFinalScore_nonneg (clk : Clock) (e : GameEngine) :
  (0 <= calculateFinalScore clk e)%Z.
Proof. unfold calculateFinalScore. cbv zeta. lia. Qed.



(** ** Tapes *)

(** Replaces every [Qmax] and [Qmin] by a variable with its defining cases,
    then calls [lra]. *)
Ltac qminmax :=
  repeat match goal with
  | |- context [Qmax ?a ?b] =>
      let m := fresh "m" in
      let H := fresh "Hm" in
      destruct (Q.max_spec a b) as [[? H] | [? H]];
      revert H; generalize (Qmax a b); intros m H
  | |- context [Qmin ?a ?b] =>
      let m := fresh "m" in
      let H := fresh "Hm" in
      destruct (Q.min_spec a b) as [[? H] | [? H]];
      revert H; generalize (Qmin a b); intros m H
  | H0 : context [Qmax ?a ?b] |- _ =>
      let m := fresh "m" in
      let H := fresh "Hm" in
      destruct (Q.max_spec a b) as [[? H] | [? H]];
      revert H0 H; generalize (Qmax a b); intros m H0 H
  | H0 : context [Qmin ?a ?b] |- _ =>
      let m := fresh "m" in
      let H := fresh "Hm" in
      destruct (Q.min_spec a b) as [[? H] | [? H]];
      revert H0 H; generalize (Qmin a b); intros m H0 H
  end;
  lra.

Section Adjacent.

Context {A : Type} (R : A -> A -> Prop).

Lemma adjacent_nil : adjacent R [].
Proof. intros i s t H. destruct i; discriminate. Qed.

Lemma adjacent_one (a : A) : adjacent R [a].
Proof. intros i s t _ H. destruct i; discriminate. Qed.

Lemma adjacent_cons (a b : A) (l : list A) :
  adjacent R (a :: b :: l) <-> R a b /\ adjacent R (b :: l).
Proof.
  split.
  - intro H. split.
    + apply (H 0%nat); reflexivity.
    + intros i s t Hs Ht. apply (H (S i)); assumption.
  - intros [Hab Hl] i s t Hs Ht. destruct i as [| i].
    + cbn in Hs, Ht. congruence.
    + apply (Hl i); assumption.
Qed.

Lemma adjacent_snoc (l : list A) (n : A) :
  adjacent R l ->
  (forall s, nth_error l (length l - 1) = Some s -> R s n) ->
  adjacent R (l ++ [n]).
Proof.
  intros Hl Hlast i s t Hs Ht.
  assert (Hi : (S i < length (l ++ [n]))%nat)
    by (apply nth_error_Some; congruence).
  rewrite length_app in Hi. cbn in Hi.
  rewrite nth_error_app1 in Hs by lia.
  destruct (Nat.eq_dec (S i) (length l)) as [E | E].
  - rewrite nth_error_app2 in Ht by lia.
    replace (S i - length l)%nat with 0%nat in Ht by lia.
    cbn in Ht. injection Ht as <-.
    apply Hlast. replace (length l - 1)%nat with i by lia. exact Hs.
  - rewrite nth_error_app1 in Ht by lia. apply (Hl i); assumption.
Qed.

End Adjacent.

Lemma chain_start_eq (a a' b : Q) (segs : list TimelineSegment) :
  a == a' -> chain a segs b -> chain a' segs b.
Proof.
  intros E H. destruct segs as [| s segs]; cbn in *.
  - rewrite <- E. exact H.
  - destruct H as [H1 H2]. split; [rewrite <- E; exact H1 | exact H2].
Qed.

Lemma chain_end_eq (a b b' : Q) (segs : list TimelineSegment) :
  b == b' -> chain a segs b -> chain a segs b'.
Proof.
  intro E. revert a. induction segs as [| s segs IH]; intros a H; cbn in *.
  - rewrite <- E. exact H.
  - destruct H as [H1 [H2 H3]]. auto.
Qed.

Lemma chain_cons (a b : Q) (s : TimelineSegment) (segs : list TimelineSegment) :
  seg_x s == a -> 0 < seg_width s ->
  chain (seg_x s + seg_width s) segs b -> chain a (s :: segs) b.
Proof. cbn. auto. Qed.

Lemma chain_le (a b : Q) (segs : list TimelineSegment) :
  chain a segs b -> a <= b.
Proof.
  revert a. induction segs as [| s segs IH]; intros a H; cbn in H.
  - lra.
  - destruct H as [H1 [H2 H3]]. apply IH in H3. lra.
Qed.

Lemma chain_bounds (a b : Q) (segs : list TimelineSegment) :
  chain a segs b ->
  Forall (fun s => a <= seg_x s /\ 0 < seg_width s /\
                   seg_x s + seg_width s <= b) segs.
Proof.
  revert a. induction segs as [| s segs IH]; intros a H; cbn in H.
  - constructor.
  - destruct H as [H1 [H2 H3]].
    pose proof (chain_le _ _ _ H3) as Hle.
    constructor; [lra |].
    eapply List.Forall_impl; [| exact (IH _ H3)].
    cbn. intros t [Ht1 [Ht2 Ht3]]. lra.
Qed.

Lemma chain_app (a m b : Q) (l1 l2 : list TimelineSegment) :
  chain a l1 m -> chain m l2 b -> chain a (l1 ++ l2) b.
Proof.
  revert a. induction l1 as [| s l1 IH]; intros a H1 H2; cbn in *.
  - apply (chain_start_eq m); [lra | exact H2].
  - destruct H1 as [Hx [Hw Hc]]. auto.
Qed.

Lemma chain_totalWidth (a b : Q) (segs : list TimelineSegment) :
  chain a segs b -> totalWidth segs == b - a.
Proof.
  revert a. induction segs as [| s segs IH]; intros a H; cbn in *.
  - lra.
  - destruct H as [Hx [Hw Hc]]. rewrite (IH _ Hc). lra.
Qed.

Lemma chain_tapeOk (a b : Q) (segs : list TimelineSegment) :
  chain a segs b -> tapeOk segs.
Proof.
  revert a. induction segs as [| s segs IH]; intros a H.
  - split; [constructor | apply adjacent_nil].
  - cbn in H. destruct H as [Hx [Hw Hc]].
    destruct (IH _ Hc) as [Hpos Hcont].
    split; [constructor; assumption |].
    destruct segs as [| t segs]; [apply adjacent_one |].
    apply adjacent_cons. split; [| exact Hcont].
    cbn in Hc. destruct Hc as [Ht _]. lra.
Qed.

Lemma tapeOk_chain (s : TimelineSegment) (segs : list TimelineSegment) :
  tapeOk (s :: segs) ->
  chain (seg_x s) (s :: segs) (seg_x s + totalWidth (s :: segs)).
Proof.
  revert s. induction segs as [| t segs IH]; intros s [Hpos Hcont];
    unfold positiveWidths in Hpos.
  - inversion Hpos; subst. cbn.
    split; [reflexivity |]. split; [assumption | lra].
  - inversion Hpos as [| ? ? Hs Hpos']; subst.
    apply adjacent_cons in Hcont. destruct Hcont as [Hst Hcont].
    specialize (IH t (conj Hpos' Hcont)).
    apply chain_cons; [reflexivity | assumption |].
    apply (chain_start_eq (seg_x t)); [lra |].
    apply (chain_end_eq _ (seg_x t + totalWidth (t :: segs))); [| exact IH].
    cbn [totalWidth fold_right]. lra.
Qed.

(** ** Outcome of an extraction attempt *)

Lemma Exists_overlaps_dec (start end_ : Q) (segs : list TimelineSegment) :
  Exists (overlaps start end_) segs \/
  Forall (fun s => ~ overlaps start end_ s) segs.
Proof.
  induction segs as [| s segs IH].
  - right. constructor.
  - destruct (overlapsRange start end_ s) eqn:E.
    + left. apply Exists_cons_hd. apply overlapsRange_iff. exact E.
    + destruct IH as [IH | IH].
      * left. apply Exists_cons_tl. exact IH.
      * right. constructor; [| exact IH].
        intro H. apply overlapsRange_iff in H. congruence.
Qed.

Lemma app_one_neq {A} (l : list A) (x : A) : l <> l ++ [x].
Proof.
  intro H. apply (f_equal (@length A)) in H.
  rewrite length_app in H. cbn in H. lia.
Qed.

Lemma performExtract_succeeds_iff
    (clk : Clock) (e : GameEngine) (start end_ : Q) :
  markIn e = Some start ->
  markOut e = Some end_ ->
  start < end_ ->
  (extractSucceeds clk e <->
   Exists (overlaps start end_) (sourceSegments e) /\
   extractionValid e start end_ = true).
Proof.
  intros Hin Hout Hlt. unfold extractSucceeds.
  destruct (Exists_overlaps_dec start end_ (sourceSegments e)) as [Hex | Hno].
  - destruct (extractionValid e start end_) eqn:Hok.
    + split; [auto |]. intros _.
      rewrite (performExtract_success_run clk e start end_
                 Hin Hout Hlt Hex Hok).
      eexists. destruct (Qle_bool _ _); reflexivity.
    + split; [| intros [_ H]; discriminate].
      intros [clip H].
      rewrite (performExtract_failure_run clk e start end_
                 Hin Hout Hlt Hex Hok) in H.
      cbn in H. exfalso. exact (app_one_neq _ _ H).
  - split.
    + intros [clip H].
      rewrite (performExtract_noop_run clk e start end_
                 Hin Hout Hlt Hno) in H.
      cbn in H. exfalso. exact (app_one_neq _ _ H).
    + intros [Hex _]. exfalso.
      apply List.Exists_exists in Hex. destruct Hex as [s [Hs Ho]].
      rewrite List.Forall_forall in Hno. exact (Hno s Hs Ho).
Qed.

Lemma performExtract_fails_iff
    (clk : Clock) (e : GameEngine) (start end_ : Q) :
  markIn e = Some start ->
  markOut e = Some end_ ->
  start < end_ ->
  (extractFails clk e <->
   Exists (overlaps start end_) (sourceSegments e) /\
   extractionValid e start end_ = false).
Proof.
  intros Hin Hout Hlt. unfold extractFails.
  destruct (Exists_overlaps_dec start end_ (sourceSegments e)) as [Hex | Hno].
  - destruct (extractionValid e start end_) eqn:Hok.
    + split; [| intros [_ H]; discriminate].
      intro H.
      rewrite (performExtract_success_run clk e start end_
                 Hin Hout Hlt Hex Hok) in H.
      destruct (Qle_bool _ _) in H; cbn in H;
        repeat (destruct H as [H | H]; [discriminate |]); destruct H.
    + split; [auto |]. intros _.
      rewrite (performExtract_failure_run clk e start end_
                 Hin Hout Hlt Hex Hok).
      cbn. auto.
  - split.
    + intro H.
      rewrite (performExtract_noop_run clk e start end_
                 Hin Hout Hlt Hno) in H.
      destruct H.
    + intros [Hex _]. exfalso.
      apply List.Exists_exists in Hex. destruct Hex as [s [Hs Ho]].
      rewrite List.Forall_forall in Hno. exact (Hno s Hs Ho).
Qed.

(** ** STANDARD mode: coverage of the marked range *)

Section Coverage.

Variables start end_ : Q.
Hypothesis range_pos : start < end_.

Lemma coverage_cons p (s : TimelineSegment) (segs : list TimelineSegment) :
  coverage p start end_ (s :: segs) =
    if p (seg_color s)
    then overlapLength start end_ s + coverage p start end_ segs
    else coverage p start end_ segs.
Proof. reflexivity. Qed.

Lemma overlapLength_nonneg (s : TimelineSegment) :
  0 <= overlapLength start end_ s.
Proof. unfold overlapLength. apply Q.le_max_l. Qed.

Lemma coverage_nonneg p (segs : list TimelineSegment) :
  0 <= coverage p start end_ segs.
Proof.
  induction segs as [| s segs IH]; [cbn; lra |].
  rewrite coverage_cons.
  pose proof (overlapLength_nonneg s).
  destruct (p (seg_color s)); lra.
Qed.

Lemma coverage_member p (s : TimelineSegment) (segs : list TimelineSegment) :
  In s segs -> p (seg_color s) = true ->
  overlapLength start end_ s <= coverage p start end_ segs.
Proof.
  intros Hin Hp. induction segs as [| t segs IH]; [destruct Hin |].
  rewrite coverage_cons. destruct Hin as [-> | Hin].
  - rewrite Hp. pose proof (coverage_nonneg p segs). lra.
  - specialize (IH Hin). pose proof (overlapLength_nonneg t).
    destruct (p (seg_color t)); lra.
Qed.

Lemma overlapLength_inside (s : TimelineSegment) :
  overlaps start end_ s -> 0 < seg_width s ->
  overlapLength start end_ s ==
    Qmin end_ (seg_x s + seg_width s) - Qmax start (seg_x s).
Proof.
  unfold overlaps, overlapLength. intros [H1 H2] Hw.
  pose proof range_pos. qminmax.
Qed.

Lemma overlapLength_outside (s : TimelineSegment) :
  ~ overlaps start end_ s -> 0 < seg_width s ->
  overlapLength start end_ s == 0.
Proof using Type.
  clear range_pos.
  unfold overlaps, overlapLength. intros Hno Hw.
  assert (H : end_ <= seg_x s \/ seg_x s + seg_width s <= start).
  { destruct (Qlt_le_dec (seg_x s) end_) as [H1 | H1]; [| auto].
    destruct (Qlt_le_dec start (seg_x s + seg_width s)) as [H2 | H2]; [| auto].
    exfalso. auto. }
  destruct H; qminmax.
Qed.

(** The sum the code accumulates over the filtered segments is the coverage
    by target-colored segments. *)
Lemma correctColorLength_acc (target : string)
    (segs : list TimelineSegment) (acc : Q) :
  positiveWidths segs ->
  fold_left (fun acc seg =>
      let segStart := Qmax start (seg_x seg) in
      let segEnd := Qmin end_ (seg_x seg + seg_width seg) in
      let len := segEnd - segStart in
      if String.eqb (seg_color seg) target then acc + len else acc)
    (List.filter (overlapsRange start end_) segs) acc
  == acc + targetCoverage target start end_ segs.
Proof.
  intros Hpos. revert acc.
  induction segs as [| s segs IH]; intro acc; cbn [List.filter fold_left].
  - cbn. lra.
  - unfold positiveWidths in Hpos. inversion Hpos as [| ? ? Hw Hpos']; subst.
    specialize (IH Hpos').
    unfold targetCoverage in *. rewrite coverage_cons.
    destruct (overlapsRange start end_ s) eqn:E.
    + apply overlapsRange_iff in E.
      pose proof (overlapLength_inside s E Hw) as Hin.
      cbn [fold_left]. rewrite IH.
      destruct (String.eqb (seg_color s) target); lra.
    + assert (Hno : ~ overlaps start end_ s)
        by (intro H; apply overlapsRange_iff in H; congruence).
      pose proof (overlapLength_outside s Hno Hw) as Hout.
      rewrite IH.
      destruct (String.eqb (seg_color s) target); lra.
Qed.

Lemma correctColorLength_coverage (target : string)
    (segs : list TimelineSegment) :
  positiveWidths segs ->
  correctColorLength target start end_
    (List.filter (overlapsRange start end_) segs)
  == targetCoverage target start end_ segs.
Proof.
  intros Hpos. unfold correctColorLength.
  rewrite (correctColorLength_acc target segs 0 Hpos). lra.
Qed.

(** All segments of a gapless tape together cover no more than the range. *)
Lemma chain_coverage_all (a b : Q) (segs : list TimelineSegment) :
  chain a segs b ->
  coverage (fun _ => true) start end_ segs
  == Qmax 0 (Qmin end_ b - Qmax start a).
Proof.
  pose proof range_pos as Hlt.
  revert a. induction segs as [| s segs IH]; intros a H.
  - cbn in *. qminmax.
  - cbn [chain] in H. destruct H as [Hx [Hw Hc]].
    pose proof (chain_le _ _ _ Hc) as Hle.
    rewrite coverage_cons.
    rewrite (IH _ Hc). unfold overlapLength. qminmax.
Qed.

Lemma coverage_split (target : string) (segs : list TimelineSegment) :
  targetCoverage target start end_ segs + offTargetCoverage target start end_ segs
  == coverage (fun _ => true) start end_ segs.
Proof.
  unfold targetCoverage, offTargetCoverage.
  induction segs as [| s segs IH]; [cbn; lra |].
  rewrite !coverage_cons.
  destruct (String.eqb (seg_color s) target); cbn [negb]; lra.
Qed.

Lemma coverage_within_duration (target : string)
    (segs : list TimelineSegment) :
  tapeOk segs ->
  targetCoverage target start end_ segs + offTargetCoverage target start end_ segs
  <= end_ - start.
Proof.
  intros Hok. pose proof range_pos as Hlt. rewrite coverage_split.
  destruct segs as [| s segs]; [cbn; lra |].
  rewrite (chain_coverage_all _ _ _ (tapeOk_chain _ _ Hok)).
  qminmax.
Qed.

Lemma coverage_no_overlap p (segs : list TimelineSegment) :
  positiveWidths segs ->
  Forall (fun s => ~ overlaps start end_ s) segs ->
  coverage p start end_ segs == 0.
Proof using Type.
  clear range_pos.
  unfold positiveWidths.
  induction segs as [| s segs IH]; intros Hpos Hno; [reflexivity |].
  inversion Hpos; subst. inversion Hno; subst.
  rewrite coverage_cons.
  pose proof (IH ltac:(assumption) ltac:(assumption)) as Hrest.
  pose proof (overlapLength_outside s ltac:(assumption)
                ltac:(assumption)) as Hout.
  destruct (p (seg_color s)); lra.
Qed.

End Coverage.

Lemma standard_valid_iff (e : GameEngine) (start end_ : Q) :
  gameMode e = STANDARD -> start < end_ -> positiveWidths (sourceSegments e) ->
  (extractionValid e start end_ = true <-> 95 # 100 <= targetFraction e start end_).
Proof.
  intros Hmode Hlt Hpos.
  unfold extractionValid, targetFraction. rewrite Hmode. cbv zeta.
  unfold standardSuccess. cbv zeta. rewrite Qle_bool_iff.
  rewrite (correctColorLength_coverage _ _ Hlt _ _ Hpos). reflexivity.
Qed.

Lemma Qle_div_iff (a b d : Q) : 0 < d -> (a <= b / d <-> a * d <= b).
Proof.
  intro Hd.
  assert (Hq : b / d * d == b) by (field; lra).
  split; intro H.
  - rewrite <- Hq. apply Qmult_le_compat_r; lra.
  - apply Qle_shift_div_l; assumption.
Qed.

Lemma Qlt_div_iff (a b d : Q) : 0 < d -> (a < b / d <-> a * d < b).
Proof.
  intro Hd.
  assert (Hq : b / d * d == b) by (field; lra).
  split; intro H.
  - rewrite <- Hq. apply Qmult_lt_compat_r; lra.
  - apply Qlt_shift_div_l; assumption.
Qed.

(** C2. In STANDARD mode, with both marks set and [markOut > markIn] on a
    well-formed tape, the extraction succeeds exactly when the target-colored
    segments cover at least 95% of the marked duration.  So a range lying
    inside one target-colored segment succeeds, and a range of which more than
    5% is covered by segments of other colors ends the run. *)
Theorem standard_success_iff_coverage
    (clk : Clock) (e : GameEngine) (start end_ : Q) :
  gameMode e = STANDARD ->
  markIn e = Some start ->
  markOut e = Some end_ ->
  start < end_ ->
  tapeOk (sourceSegments e) ->
  (extractSucceeds clk e <-> 95 # 100 <= targetFraction e start end_) /\
  ((exists s, In s (sourceSegments e) /\ seg_color s = targetColor e /\
              seg_x s <= start /\ end_ <= seg_x s + seg_width s) ->
   extractSucceeds clk e) /\
  (5 # 100 < offTargetFraction e start end_ ->
   extractFails clk e /\ ~ extractSucceeds clk e).
Proof.
  intros Hmode Hin Hout Hlt [Hpos Hcont].
  pose proof (performExtract_succeeds_iff clk e start end_ Hin Hout Hlt) as Hs.
  pose proof (performExtract_fails_iff clk e start end_ Hin Hout Hlt) as Hf.
  pose proof (standard_valid_iff e start end_ Hmode Hlt Hpos) as Hv.
  assert (Hd : 0 < end_ - start) by lra.
  assert (Hiff : extractSucceeds clk e <-> 95 # 100 <= targetFraction e start end_).
  { rewrite Hs, Hv. split; [tauto |]. intro H. split; [| exact H].
    destruct (Exists_overlaps_dec start end_ (sourceSegments e)) as [Hex | Hno];
      [exact Hex | exfalso].
    unfold targetFraction, targetCoverage in H.
    rewrite (coverage_no_overlap _ _ _ _ Hpos Hno) in H.
    apply Qle_div_iff in H; lra. }
  split; [exact Hiff |]. split.
  - intros [s [Hmem [Hcol [Hx Hend]]]]. apply Hiff.
    unfold targetFraction. apply Qle_div_iff; [exact Hd |].
    assert (Hp : (fun c => String.eqb c (targetColor e)) (seg_color s) = true)
      by (cbn; rewrite Hcol; apply String.eqb_refl).
    pose proof (coverage_member start end_ _ s _ Hmem Hp) as Hcov.
    fold (targetCoverage (targetColor e)) in Hcov.
    assert (Hw : 0 < seg_width s) by lra.
    assert (Hov : overlaps start end_ s) by (unfold overlaps; lra).
    rewrite (overlapLength_inside _ _ Hlt _ Hov Hw) in Hcov.
    revert Hcov. qminmax.
  - intro Hoff.
    unfold offTargetFraction in Hoff. apply Qlt_div_iff in Hoff; [| exact Hd].
    pose proof (coverage_within_duration start end_ Hlt (targetColor e) _
                  (conj Hpos Hcont)) as Hsum.
    assert (Hnot : ~ 95 # 100 <= targetFraction e start end_).
    { unfold targetFraction. rewrite Qle_div_iff by exact Hd. lra. }
    split; [| rewrite Hiff; exact Hnot].
    apply Hf. split.
    + destruct (Exists_overlaps_dec start end_ (sourceSegments e)) as [Hex | Hno];
        [exact Hex | exfalso].
      unfold offTargetCoverage in Hoff.
      rewrite (coverage_no_overlap _ _ _ _ Hpos Hno) in Hoff. lra.
    + destruct (extractionValid e start end_) eqn:E; [| reflexivity].
      exfalso. apply Hnot. apply Hv. reflexivity.
Qed.

Lemma standard_success_iff_coverage_witness :
  extractSucceeds clock0 (engineWith redBlueTape STANDARD (Some 6) (Some 126)) /\
  extractFails clock0 (engineWith redBlueTape STANDARD (Some 240) (Some 360)).
Proof.
  split.
  - apply (standard_success_iff_coverage clock0
             (engineWith redBlueTape STANDARD (Some 6) (Some 126)) 6 126
             eq_refl eq_refl eq_refl eq_refl).
    + apply (chain_tapeOk 0 420). cbn. repeat split; reflexivity.
    + exists (mkSegment "seg_0" 0 300 RED). cbn.
      split; [auto |]. split; [reflexivity |]. split; discriminate.
  - apply (standard_success_iff_coverage clock0
             (engineWith redBlueTape STANDARD (Some 240) (Some 360)) 240 360
             eq_refl eq_refl eq_refl eq_refl).
    + apply (chain_tapeOk 0 420). cbn. repeat split; reflexivity.
    + vm_compute. reflexivity.
Defined.

(** ** CAT_MODE *)

Lemma find_hd_filter {A} (f : A -> bool) (l : list A) :
  List.find f l = hd_error (List.filter f l).
Proof.
  induction l as [| a l IH]; [reflexivity |].
  cbn. destruct (f a); [reflexivity | exact IH].
Qed.

Lemma catModeSuccess_iff (target : string) (start end_ : Q)
    (segs : list TimelineSegment) :
  catModeSuccess target start end_ (List.filter (overlapsRange start end_) segs)
    = true <->
  exists m, hd_error (targetsInRange target start end_ segs) = Some m /\
            catAccepts start end_ m.
Proof.
  unfold catModeSuccess, targetsInRange. cbv zeta.
  rewrite find_hd_filter.
  destruct (hd_error _) as [m |].
  2: { split; [discriminate | intros [m [H _]]; discriminate]. }
  assert (Hacc :
    (if Qle_bool start (seg_x m + (1 # 10)) &&
        Qle_bool (seg_x m + seg_width m - (1 # 10)) end_
     then
       if Qlt_bool (10 * FRAME_PIXELS) (Qmax 0 (seg_x m - start))
          || Qlt_bool (10 * FRAME_PIXELS)
               (Qmax 0 (end_ - (seg_x m + seg_width m)))
       then false else true
     else false) = true <-> catAccepts start end_ m).
  { unfold catAccepts, FRAME_PIXELS.
    destruct (Qle_bool start (seg_x m + (1 # 10))) eqn:E1; cbn [andb].
    2: { apply Qle_bool_false in E1. split; [discriminate | lra]. }
    apply Qle_bool_iff in E1.
    destruct (Qle_bool (seg_x m + seg_width m - (1 # 10)) end_) eqn:E2.
    2: { apply Qle_bool_false in E2. split; [discriminate | lra]. }
    apply Qle_bool_iff in E2.
    destruct (Qlt_bool (10 * 6) (Qmax 0 (seg_x m - start))) eqn:E3; cbn [orb].
    { apply Qlt_bool_iff in E3. split; [discriminate |].
      intros [_ [_ [H _]]]. revert E3. qminmax. }
    assert (H3 : ~ 10 * 6 < Qmax 0 (seg_x m - start))
      by (intro H; apply Qlt_bool_iff in H; congruence).
    destruct (Qlt_bool (10 * 6) (Qmax 0 (end_ - (seg_x m + seg_width m))))
      eqn:E4.
    { apply Qlt_bool_iff in E4. split; [discriminate |].
      intros [_ [_ [_ H]]]. revert E4. qminmax. }
    assert (H4 : ~ 10 * 6 < Qmax 0 (end_ - (seg_x m + seg_width m)))
      by (intro H; apply Qlt_bool_iff in H; congruence).
    split; [intros _ | reflexivity].
    repeat split; try assumption.
    - apply Qnot_lt_le. intro H. apply H3. qminmax.
    - apply Qnot_lt_le. intro H. apply H4. qminmax. }
  rewrite Hacc. split.
  - intro H. exists m. auto.
  - intros [m' [E H]]. injection E as ->. exact H.
Qed.

Lemma targetsInRange_overlap (target : string) (start end_ : Q)
    (segs : list TimelineSegment) (m : TimelineSegment) :
  In m (targetsInRange target start end_ segs) ->
  Exists (overlaps start end_) segs.
Proof.
  unfold targetsInRange. intro H.
  apply List.filter_In in H. destruct H as [H _].
  apply List.filter_In in H. destruct H as [Hin Hov].
  apply List.Exists_exists. exists m. split; [exact Hin |].
  apply overlapsRange_iff. exact Hov.
Qed.

(** C3, as the code decides it.  In CAT_MODE, with both marks set and
    [markOut > markIn], the extraction succeeds exactly when the overlap set
    holds a target-colored segment and the first such segment, in tape
    order, lies inside the range (0.1 px tolerance at both edges) with at
    most 60 px of range before it and at most 60 px after it; further
    target-colored segments in the range are not looked at.  When some
    segment overlaps and this test is not met the run ends.  With exactly
    one target-colored segment in the overlap set the test is the one of the
    specification.  On a tape that starts with the target segment
    [{x: 0, width: 300}], marks [[0, 360)] succeed and marks [[0, 367)]
    fail. *)
Theorem cat_mode_success_first_target
    (clk : Clock) (e : GameEngine) (start end_ : Q) :
  gameMode e = CAT_MODE ->
  markIn e = Some start ->
  markOut e = Some end_ ->
  start < end_ ->
  let targets :=
    targetsInRange (targetColor e) start end_ (sourceSegments e) in
  (extractSucceeds clk e <->
   exists m, hd_error targets = Some m /\ catAccepts start end_ m) /\
  (extractFails clk e <->
   Exists (overlaps start end_) (sourceSegments e) /\
   ~ exists m, hd_error targets = Some m /\ catAccepts start end_ m) /\
  (forall m, targets = [m] ->
     (extractSucceeds clk e <-> catAccepts start end_ m) /\
     (extractFails clk e <-> ~ catAccepts start end_ m)) /\
  (forall id rest,
     sourceSegments e = mkSegment id 0 300 (targetColor e) :: rest ->
     start == 0 ->
     (end_ == 360 -> extractSucceeds clk e) /\
     (end_ == 367 -> extractFails clk e)).
Proof.
  intros Hmode Hin Hout Hlt targets.
  pose proof (performExtract_succeeds_iff clk e start end_ Hin Hout Hlt) as Hs.
  pose proof (performExtract_fails_iff clk e start end_ Hin Hout Hlt) as Hf.
  assert (Hv : extractionValid e start end_ = true <->
               exists m, hd_error targets = Some m /\ catAccepts start end_ m).
  { unfold extractionValid. rewrite Hmode. cbv zeta. apply catModeSuccess_iff. }
  assert (Hsucc : extractSucceeds clk e <->
            exists m, hd_error targets = Some m /\ catAccepts start end_ m).
  { rewrite Hs, <- Hv. split; [tauto |]. intro H. split; [| exact H].
    apply Hv in H. destruct H as [m [Hm _]].
    apply (targetsInRange_overlap (targetColor e) start end_ _ m).
    fold targets. destruct targets; [discriminate |].
    injection Hm as ->. left. reflexivity. }
  assert (Hfail : extractFails clk e <->
            Exists (overlaps start end_) (sourceSegments e) /\
            ~ exists m, hd_error targets = Some m /\ catAccepts start end_ m).
  { rewrite Hf, <- Hv.
    destruct (extractionValid e start end_); split; intros [H1 H2];
      split; try assumption; try discriminate; try reflexivity.
    exfalso. apply H2. reflexivity. }
  split; [exact Hsucc |]. split; [exact Hfail |]. split.
  - intros m Hm. rewrite Hsucc, Hfail, Hm. cbn [hd_error]. split.
    + split; [intros [m' [E H]]; injection E as ->; exact H |].
      intro H. exists m. auto.
    + split.
      * intros [_ H] Hacc. apply H. exists m. auto.
      * intro H. split.
        -- apply (targetsInRange_overlap (targetColor e) start end_ _ m).
           fold targets. rewrite Hm. left. reflexivity.
        -- intros [m' [E Hacc]]. injection E as ->. exact (H Hacc).
  - intros id rest Htape Hstart.
    assert (Hhd : end_ == 360 \/ end_ == 367 ->
              hd_error targets = Some (mkSegment id 0 300 (targetColor e))).
    { intro Hend. subst targets. unfold targetsInRange. rewrite Htape.
      cbn [List.filter].
      assert (Hov : overlapsRange start end_
                      (mkSegment id 0 300 (targetColor e)) = true).
      { apply overlapsRange_iff. unfold overlaps. cbn. destruct Hend; lra. }
      rewrite Hov. cbn [List.filter seg_color].
      rewrite String.eqb_refl. reflexivity. }
    split; intro Hend.
    + apply Hsucc. eexists. split; [apply Hhd; auto |].
      unfold catAccepts. cbn. lra.
    + apply Hfail. split.
      * rewrite Htape. apply Exists_cons_hd. unfold overlaps. cbn. lra.
      * intros [m [E Hacc]]. rewrite Hhd in E by auto. injection E as <-.
        unfold catAccepts in Hacc. cbn in Hacc. lra.
Qed.

Lemma cat_mode_success_first_target_witness :
  extractSucceeds clock0 (engineWith redBlueTape CAT_MODE (Some 0) (Some 360)) /\
  extractFails clock0 (engineWith redBlueTape CAT_MODE (Some 0) (Some 367)).
Proof.
  split.
  - pose proof (cat_mode_success_first_target clock0
             (engineWith redBlueTape CAT_MODE (Some 0) (Some 360)) 0 360
             eq_refl eq_refl eq_refl eq_refl) as H.
    cbv zeta in H. destruct H as [_ [_ [_ H]]].
    apply (H "seg_0" [mkSegment "seg_1" 300 120 BLUE]); reflexivity.
  - pose proof (cat_mode_success_first_target clock0
             (engineWith redBlueTape CAT_MODE (Some 0) (Some 367)) 0 367
             eq_refl eq_refl eq_refl eq_refl) as H.
    cbv zeta in H. destruct H as [_ [_ [_ H]]].
    apply (H "seg_0" [mkSegment "seg_1" 300 120 BLUE]); reflexivity.
Defined.

(** C3, as the specification words it, fails: on [twoRedTape] the range
    [[0, 156)] holds the whole first red segment and six pixels of the second
    one, so two target-colored segments are in the overlap set, and the
    extraction is accepted. *)
Lemma cat_mode_accepts_two_targets :
  let e := engineWith twoRedTape CAT_MODE (Some 0) (Some 156) in
  tapeOk (sourceSegments e) /\
  extractSucceeds clock0 e /\
  length (targetsInRange (targetColor e) 0 156 (sourceSegments e)) = 2%nat /\
  ~ (exists m, targetsInRange (targetColor e) 0 156 (sourceSegments e) = [m]).
Proof.
  cbv zeta. split; [| split; [| split]].
  - apply (chain_tapeOk 0 252). cbn. repeat split; reflexivity.
  - eexists. vm_compute. reflexivity.
  - reflexivity.
  - intros [m H]. vm_compute in H. discriminate.
Qed.

(** ** Ripple delete *)

Lemma flat_map_step {A B} (f : A -> list B) (a : A) (l : list A) :
  flat_map f (a :: l) = f a ++ flat_map f l.
Proof. reflexivity. Qed.

Lemma filter_step {A} (f : A -> bool) (a : A) (l : list A) :
  List.filter f (a :: l) = if f a then a :: List.filter f l else List.filter f l.
Proof. reflexivity. Qed.

Lemma fold_pushBefore (start : Q) (segs acc : list TimelineSegment) :
  fold_left (pushBefore start) segs acc
  = acc ++ flat_map (keepBefore start) segs.
Proof.
  revert acc. induction segs as [| s segs IH]; intro acc; cbn [fold_left]; rewrite ?flat_map_step.
  - rewrite app_nil_r. reflexivity.
  - rewrite IH. unfold pushBefore, keepBefore, fullyBefore, truncateAtStart.
    destruct (Qle_bool (seg_x s + seg_width s) start);
      [| destruct (Qlt_bool (seg_x s) start)];
      rewrite <- ?app_assoc; reflexivity.
Qed.

Lemma fold_pushAfter (end_ d : Q) (segs acc : list TimelineSegment) :
  fold_left (pushAfter end_ d) segs acc
  = acc ++ flat_map (keepAfter end_ d) segs.
Proof.
  revert acc. induction segs as [| s segs IH]; intro acc; cbn [fold_left]; rewrite ?flat_map_step.
  - rewrite app_nil_r. reflexivity.
  - rewrite IH. unfold pushAfter, keepAfter, fullyAfter, shiftLeft, resumeAfterEnd.
    cbv zeta.
    destruct (Qle_bool end_ (seg_x s));
      [| destruct (Qlt_bool end_ (seg_x s + seg_width s))];
      rewrite <- ?app_assoc; reflexivity.
Qed.

Lemma rippleDelete_passes (start end_ : Q) (segs : list TimelineSegment) :
  rippleDelete start end_ segs
  = flat_map (keepBefore start) segs
    ++ flat_map (keepAfter end_ (end_ - start)) segs.
Proof.
  unfold rippleDelete. cbv zeta.
  rewrite fold_pushAfter, fold_pushBefore. reflexivity.
Qed.

(** Past [start] the first pass pushes nothing. *)
Lemma keepBefore_past (start : Q) (segs : list TimelineSegment) :
  Forall (fun s => start <= seg_x s /\ 0 < seg_width s) segs ->
  flat_map (keepBefore start) segs = [] /\
  List.filter (fullyBefore start) segs = [] /\
  List.filter (straddlesStart start) segs = [].
Proof.
  induction 1 as [| s segs [Hx Hw] _ [IH1 [IH2 IH3]]]; [auto |].
  rewrite flat_map_step, !filter_step, IH1, IH2, IH3.
  unfold keepBefore, straddlesStart, fullyBefore.
  assert (E1 : Qle_bool (seg_x s + seg_width s) start = false)
    by (apply Qle_bool_false; lra).
  assert (E2 : Qlt_bool (seg_x s) start = false).
  { destruct (Qlt_bool (seg_x s) start) eqn:E; [| reflexivity].
    apply Qlt_bool_iff in E. lra. }
  rewrite E1, E2. auto.
Qed.

(** Before [end_] the second pass pushes nothing. *)
Lemma keepAfter_short (end_ d : Q) (segs : list TimelineSegment) :
  Forall (fun s => 0 < seg_width s /\ seg_x s + seg_width s <= end_) segs ->
  flat_map (keepAfter end_ d) segs = [].
Proof.
  induction 1 as [| s segs [Hw Hx] _ IH]; [auto |].
  rewrite flat_map_step, IH. unfold keepAfter, fullyAfter.
  assert (E1 : Qle_bool end_ (seg_x s) = false)
    by (apply Qle_bool_false; lra).
  assert (E2 : Qlt_bool end_ (seg_x s + seg_width s) = false).
  { destruct (Qlt_bool end_ (seg_x s + seg_width s)) eqn:E; [| reflexivity].
    apply Qlt_bool_iff in E. lra. }
  rewrite E1, E2. reflexivity.
Qed.

Lemma straddlesEnd_past (end_ : Q) (segs : list TimelineSegment) :
  Forall (fun s => end_ <= seg_x s) segs ->
  List.filter (straddlesEnd end_) segs = [].
Proof.
  induction 1 as [| s segs Hx _ IH]; [auto |].
  rewrite filter_step, IH. unfold straddlesEnd.
  apply Qle_bool_iff in Hx. rewrite Hx. reflexivity.
Qed.

Lemma chain_past (a b p : Q) (segs : list TimelineSegment) :
  chain a segs b -> p <= a ->
  Forall (fun s => p <= seg_x s /\ 0 < seg_width s) segs.
Proof.
  intros H Hp. eapply List.Forall_impl; [| exact (chain_bounds _ _ _ H)].
  cbn. intros s [H1 [H2 H3]]. split; lra.
Qed.

Lemma chain_short (a b p : Q) (segs : list TimelineSegment) :
  chain a segs b -> b <= p ->
  Forall (fun s => 0 < seg_width s /\ seg_x s + seg_width s <= p) segs.
Proof.
  intros H Hp. eapply List.Forall_impl; [| exact (chain_bounds _ _ _ H)].
  cbn. intros s [H1 [H2 H3]]. split; lra.
Qed.

(** The first pass on a gapless tape: the segments before [start], then the
    one cut at [start]. *)
Lemma keepBefore_split (a b start : Q) (segs : list TimelineSegment) :
  chain a segs b ->
  flat_map (keepBefore start) segs
  = List.filter (fullyBefore start) segs
    ++ map (truncateAtStart start) (List.filter (straddlesStart start) segs).
Proof.
  revert a. induction segs as [| s segs IH]; intros a H; [reflexivity |].
  cbn [chain] in H. destruct H as [Hx [Hw Hc]].
  rewrite flat_map_step, !filter_step.
  unfold keepBefore at 1, straddlesStart at 1.
  destruct (fullyBefore start s) eqn:E1.
  - unfold fullyBefore in E1. rewrite E1. cbn [negb andb app].
    rewrite (IH _ Hc). reflexivity.
  - unfold fullyBefore in E1. rewrite E1. cbn [negb andb].
    apply Qle_bool_false in E1.
    destruct (keepBefore_past start segs) as [P1 [P2 P3]].
    { apply (chain_past _ _ _ _ Hc). lra. }
    rewrite P1, P2, P3.
    destruct (Qlt_bool (seg_x s) start); reflexivity.
Qed.

(** The second pass on a gapless tape: the one cut at [end_], then the
    segments after it. *)
Lemma keepAfter_split (a b end_ d : Q) (segs : list TimelineSegment) :
  chain a segs b ->
  flat_map (keepAfter end_ d) segs
  = map (resumeAfterEnd end_ d) (List.filter (straddlesEnd end_) segs)
    ++ map (shiftLeft d) (List.filter (fullyAfter end_) segs).
Proof.
  revert a. induction segs as [| s segs IH]; intros a H; [reflexivity |].
  cbn [chain] in H. destruct H as [Hx [Hw Hc]].
  rewrite flat_map_step, !filter_step.
  unfold keepAfter at 1, straddlesEnd at 1.
  rewrite (IH _ Hc).
  destruct (fullyAfter end_ s) eqn:E1.
  - unfold fullyAfter in E1. rewrite E1. cbn [negb andb].
    apply Qle_bool_iff in E1.
    rewrite (straddlesEnd_past end_ segs).
    + reflexivity.
    + eapply List.Forall_impl; [| exact (chain_past _ _ end_ _ Hc ltac:(lra))].
      cbn. tauto.
  - unfold fullyAfter in E1. rewrite E1. cbn [negb andb].
    destruct (Qlt_bool end_ (seg_x s + seg_width s)); reflexivity.
Qed.

Lemma keepBefore_chain (a b start : Q) (segs : list TimelineSegment) :
  chain a segs b -> a <= start ->
  chain a (flat_map (keepBefore start) segs) (Qmin start b).
Proof.
  revert a. induction segs as [| s segs IH]; intros a H Ha.
  - cbn in *. qminmax.
  - cbn [chain] in H. destruct H as [Hx [Hw Hc]].
    pose proof (chain_le _ _ _ Hc) as Hle.
    rewrite flat_map_step. unfold keepBefore at 1. unfold fullyBefore.
    destruct (Qle_bool (seg_x s + seg_width s) start) eqn:E1.
    + apply Qle_bool_iff in E1. cbn [app].
      apply chain_cons; [exact Hx | exact Hw |]. apply IH; assumption.
    + apply Qle_bool_false in E1.
      destruct (keepBefore_past start segs) as [P1 _].
      { apply (chain_past _ _ _ _ Hc). lra. }
      rewrite P1.
      destruct (Qlt_bool (seg_x s) start) eqn:E2.
      * apply Qlt_bool_iff in E2. cbn [app].
        apply chain_cons; cbn; [exact Hx | lra |]. qminmax.
      * cbn.
        assert (~ seg_x s < start)
          by (intro F; apply Qlt_bool_iff in F; congruence).
        qminmax.
Qed.

Lemma keepAfter_chain (a b start end_ : Q) (segs : list TimelineSegment) :
  chain a segs b -> end_ <= b ->
  chain (Qmax a end_ - (end_ - start))
    (flat_map (keepAfter end_ (end_ - start)) segs) (b - (end_ - start)).
Proof.
  revert a. induction segs as [| s segs IH]; intros a H Hb.
  - cbn in *. qminmax.
  - cbn [chain] in H. destruct H as [Hx [Hw Hc]].
    pose proof (chain_le _ _ _ Hc) as Hle.
    specialize (IH _ Hc Hb).
    rewrite flat_map_step. unfold keepAfter at 1. unfold fullyAfter.
    destruct (Qle_bool end_ (seg_x s)) eqn:E1.
    + apply Qle_bool_iff in E1. cbn [app].
      apply chain_cons; cbn; [qminmax | exact Hw |].
      eapply chain_start_eq; [| exact IH]. qminmax.
    + apply Qle_bool_false in E1.
      destruct (Qlt_bool end_ (seg_x s + seg_width s)) eqn:E2.
      * apply Qlt_bool_iff in E2. cbn [app].
        apply chain_cons; cbn; [qminmax | lra |].
        eapply chain_start_eq; [| exact IH]. qminmax.
      * assert (~ end_ < seg_x s + seg_width s)
          by (intro F; apply Qlt_bool_iff in F; congruence).
        cbn [app]. eapply chain_start_eq; [| exact IH]. qminmax.
Qed.

Lemma tapeOk_nil : tapeOk [].
Proof. split; [constructor | apply adjacent_nil]. Qed.

(** Ripple delete on a gapless tape from [a] to [b]: the result is gapless,
    and shorter by the part of the range that lay on the tape. *)
Lemma rippleDelete_chain (a b start end_ : Q) (segs : list TimelineSegment) :
  chain a segs b -> start < end_ ->
  tapeOk (rippleDelete start end_ segs) /\
  totalWidth (rippleDelete start end_ segs)
  == (b - a) - Qmax 0 (Qmin end_ b - Qmax start a).
Proof.
  intros Hc Hlt. rewrite rippleDelete_passes.
  pose proof (chain_le _ _ _ Hc) as Hab.
  destruct (Qlt_le_dec start a) as [Hsa | Hsa];
    destruct (Qlt_le_dec end_ b) as [Heb | Heb].
  - destruct (keepBefore_past start segs) as [P _].
    { apply (chain_past _ _ _ _ Hc). lra. }
    rewrite P. cbn [app].
    pose proof (keepAfter_chain a b start end_ segs Hc ltac:(lra)) as HA.
    split; [exact (chain_tapeOk _ _ _ HA) |].
    rewrite (chain_totalWidth _ _ _ HA). qminmax.
  - destruct (keepBefore_past start segs) as [P _].
    { apply (chain_past _ _ _ _ Hc). lra. }
    rewrite P, (keepAfter_short end_ _ segs (chain_short _ _ _ _ Hc Heb)).
    split; [exact tapeOk_nil |]. cbn. qminmax.
  - pose proof (keepBefore_chain a b start segs Hc Hsa) as HB.
    pose proof (keepAfter_chain a b start end_ segs Hc ltac:(lra)) as HA.
    assert (HBA : chain a
              (flat_map (keepBefore start) segs
               ++ flat_map (keepAfter end_ (end_ - start)) segs)
              (b - (end_ - start))).
    { apply (chain_app _ start).
      - eapply chain_end_eq; [| exact HB]. qminmax.
      - eapply chain_start_eq; [| exact HA]. qminmax. }
    split; [exact (chain_tapeOk _ _ _ HBA) |].
    rewrite (chain_totalWidth _ _ _ HBA). qminmax.
  - pose proof (keepBefore_chain a b start segs Hc Hsa) as HB.
    rewrite (keepAfter_short end_ _ segs (chain_short _ _ _ _ Hc Heb)).
    rewrite app_nil_r.
    split; [exact (chain_tapeOk _ _ _ HB) |].
    rewrite (chain_totalWidth _ _ _ HB). qminmax.
Qed.

(** The shape of the tape after ripple delete. *)
Lemma rippleDelete_shape (start end_ : Q) (segs : list TimelineSegment) :
  tapeOk segs ->
  rippleDelete start end_ segs
  = List.filter (fullyBefore start) segs
    ++ map (truncateAtStart start) (List.filter (straddlesStart start) segs)
    ++ map (resumeAfterEnd end_ (end_ - start))
         (List.filter (straddlesEnd end_) segs)
    ++ map (shiftLeft (end_ - start)) (List.filter (fullyAfter end_) segs).
Proof.
  intro Hok. rewrite rippleDelete_passes.
  destruct segs as [| s segs]; [reflexivity |].
  pose proof (tapeOk_chain _ _ Hok) as Hc.
  rewrite (keepBefore_split _ _ start _ Hc).
  rewrite (keepAfter_split _ _ end_ (end_ - start) _ Hc).
  rewrite <- app_assoc. reflexivity.
Qed.

Lemma rippleDelete_total (start end_ : Q) (segs : list TimelineSegment) :
  tapeOk segs -> start < end_ ->
  tapeOk (rippleDelete start end_ segs) /\
  totalWidth (rippleDelete start end_ segs)
  == totalWidth segs - coverage (fun _ => true) start end_ segs.
Proof.
  intros Hok Hlt.
  destruct segs as [| s segs].
  - split; [exact tapeOk_nil | reflexivity].
  - pose proof (tapeOk_chain _ _ Hok) as Hc.
    destruct (rippleDelete_chain _ _ start end_ _ Hc Hlt) as [H1 H2].
    split; [exact H1 |].
    rewrite H2, (chain_coverage_all _ _ Hlt _ _ _ Hc). lra.
Qed.

(** A range inside the extent of the tape is covered in full. *)
Lemma coverage_inside_extent (start end_ : Q) (segs : list TimelineSegment) :
  tapeOk segs -> start < end_ ->
  (exists s, In s segs /\ seg_x s <= start) ->
  (exists s, In s segs /\ end_ <= seg_x s + seg_width s) ->
  coverage (fun _ => true) start end_ segs == end_ - start.
Proof.
  intros Hok Hlt [s1 [Hin1 Hs1]] [s2 [Hin2 Hs2]].
  destruct segs as [| s segs]; [destruct Hin1 |].
  pose proof (tapeOk_chain _ _ Hok) as Hc.
  pose proof (chain_bounds _ _ _ Hc) as Hb.
  rewrite List.Forall_forall in Hb.
  pose proof (Hb _ Hin1) as [B1 _]. pose proof (Hb _ Hin2) as [_ [_ B2]].
  rewrite (chain_coverage_all _ _ Hlt _ _ _ Hc). qminmax.
Qed.

Lemma performExtract_ripple
    (clk : Clock) (e : GameEngine) (start end_ : Q) :
  markIn e = Some start ->
  markOut e = Some end_ ->
  start < end_ ->
  extractSucceeds clk e ->
  ~ In Win (snd (performExtract clk e)) ->
  sourceSegments (fst (performExtract clk e))
  = rippleDelete start end_ (sourceSegments e).
Proof.
  intros Hin Hout Hlt Hs Hw.
  apply (performExtract_succeeds_iff clk e start end_ Hin Hout Hlt) in Hs.
  destruct Hs as [Hex Hok].
  revert Hw.
  rewrite (performExtract_success_run clk e start end_ Hin Hout Hlt Hex Hok).
  destruct (Qle_bool _ _).
  - intro Hw. exfalso. apply Hw. cbn. auto 6.
  - intros _. reflexivity.
Qed.

(** C1, with the length clause as the code has it.  On a well-formed tape,
    for marks [start < end_], the ripple delete run by a successful
    extraction that does not win keeps every segment ending at or before
    [start] as it is, cuts a segment straddling [start] to end at [start],
    moves every segment starting at or after [end_] left by [end_ - start],
    and makes a segment straddling [end_] resume at [start] with what it had
    left after [end_]; these pieces come in tape order, so the colors of the
    untouched segments keep their order.  The new tape is again well formed
    (no gaps).  Its length is the old length minus the part of the range
    that lay on the tape, which is the extracted duration when the range
    lies within the extent of the tape. *)
Theorem ripple_delete_contract
    (clk : Clock) (e : GameEngine) (start end_ : Q) :
  markIn e = Some start ->
  markOut e = Some end_ ->
  start < end_ ->
  tapeOk (sourceSegments e) ->
  extractSucceeds clk e ->
  ~ In Win (snd (performExtract clk e)) ->
  let tape := sourceSegments e in
  let tape' := sourceSegments (fst (performExtract clk e)) in
  let d := end_ - start in
  tape' = List.filter (fullyBefore start) tape
          ++ map (truncateAtStart start) (List.filter (straddlesStart start) tape)
          ++ map (resumeAfterEnd end_ d) (List.filter (straddlesEnd end_) tape)
          ++ map (shiftLeft d) (List.filter (fullyAfter end_) tape) /\
  (forall s, In s tape -> seg_x s + seg_width s <= start -> In s tape') /\
  (forall s, In s tape -> seg_x s < start -> start < seg_x s + seg_width s ->
     In (truncateAtStart start s) tape' /\
     seg_x (truncateAtStart start s) + seg_width (truncateAtStart start s)
       == start) /\
  (forall s, In s tape -> end_ <= seg_x s -> In (shiftLeft d s) tape') /\
  (forall s, In s tape -> seg_x s < end_ -> end_ < seg_x s + seg_width s ->
     In (resumeAfterEnd end_ d s) tape' /\
     seg_x (resumeAfterEnd end_ d s) == start /\
     seg_width (resumeAfterEnd end_ d s) == seg_x s + seg_width s - end_) /\
  (exists cut,
     map seg_color tape'
     = map seg_color (List.filter (fullyBefore start) tape) ++ cut
       ++ map seg_color (List.filter (fullyAfter end_) tape)) /\
  tapeOk tape' /\
  totalWidth tape'
    == totalWidth tape - coverage (fun _ => true) start end_ tape /\
  ((exists s, In s tape /\ seg_x s <= start) ->
   (exists s, In s tape /\ end_ <= seg_x s + seg_width s) ->
   totalWidth tape' == totalWidth tape - d).
Proof.
  intros Hin Hout Hlt Hok Hs Hw tape tape' d.
  assert (Hrd : tape' = rippleDelete start end_ tape)
    by exact (performExtract_ripple clk e start end_ Hin Hout Hlt Hs Hw).
  pose proof (rippleDelete_shape start end_ tape Hok) as Hshape.
  fold d in Hshape. rewrite <- Hrd in Hshape.
  destruct (rippleDelete_total start end_ tape Hok Hlt) as [Hok' Htot].
  rewrite <- Hrd in Hok', Htot.
  split; [exact Hshape |].
  split.
  { intros s Hmem Hb. rewrite Hshape. apply in_or_app. left.
    apply List.filter_In. split; [exact Hmem |].
    apply Qle_bool_iff. exact Hb. }
  split.
  { intros s Hmem H1 H2. split; [| cbn; lra].
    rewrite Hshape. apply in_or_app. right. apply in_or_app. left.
    apply in_map. apply List.filter_In. split; [exact Hmem |].
    unfold straddlesStart. apply andb_true_iff. split.
    - apply negb_true_iff. apply Qle_bool_false. exact H2.
    - apply Qlt_bool_iff. exact H1. }
  split.
  { intros s Hmem Ha. rewrite Hshape.
    apply in_or_app. right. apply in_or_app. right. apply in_or_app. right.
    apply in_map. apply List.filter_In. split; [exact Hmem |].
    apply Qle_bool_iff. exact Ha. }
  split.
  { intros s Hmem H1 H2. split; [| split; [subst d; cbn; lra | cbn; lra]].
    rewrite Hshape.
    apply in_or_app. right. apply in_or_app. right. apply in_or_app. left.
    apply in_map. apply List.filter_In. split; [exact Hmem |].
    unfold straddlesEnd. apply andb_true_iff. split.
    - apply negb_true_iff. apply Qle_bool_false. exact H1.
    - apply Qlt_bool_iff. exact H2. }
  split.
  { eexists. rewrite Hshape. rewrite !map_app.
    rewrite (map_map (shiftLeft d) seg_color). cbn [shiftLeft seg_color].
    rewrite <- app_assoc. reflexivity. }
  split; [exact Hok' |].
  split; [exact Htot |].
  intros Hlo Hhi. rewrite Htot.
  rewrite (coverage_inside_extent start end_ tape Hok Hlt Hlo Hhi).
  subst d. lra.
Qed.

Lemma ripple_delete_contract_witness :
  sourceSegments
    (fst (performExtract clock0
            (engineWith rgbTape STANDARD (Some 114) (Some 426))))
  = [mkSegment "seg_0" 0 (114 - 0) BLUE;
     mkSegment "seg_2" (426 - (426 - 114)) (420 + 180 - 426) GREEN].
Proof.
  pose proof (ripple_delete_contract clock0
    (engineWith rgbTape STANDARD (Some 114) (Some 426)) 114 426
    eq_refl eq_refl eq_refl) as H.
  cbv zeta in H.
  destruct H as [H _].
  - apply (chain_tapeOk 0 600). cbn. repeat split; reflexivity.
  - eexists. vm_compute. reflexivity.
  - vm_compute. intros [H | [H | [H | []]]]; discriminate.
  - rewrite H. reflexivity.
Defined.

(** C1, as the specification words it, fails on the length clause: on the
    one-segment tape [{x: 0, width: 300}] the STANDARD-mode range
    [[6, 306)] is accepted (294 of its 300 pixels are red) and the run goes
    on, yet only 294 pixels are removed: 6 remain, not 300 - 300. *)
Lemma ripple_delete_overhang_length :
  let e := engineWith redTape STANDARD (Some 6) (Some 306) in
  let tape' := sourceSegments (fst (performExtract clock0 e)) in
  tapeOk (sourceSegments e) /\
  markIn e = Some 6 /\ markOut e = Some 306 /\
  extractSucceeds clock0 e /\
  ~ In Win (snd (performExtract clock0 e)) /\
  totalWidth tape' == 6 /\
  ~ totalWidth tape' == totalWidth (sourceSegments e) - (306 - 6).
Proof.
  cbv zeta. split; [| split; [| split; [| split; [| split; [| split]]]]].
  - apply (chain_tapeOk 0 300). cbn. repeat split; reflexivity.
  - reflexivity.
  - reflexivity.
  - eexists. vm_compute. reflexivity.
  - vm_compute. intros [H | [H | [H | []]]]; discriminate.
  - vm_compute. reflexivity.
  - vm_compute. discriminate.
Qed.

(** ** The generated tape *)

Lemma frameGrid_lower (raw : Q) :
  SEGMENT_MIN_WIDTH <= raw -> 102 <= frameGrid raw.
Proof.
  unfold SEGMENT_MIN_WIDTH, frameGrid, Math_round, FRAME_PIXELS. intro H.
  assert (Hk : (17 <= Qfloor (raw / 6 + (1 # 2)))%Z).
  { change 17%Z with (Qfloor (100 / 6 + (1 # 2))).
    apply Qfloor_resp_le.
    assert (100 / 6 <= raw / 6) by (apply Qle_shift_div_l; [lra |]; field_simplify; lra).
    lra. }
  rewrite Zle_Qle in Hk. change (inject_Z 17) with 17 in Hk. lra.
Qed.

Lemma drawColor_spec (prev : option string) (rnd : list Q) (c : string)
    (rest : list Q) :
  drawColor prev rnd = Some (c, rest) ->
  (forall p, prev = Some p -> c <> p) /\
  exists used, rnd = used ++ rest.
Proof.
  revert c rest. induction rnd as [| r rnd IH]; intros c rest H; [discriminate |].
  cbn [drawColor] in H.
  destruct (match prev with
            | Some p => String.eqb (randomColor r) p
            | None => false
            end) eqn:E.
  - destruct (IH _ _ H) as [H1 [used H2]].
    split; [exact H1 |]. exists (r :: used). rewrite H2. reflexivity.
  - injection H as <- <-. split.
    + intros p ->. intro F. rewrite F, String.eqb_refl in E. discriminate.
    + exists [r]. reflexivity.
Qed.

Lemma generateLoop_generated (n : nat) :
  forall (i : nat) (currentX : Q) (segs : list TimelineSegment) (rnd : list Q)
         (tape : list TimelineSegment) (rest : list Q),
    generated i currentX segs ->
    Forall unitDraw rnd ->
    generateLoop n i currentX segs rnd = Some (tape, rest) ->
    exists X, generated (i + n) X tape.
Proof.
  induction n as [| n IH]; intros i X segs rnd tape rest Hinv Hrnd Hrun.
  - cbn in Hrun. injection Hrun as <- <-. exists X.
    rewrite Nat.add_0_r. exact Hinv.
  - cbn [generateLoop] in Hrun.
    destruct rnd as [| r rnd1]; [discriminate |].
    inversion Hrnd as [| ? ? [Hr0 Hr1] Hrnd1]; subst.
    set (rawWidth := r * (SEGMENT_MAX_WIDTH - SEGMENT_MIN_WIDTH)
                     + SEGMENT_MIN_WIDTH) in Hrun.
    set (prev := if (0 <? i)%nat
                 then option_map seg_color (nth_error segs (i - 1))
                 else None) in Hrun.
    destruct (drawColor prev rnd1) as [[color rnd2] |] eqn:Hdraw;
      [| discriminate].
    destruct (drawColor_spec _ _ _ _ Hdraw) as [Hdiff [used Hused]].
    assert (Hraw : SEGMENT_MIN_WIDTH <= rawWidth /\ rawWidth <= SEGMENT_MAX_WIDTH).
    { subst rawWidth. unfold SEGMENT_MAX_WIDTH, SEGMENT_MIN_WIDTH.
      split; lra. }
    pose proof (frameGrid_lower rawWidth (proj1 Hraw)) as Hw.
    destruct Hinv as [Hlen [Hchain [Hadj Hwidths]]].
    replace (i + S n)%nat with (S i + n)%nat by lia.
    apply (IH _ _ _ _ _ _) with (3 := Hrun).
    + split; [rewrite length_app; cbn; lia |].
      split.
      { apply (chain_app _ X); [exact Hchain |].
        apply chain_cons; cbn; [reflexivity | lra | reflexivity]. }
      split.
      { apply adjacent_snoc; [exact Hadj |].
        intros s Hs. unfold differentColor. cbn. intro F.
        apply (Hdiff (seg_color s)); [| congruence].
        subst prev. rewrite Hlen in Hs.
        destruct i as [| i]; [subst; destruct segs; discriminate |].
        cbn [Nat.ltb Nat.leb]. rewrite Hs. reflexivity. }
      apply Forall_app. split; [exact Hwidths |].
      constructor; [| constructor].
      exists rawWidth. cbn. tauto.
    + rewrite Hused in Hrnd1. apply Forall_app in Hrnd1. tauto.
Qed.

Lemma generated_nil : generated 0 0 [].
Proof.
  split; [reflexivity |]. split; [cbn; reflexivity |].
  split; [apply adjacent_nil | constructor].
Qed.

(** C8. Whatever [Math.random()] returns, a tape the generator produces has
    exactly 200 segments, starts at position 0, is contiguous
    ([segments[i].x + segments[i].width == segments[i+1].x]), has every
    width an integer multiple of [FRAME_PIXELS] obtained by rounding a draw
    from [[SEGMENT_MIN_WIDTH, SEGMENT_MAX_WIDTH]], and has no two adjacent
    segments of one color. *)
Theorem generateSourceTape_invariants
    (rnd : list Q) (tape : list TimelineSegment) (rest : list Q) :
  Forall unitDraw rnd ->
  generateSourceTape rnd = Some (tape, rest) ->
  length tape = 200%nat /\
  (forall s, hd_error tape = Some s -> seg_x s == 0) /\
  contiguous tape /\
  Forall (fun s =>
    roundedWidth s /\
    (exists k : Z, seg_width s = inject_Z k * FRAME_PIXELS) /\
    102 <= seg_width s /\ seg_width s <= 300) tape /\
  adjacent differentColor tape.
Proof.
  intros Hrnd Hrun. unfold generateSourceTape in Hrun.
  destruct (generateLoop_generated _ _ _ _ _ _ _ generated_nil Hrnd Hrun)
    as [X [Hlen [Hchain [Hadj Hwidths]]]].
  split; [exact Hlen |].
  split.
  { intros s Hs. destruct tape as [| t tape]; [discriminate |].
    injection Hs as ->. cbn in Hchain. tauto. }
  split; [exact (proj2 (chain_tapeOk _ _ _ Hchain)) |].
  split; [| exact Hadj].
  eapply List.Forall_impl; [| exact Hwidths].
  intros s Hs. split; [exact Hs |].
  destruct Hs as [raw [Hlo [Hhi Hw]]].
  split; [eexists; rewrite Hw; apply frameGrid_multiple |].
  rewrite Hw. split; [apply frameGrid_lower; exact Hlo |].
  unfold SEGMENT_MAX_WIDTH in Hhi.
  unfold frameGrid, Math_round, FRAME_PIXELS.
  assert (Hk : (Qfloor (raw / 6 + (1 # 2)) <= 50)%Z).
  { change 50%Z with (Qfloor (300 / 6 + (1 # 2))).
    apply Qfloor_resp_le.
    assert (raw / 6 <= 300 / 6)
      by (apply Qle_shift_div_r; [lra |]; field_simplify; lra).
    lra. }
  rewrite Zle_Qle in Hk. change (inject_Z 50) with 50 in Hk. lra.
Qed.

Lemma sampleDraws_run : generateSourceTape sampleDraws = Some (sampleTape, []).
Proof. vm_compute. reflexivity. Qed.

Lemma sampleDraws_unit : Forall unitDraw sampleDraws.
Proof.
  apply List.Forall_forall. intros r Hr.
  unfold sampleDraws in Hr. apply in_flat_map in Hr.
  destruct Hr as [i [_ [<- | [<- | []]]]].
  - unfold unitDraw. lra.
  - pose proof (Z.mod_pos_bound (Z.of_nat i) 6 ltac:(lia)) as [H0 H6].
    set (k := (Z.of_nat i mod 6)%Z) in *. clearbody k.
    assert (H1 : (1 <= 2 * k + 1)%Z) by lia.
    assert (H2 : (2 * k + 1 <= 11)%Z) by lia.
    rewrite Zle_Qle in H1, H2.
    change (inject_Z 1) with 1 in H1. change (inject_Z 11) with 11 in H2.
    unfold unitDraw. split.
    + apply Qle_shift_div_l; lra.
    + apply Qlt_shift_div_r; lra.
Qed.

Lemma generateSourceTape_invariants_witness :
  length sampleTape = 200%nat /\
  contiguous sampleTape /\
  adjacent differentColor sampleTape.
Proof.
  destruct (generateSourceTape_invariants sampleDraws sampleTape []
              sampleDraws_unit sampleDraws_run) as [H1 [_ [H2 [_ H3]]]].
  split; [exact H1 |]. split; [exact H2 | exact H3].
Defined.

(** *** The generator stops only for lack of draws *)

Lemma drawColor_more (prev : option string) (rnd ext : list Q) (c : string)
    (rest : list Q) :
  drawColor prev rnd = Some (c, rest) ->
  drawColor prev (rnd ++ ext) = Some (c, rest ++ ext).
Proof.
  induction rnd as [| r rnd IH]; intro H; [discriminate |].
  cbn [drawColor app] in *.
  destruct (match prev with
            | Some p => String.eqb (randomColor r) p
            | None => false
            end).
  - exact (IH H).
  - injection H as <- <-. reflexivity.
Qed.

Lemma drawColor_resume (prev : option string) (rnd ext : list Q) (r : Q) :
  drawColor prev rnd = None ->
  (forall p, prev = Some p -> randomColor r <> p) ->
  drawColor prev (rnd ++ r :: ext) = Some (randomColor r, ext).
Proof.
  intros H Hr. induction rnd as [| r0 rnd IH].
  - cbn [app drawColor]. destruct prev as [p |]; [| reflexivity].
    destruct (String.eqb_spec (randomColor r) p) as [E | E]; [| reflexivity].
    exfalso. exact (Hr p eq_refl E).
  - cbn [drawColor app] in *.
    destruct (match prev with
              | Some p => String.eqb (randomColor r0) p
              | None => false
              end); [exact (IH H) | discriminate].
Qed.

Lemma fresh_draw (prev : option string) :
  exists r, unitDraw r /\ forall p, prev = Some p -> randomColor r <> p.
Proof.
  destruct prev as [p |].
  - destruct (String.eqb_spec RED p) as [E | E].
    + exists (1 # 6). split; [unfold unitDraw; lra |].
      intros q [= <-]. subst p. vm_compute. discriminate.
    + exists 0. split; [unfold unitDraw; lra |].
      intros q [= <-]. exact E.
  - exists 0. split; [unfold unitDraw; lra | discriminate].
Qed.

Lemma generateLoop_never_stuck (n : nat) :
  forall (i : nat) (currentX : Q) (segs : list TimelineSegment) (rnd : list Q),
  exists ext tape rest,
    Forall unitDraw ext /\
    generateLoop n i currentX segs (rnd ++ ext) = Some (tape, rest).
Proof.
  induction n as [| n IH]; intros i X segs rnd.
  - exists [], segs, rnd. split; [constructor |]. rewrite app_nil_r. reflexivity.
  - set (prev := if (0 <? i)%nat
                 then option_map seg_color (nth_error segs (i - 1))
                 else None).
    destruct (fresh_draw prev) as [c [Hc Hfresh]].
    destruct rnd as [| r rnd1].
    + set (w := frameGrid ((1 # 2) * (SEGMENT_MAX_WIDTH - SEGMENT_MIN_WIDTH)
                           + SEGMENT_MIN_WIDTH)).
      destruct (IH (S i) (X + w)
                  (segs ++ [mkSegment ("seg_" +:+ pretty i) X w (randomColor c)])
                  []) as [ext [tape [rest [Hext Hrun]]]].
      exists ((1 # 2) :: c :: ext), tape, rest.
      split; [constructor; [unfold unitDraw; lra | constructor; assumption] |].
      cbn [app generateLoop]. fold prev.
      pose proof (drawColor_resume prev [] ext c eq_refl Hfresh) as Hd.
      cbn [app] in Hd. rewrite Hd.
      exact Hrun.
    + set (w := frameGrid (r * (SEGMENT_MAX_WIDTH - SEGMENT_MIN_WIDTH)
                           + SEGMENT_MIN_WIDTH)).
      destruct (drawColor prev rnd1) as [[color rnd2] |] eqn:Hdraw.
      * destruct (IH (S i) (X + w)
                    (segs ++ [mkSegment ("seg_" +:+ pretty i) X w color])
                    rnd2) as [ext [tape [rest [Hext Hrun]]]].
        exists ext, tape, rest. split; [exact Hext |].
        cbn [app generateLoop]. fold prev.
        rewrite (drawColor_more prev rnd1 ext color rnd2 Hdraw).
        exact Hrun.
      * destruct (IH (S i) (X + w)
                    (segs ++ [mkSegment ("seg_" +:+ pretty i) X w (randomColor c)])
                    []) as [ext [tape [rest [Hext Hrun]]]].
        exists (c :: ext), tape, rest.
        split; [constructor; assumption |].
        cbn [app generateLoop]. fold prev.
        rewrite (drawColor_resume prev rnd1 ext c Hdraw Hfresh).
        exact Hrun.
Qed.

(** Any draws seen so far can be followed by more draws on which the
    generator returns a tape: [None] stands for a loop still drawing, never
    for a run that cannot finish. *)
Lemma generateSourceTape_never_stuck (rnd : list Q) :
  exists ext tape rest,
    Forall unitDraw ext /\
    generateSourceTape (rnd ++ ext) = Some (tape, rest).
Proof. apply generateLoop_never_stuck. Qed.

(** ** The tape invariant along a run *)

Lemma performExtract_tape (clk : Clock) (e : GameEngine) :
  sourceSegments (fst (performExtract clk e)) = sourceSegments e \/
  exists start end_,
    start < end_ /\
    sourceSegments (fst (performExtract clk e))
    = rippleDelete start end_ (sourceSegments e).
Proof.
  destruct (markIn e) as [start |] eqn:Hin;
    [| left; unfold performExtract; rewrite Hin; reflexivity].
  destruct (markOut e) as [end_ |] eqn:Hout;
    [| left; unfold performExtract; rewrite Hin, Hout; reflexivity].
  destruct (Qlt_le_dec start end_) as [Hlt | Hle].
  - destruct (Exists_overlaps_dec start end_ (sourceSegments e)) as [Hex | Hno].
    + destruct (extractionValid e start end_) eqn:Hok.
      * rewrite (performExtract_success_run clk e start end_
                   Hin Hout Hlt Hex Hok).
        destruct (Qle_bool _ _); [left; reflexivity |].
        right. exists start, end_. split; [exact Hlt | reflexivity].
      * rewrite (performExtract_failure_run clk e start end_
                   Hin Hout Hlt Hex Hok).
        left. reflexivity.
    + rewrite (performExtract_noop_run clk e start end_ Hin Hout Hlt Hno).
      left. reflexivity.
  - left. unfold performExtract. rewrite Hin, Hout.
    assert (E : Qle_bool (end_ - start) 0 = true)
      by (apply Qle_bool_iff; lra).
    rewrite E. reflexivity.
Qed.

Lemma performExtract_tapeOk (clk : Clock) (e : GameEngine) :
  tapeOk (sourceSegments e) ->
  tapeOk (sourceSegments (fst (performExtract clk e))).
Proof.
  intro Hok.
  destruct (performExtract_tape clk e) as [-> | [start [end_ [Hlt ->]]]].
  - exact Hok.
  - exact (proj1 (rippleDelete_total start end_ _ Hok Hlt)).
Qed.

Lemma keepsTape_skip : keepsTape skip.
Proof. intro e. reflexivity. Qed.

Lemma keepsTape_emit (x : Effect) : keepsTape (emit x).
Proof. intro e. reflexivity. Qed.

Lemma keepsTape_emitWith (f : GameEngine -> Effect) : keepsTape (emitWith f).
Proof. intro e. reflexivity. Qed.

Lemma keepsTape_assign (f : GameEngine -> GameEngine) :
  (forall e, sourceSegments (f e) = sourceSegments e) -> keepsTape (assign f).
Proof. intros H e. exact (H e). Qed.

Lemma keepsTape_andThen (c d : Cmd) :
  keepsTape c -> keepsTape d -> keepsTape (c >>> d).
Proof. intros Hc Hd e. unfold andThen. cbn. rewrite Hd, Hc. reflexivity. Qed.

Lemma keepsTape_when (b : GameEngine -> bool) (c d : Cmd) :
  keepsTape c -> keepsTape d -> keepsTape (when b c d).
Proof. intros Hc Hd e. unfold when. destruct (b e); [apply Hc | apply Hd]. Qed.

Lemma keepsTape_setCharacterMood (mood : Mood) (duration : Q) :
  keepsTape (setCharacterMood mood duration).
Proof.
  apply keepsTape_assign. intro e.
  destruct (Qlt_bool 0 duration); reflexivity.
Qed.

Lemma keepsTape_snapToFrame : keepsTape snapToFrame.
Proof. apply keepsTape_assign. intro e. reflexivity. Qed.

Lemma keepsTape_createParticles x y count color type :
  keepsTape (createParticles x y count color type).
Proof. intro e. reflexivity. Qed.

Lemma keepsTape_registerBadHabit : keepsTape registerBadHabit.
Proof.
  unfold registerBadHabit.
  repeat apply keepsTape_andThen.
  - apply keepsTape_assign. intro e. reflexivity.
  - apply keepsTape_emitWith.
  - apply keepsTape_setCharacterMood.
  - intro e. reflexivity.
Qed.

Create HintDb tape.
#[local] Hint Resolve keepsTape_skip keepsTape_emit keepsTape_emitWith
  keepsTape_andThen keepsTape_when keepsTape_setCharacterMood
  keepsTape_snapToFrame keepsTape_createParticles keepsTape_registerBadHabit
  : tape.
#[local] Hint Extern 1 (keepsTape (assign _)) =>
  apply keepsTape_assign; intro; reflexivity : tape.
#[local] Hint Extern 1 (keepsTape stopAudio) => apply keepsTape_emit : tape.

Lemma keepsTape_keyUp_release (clk : Clock) (key : string) (dir : Q) :
  keepsTape (fun e =>
    match inputTimestamps e !! key, inputStartOffsets e !! key with
    | Some pressed, Some startOffset =>
        if Qlt_bool (now clk - pressed) 200 then
          (assign (fun e =>
             let startTapeX := (width e / 2) - startOffset in
             let gridTapeX := frameGrid startTapeX in
             let targetTapeX := gridTapeX + dir in
             set_conveyorOffset ((width e / 2) - targetTapeX) e) >>>
           registerBadHabit) e
        else snapToFrame e
    | _, _ => snapToFrame e
    end).
Proof.
  intro e.
  destruct (inputTimestamps e !! key) as [pressed |]; [| reflexivity].
  destruct (inputStartOffsets e !! key) as [startOffset |]; [| reflexivity].
  destruct (Qlt_bool (now clk - pressed) 200); [| reflexivity].
  apply (keepsTape_andThen _ registerBadHabit); auto with tape.
Qed.

Lemma keepsTape_tapeOk (c : Cmd) (e : GameEngine) :
  keepsTape c -> tapeOk (sourceSegments e) ->
  tapeOk (sourceSegments (fst (c e))).
Proof. intros Hc Hok. rewrite Hc. exact Hok. Qed.

Lemma handleKeyDown_tapeOk (clk : Clock) (key : string) (e : GameEngine) :
  tapeOk (sourceSegments e) ->
  tapeOk (sourceSegments (fst (handleKeyDown clk key e))).
Proof.
  intro Hok. unfold handleKeyDown.
  destruct (String.eqb key KEY_K).
  { apply keepsTape_tapeOk; [auto 10 with tape | exact Hok]. }
  destruct (String.eqb key KEY_L).
  { apply keepsTape_tapeOk; [auto 20 with tape | exact Hok]. }
  destruct (String.eqb key KEY_J).
  { apply keepsTape_tapeOk; [auto 20 with tape | exact Hok]. }
  destruct (String.eqb key KEY_I).
  { apply keepsTape_tapeOk; [| exact Hok].
    repeat apply keepsTape_andThen; auto with tape. }
  destruct (String.eqb key KEY_O).
  { destruct (match markIn e with
              | Some mi => Qlt_bool mi (frameGrid (getTapeXAtPlayhead e))
              | None => true
              end); exact Hok. }
  destruct (String.eqb key KEY_PERIOD);
    [apply performExtract_tapeOk; exact Hok | exact Hok].
Qed.

Lemma handleKeyUp_tapeOk (clk : Clock) (key : string) (e : GameEngine) :
  tapeOk (sourceSegments e) ->
  tapeOk (sourceSegments (fst (handleKeyUp clk key e))).
Proof.
  intro Hok. unfold handleKeyUp.
  destruct (String.eqb key KEY_K); [exact Hok |].
  destruct (String.eqb key KEY_L).
  { apply keepsTape_tapeOk; [| exact Hok].
    repeat first [apply keepsTape_andThen | apply keepsTape_when];
      auto with tape.
    apply (keepsTape_keyUp_release clk KEY_L FRAME_PIXELS). }
  destruct (String.eqb key KEY_J).
  { apply keepsTape_tapeOk; [| exact Hok].
    repeat first [apply keepsTape_andThen | apply keepsTape_when];
      auto with tape.
    apply (keepsTape_keyUp_release clk KEY_J (- FRAME_PIXELS)). }
  exact Hok.
Qed.

Lemma update_tapeOk (timestamp : Q) (e : GameEngine) :
  tapeOk (sourceSegments e) ->
  tapeOk (sourceSegments (fst (update timestamp e))).
Proof.
  intro Hok. unfold update.
  apply (keepsTape_tapeOk _ e); [auto 20 with tape | exact Hok].
Qed.

Lemma start_tapeOk (target : string) (mode : GameMode) (t_last t_start : Q)
    (rnd : list Q) (e e' : GameEngine) (log : list Effect) :
  Forall unitDraw rnd ->
  start target mode t_last t_start rnd e = Some (e', log) ->
  tapeOk (sourceSegments e') /\ length (sourceSegments e') = 200%nat.
Proof.
  intros Hrnd Hstart. unfold start in Hstart.
  destruct (generateSourceTape rnd) as [[tape rest] |] eqn:Hgen; [| discriminate].
  apply (f_equal (fun o => match o with
                            | Some p => sourceSegments (fst p)
                            | None => []
                            end)) in Hstart.
  change (tape = sourceSegments e') in Hstart. subst tape.
  destruct (generateLoop_generated _ _ _ _ _ _ _ generated_nil Hrnd Hgen)
    as [X [Hlen [Hchain _]]].
  split; [exact (chain_tapeOk _ _ _ Hchain) | exact Hlen].
Qed.

(** Every state of a run carries a well-formed tape. *)
Lemma reachable_tapeOk (e : GameEngine) :
  reachable e -> tapeOk (sourceSegments e).
Proof.
  induction 1 as [target mode t_last t_start rnd e e' log Hrnd Hstart
                 | clk key e _ IH | clk key e _ IH | timestamp e _ IH].
  - exact (proj1 (start_tapeOk _ _ _ _ _ _ _ _ Hrnd Hstart)).
  - apply handleKeyDown_tapeOk. exact IH.
  - apply handleKeyUp_tapeOk. exact IH.
  - apply update_tapeOk. exact IH.
Qed.

(** ** The key handlers, branch by branch *)

Lemma handleKeyDown_K (clk : Clock) (e : GameEngine) :
  handleKeyDown clk KEY_K e =
    if isHoldingK e then (e, [])
    else (snapped (set_currentSpeed 0 (set_isHoldingK true e)), [StopAudio]).
Proof.
  unfold handleKeyDown. cbn [String.eqb Ascii.eqb Bool.eqb KEY_K].
  cbv [when andThen assign]. cbn [fst snd].
  destruct (isHoldingK e); reflexivity.
Qed.

Lemma handleKeyDown_L (clk : Clock) (e : GameEngine) :
  handleKeyDown clk KEY_L e =
    if isHoldingL e then (e, [])
    else (pressed clk KEY_L (speedAfterL e) (set_isHoldingL true e), []).
Proof.
  unfold handleKeyDown.
  cbn [String.eqb Ascii.eqb Bool.eqb KEY_K KEY_L].
  cbv [when andThen assign]. cbn [fst snd].
  destruct (isHoldingL e); [reflexivity |].
  unfold speedAfterL, pressed. cbn [negb isHoldingK set_isHoldingL
    set_inputTimestamps set_inputStartOffsets currentSpeed].
  destruct (isHoldingK e); [reflexivity |].
  destruct (Qlt_bool (currentSpeed e) 0); [reflexivity |].
  destruct (Qeq_bool (currentSpeed e) 0); reflexivity.
Qed.

Lemma handleKeyDown_J (clk : Clock) (e : GameEngine) :
  handleKeyDown clk KEY_J e =
    if isHoldingJ e then (e, [])
    else (pressed clk KEY_J (speedAfterJ e) (set_isHoldingJ true e), []).
Proof.
  unfold handleKeyDown.
  cbn [String.eqb Ascii.eqb Bool.eqb KEY_K KEY_L KEY_J].
  cbv [when andThen assign]. cbn [fst snd].
  destruct (isHoldingJ e); [reflexivity |].
  unfold speedAfterJ, pressed. cbn [negb isHoldingK set_isHoldingJ
    set_inputTimestamps set_inputStartOffsets currentSpeed].
  destruct (isHoldingK e); [reflexivity |].
  destruct (Qlt_bool 0 (currentSpeed e)); [reflexivity |].
  destruct (Qeq_bool (currentSpeed e) 0); reflexivity.
Qed.

Lemma handleKeyDown_I (clk : Clock) (e : GameEngine) :
  handleKeyDown clk KEY_I e =
    (let g := frameGrid (getTapeXAtPlayhead e) in
     match markOut e with
     | Some mo => if Qlt_bool mo g
                  then set_markOut None (set_markIn (Some g) e)
                  else set_markIn (Some g) e
     | None => set_markIn (Some g) e
     end, [markSpark e]).
Proof.
  unfold handleKeyDown.
  cbn [String.eqb Ascii.eqb Bool.eqb KEY_K KEY_L KEY_J KEY_I].
  cbv [when andThen assign createParticles emit skip]. cbn [fst snd app].
  cbn [markOut markIn set_markIn].
  destruct (markOut e) as [mo |]; [| reflexivity].
  destruct (Qlt_bool mo (frameGrid (getTapeXAtPlayhead e))); reflexivity.
Qed.

Lemma handleKeyDown_O (clk : Clock) (e : GameEngine) :
  handleKeyDown clk KEY_O e =
    let g := frameGrid (getTapeXAtPlayhead e) in
    if match markIn e with Some mi => Qlt_bool mi g | None => true end
    then (set_markOut (Some g) e, [markSpark e])
    else (e, []).
Proof.
  unfold handleKeyDown.
  cbn [String.eqb Ascii.eqb Bool.eqb KEY_K KEY_L KEY_J KEY_I KEY_O].
  cbv zeta.
  destruct (match markIn e with
            | Some mi => Qlt_bool mi (frameGrid (getTapeXAtPlayhead e))
            | None => true
            end); reflexivity.
Qed.

Lemma handleKeyDown_period (clk : Clock) (e : GameEngine) :
  handleKeyDown clk KEY_PERIOD e = performExtract clk e.
Proof. reflexivity. Qed.

(** Any other key is ignored. *)
Lemma handleKeyDown_keys (clk : Clock) (key : string) (e : GameEngine) :
  key = KEY_K \/ key = KEY_L \/ key = KEY_J \/ key = KEY_I \/ key = KEY_O \/
  key = KEY_PERIOD \/ handleKeyDown clk key e = (e, []).
Proof.
  unfold handleKeyDown.
  destruct (String.eqb_spec key KEY_K); [auto |].
  destruct (String.eqb_spec key KEY_L); [auto |].
  destruct (String.eqb_spec key KEY_J); [auto |].
  destruct (String.eqb_spec key KEY_I); [auto 6 |].
  destruct (String.eqb_spec key KEY_O); [auto 6 |].
  destruct (String.eqb_spec key KEY_PERIOD); [auto 7 |].
  do 6 right. reflexivity.
Qed.

Lemma handleKeyUp_K (clk : Clock) (e : GameEngine) :
  handleKeyUp clk KEY_K e = (set_isHoldingK false e, []).
Proof. reflexivity. Qed.

Lemma handleKeyUp_L (clk : Clock) (e : GameEngine) :
  handleKeyUp clk KEY_L e =
    released clk KEY_L FRAME_PIXELS (set_isHoldingL false e).
Proof.
  unfold handleKeyUp, released.
  cbn [String.eqb Ascii.eqb Bool.eqb KEY_K KEY_L].
  cbv [when andThen assign stopAudio emit skip]. cbn [fst snd app].
  cbn [isHoldingK set_isHoldingL inputTimestamps inputStartOffsets
       set_currentSpeed].
  destruct (isHoldingK e); [| reflexivity].
  destruct (inputTimestamps e !! KEY_L) as [p |]; [| reflexivity].
  destruct (inputStartOffsets e !! KEY_L) as [o |]; [| reflexivity].
  destruct (Qlt_bool (now clk - p) 200); reflexivity.
Qed.

Lemma handleKeyUp_J (clk : Clock) (e : GameEngine) :
  handleKeyUp clk KEY_J e =
    released clk KEY_J (- FRAME_PIXELS) (set_isHoldingJ false e).
Proof.
  unfold handleKeyUp, released.
  cbn [String.eqb Ascii.eqb Bool.eqb KEY_K KEY_L KEY_J].
  cbv [when andThen assign stopAudio emit skip]. cbn [fst snd app].
  cbn [isHoldingK set_isHoldingJ inputTimestamps inputStartOffsets
       set_currentSpeed].
  destruct (isHoldingK e); [| reflexivity].
  destruct (inputTimestamps e !! KEY_J) as [p |]; [| reflexivity].
  destruct (inputStartOffsets e !! KEY_J) as [o |]; [| reflexivity].
  destruct (Qlt_bool (now clk - p) 200); reflexivity.
Qed.

Lemma handleKeyUp_keys (clk : Clock) (key : string) (e : GameEngine) :
  key = KEY_K \/ key = KEY_L \/ key = KEY_J \/ handleKeyUp clk key e = (e, []).
Proof.
  unfold handleKeyUp.
  destruct (String.eqb_spec key KEY_K); [auto |].
  destruct (String.eqb_spec key KEY_L); [auto |].
  destruct (String.eqb_spec key KEY_J); [auto |].
  do 3 right. reflexivity.
Qed.

(** ** The outcomes of [performExtract], [update] and [start] *)

Lemma performExtract_outcomes (clk : Clock) (e : GameEngine) :
  performExtract clk e = (e, []) \/
  performExtract clk e = (afterFailure e, [GameOver]) \/
  exists start end_,
    markIn e = Some start /\ markOut e = Some end_ /\ start < end_ /\
    Exists (overlaps start end_) (sourceSegments e) /\
    extractionValid e start end_ = true /\
    ((WIN_PIXELS <= totalPixels (sequenceClips e) + (end_ - start) /\
      performExtract clk e =
        (withClip clk e start end_,
         [extractBurst e;
          ScoreUpdate (totalPixels (sequenceClips e) + (end_ - start));
          FinalScoreUpdate (calculateFinalScore clk e); StopAudio; Win])) \/
     (totalPixels (sequenceClips e) + (end_ - start) < WIN_PIXELS /\
      performExtract clk e =
        (afterRipple clk e start end_,
         [extractBurst e;
          ScoreUpdate (totalPixels (sequenceClips e) + (end_ - start));
          StopAudio]))).
Proof.
  destruct (markIn e) as [start |] eqn:Hin;
    [| left; unfold performExtract; rewrite Hin; reflexivity].
  destruct (markOut e) as [end_ |] eqn:Hout;
    [| left; unfold performExtract; rewrite Hin, Hout; reflexivity].
  destruct (Qlt_le_dec start end_) as [Hlt | Hle].
  - destruct (Exists_overlaps_dec start end_ (sourceSegments e)) as [Hex | Hno].
    + destruct (extractionValid e start end_) eqn:Hok.
      * right. right. exists start, end_.
        do 5 (split; [assumption || reflexivity |]).
        rewrite (performExtract_success_run clk e start end_
                   Hin Hout Hlt Hex Hok).
        destruct (Qle_bool WIN_PIXELS _) eqn:Hw.
        -- left. apply Qle_bool_iff in Hw. split; [exact Hw | reflexivity].
        -- right. apply Qle_bool_false in Hw. split; [exact Hw | reflexivity].
      * right. left.
        exact (performExtract_failure_run clk e start end_
                 Hin Hout Hlt Hex Hok).
    + left. exact (performExtract_noop_run clk e start end_ Hin Hout Hlt Hno).
  - left. unfold performExtract. rewrite Hin, Hout.
    assert (E : Qle_bool (end_ - start) 0 = true)
      by (apply Qle_bool_iff; lra).
    rewrite E. reflexivity.
Qed.

(** [update] fires no callback, and outside the mood fields it only moves
    the tape and notes the time. *)
Lemma update_moves (timestamp : Q) (e : GameEngine) :
  snd (update timestamp e) = [] /\
  exists mood timer,
    fst (update timestamp e)
    = set_characterMoodTimer timer (set_characterMood mood (moved timestamp e)).
Proof.
  unfold update. cbv [andThen assign when setCharacterMood skip].
  cbn [fst snd app]. unfold moved. cbv zeta.
  cbn [characterMoodTimer set_conveyorOffset set_lastTime
       set_characterMoodTimer set_characterMood currentSpeed].
  change (Qlt_bool 0 0) with false. cbv iota.
  set (dt := (timestamp - lastTime e) / (16666 # 1000)).
  destruct (Qlt_bool 0 (characterMoodTimer e)).
  - destruct (Qle_bool _ 0); (split; [reflexivity |]).
    + exists idle, (characterMoodTimer e - dt). reflexivity.
    + exists (characterMood e), (characterMoodTimer e - dt). reflexivity.
  - destruct (Qlt_bool 4 (Qabs (currentSpeed e)));
      [| destruct (negb (Qeq_bool (currentSpeed e) 0))];
      (split; [reflexivity |]).
    + exists dizzy, (characterMoodTimer e). reflexivity.
    + exists focused, (characterMoodTimer e). reflexivity.
    + exists idle, (characterMoodTimer e). reflexivity.
Qed.

Lemma start_fresh (target : string) (mode : GameMode) (t_last t_start : Q)
    (rnd : list Q) (e e' : GameEngine) (log : list Effect) :
  start target mode t_last t_start rnd e = Some (e', log) ->
  exists tape rest,
    generateSourceTape rnd = Some (tape, rest) /\
    e' = fresh target mode t_last t_start tape e /\
    log = [ScoreUpdate 0; PenaltyUpdate 0; StopAudio].
Proof.
  unfold start. intro H.
  destruct (generateSourceTape rnd) as [[tape rest] |]; [| discriminate].
  exists tape, rest. split; [reflexivity |].
  assert (E : forall (p q : GameEngine * list Effect),
            Some p = Some q -> fst q = fst p /\ snd q = snd p)
    by (intros p q [= ->]; auto).
  apply E in H. cbn [fst snd] in H. destruct H as [-> ->].
  split; reflexivity.
Qed.

(** ** Invariants of a run *)

(** Projects a field out of the named engine states. *)
Ltac fields :=
  cbv [snapped snapToFrame assign pressed stepped withClip afterRipple
       afterFailure moved fresh];
  cbn [fst snd width height sourceSegments sequenceClips gameMode
       conveyorOffset markIn markOut currentSpeed lastTime startTime
       isHoldingK isHoldingJ isHoldingL inputTimestamps inputStartOffsets
       targetColor penaltyCount characterMood characterMoodTimer
       set_sourceSegments set_sequenceClips set_gameMode set_conveyorOffset
       set_markIn set_markOut set_currentSpeed set_lastTime set_startTime
       set_isHoldingK set_isHoldingJ set_isHoldingL set_inputTimestamps
       set_inputStartOffsets set_targetColor set_penaltyCount
       set_characterMood set_characterMoodTimer].

(** A property that [start] establishes and every event keeps holds all
    along a run. *)
Lemma reachable_invariant (P : GameEngine -> Prop) :
  (forall target mode t_last t_start rnd tape rest e,
     Forall unitDraw rnd -> generateSourceTape rnd = Some (tape, rest) ->
     P (fresh target mode t_last t_start tape e)) ->
  (forall clk key e, P e -> P (fst (handleKeyDown clk key e))) ->
  (forall clk key e, P e -> P (fst (handleKeyUp clk key e))) ->
  (forall timestamp e, P e -> P (fst (update timestamp e))) ->
  forall e, reachable e -> P e.
Proof.
  intros Hstart Hdown Hup Htick e H.
  induction H as [target mode t_last t_start rnd e e' log Hrnd Hs
                 | clk key e _ IH | clk key e _ IH | timestamp e _ IH].
  - destruct (start_fresh _ _ _ _ _ _ _ _ Hs) as [tape [rest [Hg [-> _]]]].
    exact (Hstart _ _ _ _ _ _ _ _ Hrnd Hg).
  - exact (Hdown _ _ _ IH).
  - exact (Hup _ _ _ IH).
  - exact (Htick _ _ IH).
Qed.

Lemma speedAfterL_bounds (e : GameEngine) :
  speedWithinLimits e ->
  - MAX_SPEED <= speedAfterL e /\ speedAfterL e <= MAX_SPEED.
Proof.
  unfold speedWithinLimits, speedAfterL, MAX_SPEED. intros [Hlo Hhi].
  destruct (isHoldingK e); [lra |].
  destruct (Qlt_bool (currentSpeed e) 0) eqn:E1; [lra |].
  destruct (Qeq_bool (currentSpeed e) 0); [lra |].
  assert (~ currentSpeed e < 0)
    by (intro F; apply Qlt_bool_iff in F; congruence).
  qminmax.
Qed.

Lemma speedAfterJ_bounds (e : GameEngine) :
  speedWithinLimits e ->
  - MAX_SPEED <= speedAfterJ e /\ speedAfterJ e <= MAX_SPEED.
Proof.
  unfold speedWithinLimits, speedAfterJ, MAX_SPEED. intros [Hlo Hhi].
  destruct (isHoldingK e); [lra |].
  destruct (Qlt_bool 0 (currentSpeed e)) eqn:E1; [lra |].
  destruct (Qeq_bool (currentSpeed e) 0); [lra |].
  assert (~ 0 < currentSpeed e)
    by (intro F; apply Qlt_bool_iff in F; congruence).
  qminmax.
Qed.

Lemma speed_zero_within : - MAX_SPEED <= 0 /\ 0 <= MAX_SPEED.
Proof. unfold MAX_SPEED. lra. Qed.

Lemma handleKeyDown_speed (clk : Clock) (key : string) (e : GameEngine) :
  speedWithinLimits e -> speedWithinLimits (fst (handleKeyDown clk key e)).
Proof.
  intro H.
  destruct (handleKeyDown_keys clk key e)
    as [-> | [-> | [-> | [-> | [-> | [-> | ->]]]]]]; [.. | exact H].
  - rewrite handleKeyDown_K. destruct (isHoldingK e); [exact H |].
    exact speed_zero_within.
  - rewrite handleKeyDown_L. destruct (isHoldingL e); [exact H |].
    exact (speedAfterL_bounds e H).
  - rewrite handleKeyDown_J. destruct (isHoldingJ e); [exact H |].
    exact (speedAfterJ_bounds e H).
  - rewrite handleKeyDown_I. cbv zeta. cbn [fst].
    destruct (markOut e) as [mo |]; [destruct (Qlt_bool _ _) |]; exact H.
  - rewrite handleKeyDown_O. cbv zeta.
    destruct (match markIn e with Some _ => _ | None => _ end); exact H.
  - rewrite handleKeyDown_period.
    destruct (performExtract_outcomes clk e)
      as [-> | [-> | [s [t [_ [_ [_ [_ [_ [[_ ->] | [_ ->]]]]]]]]]]];
      try exact H.
    exact speed_zero_within.
Qed.

Lemma released_speed (clk : Clock) (key : string) (step : Q) (e : GameEngine) :
  speedWithinLimits e -> speedWithinLimits (fst (released clk key step e)).
Proof.
  intro H. unfold released.
  destruct (isHoldingK e); [| exact H].
  destruct (inputTimestamps e !! key); [| exact speed_zero_within].
  destruct (inputStartOffsets e !! key); [| exact speed_zero_within].
  destruct (Qlt_bool _ 200); exact speed_zero_within.
Qed.

Lemma handleKeyUp_speed (clk : Clock) (key : string) (e : GameEngine) :
  speedWithinLimits e -> speedWithinLimits (fst (handleKeyUp clk key e)).
Proof.
  intro H.
  destruct (handleKeyUp_keys clk key e) as [-> | [-> | [-> | ->]]];
    [exact H | | | exact H].
  - rewrite handleKeyUp_L. apply released_speed. exact H.
  - rewrite handleKeyUp_J. apply released_speed. exact H.
Qed.

Lemma update_speed (timestamp : Q) (e : GameEngine) :
  speedWithinLimits e -> speedWithinLimits (fst (update timestamp e)).
Proof.
  intro H. destruct (update_moves timestamp e) as [_ [mood [timer ->]]].
  exact H.
Qed.

(** X1. All along a run the speed stays within [-MAX_SPEED, MAX_SPEED]. *)
Theorem speed_within_limits (e : GameEngine) :
  reachable e -> speedWithinLimits e.
Proof.
  apply reachable_invariant.
  - intros. exact speed_zero_within.
  - exact handleKeyDown_speed.
  - exact handleKeyUp_speed.
  - exact update_speed.
Qed.

Lemma started_reachable : reachable started.
Proof.
  unfold started.
  destruct (start RED STANDARD 0 0 sampleDraws newGameEngine)
    as [[e log] |] eqn:E.
  - exact (reach_start _ _ _ _ _ _ _ _ sampleDraws_unit E).
  - unfold start in E. rewrite sampleDraws_run in E. discriminate.
Qed.

Lemma speed_within_limits_witness :
  speedWithinLimits
    (fst (handleKeyDown clock0 KEY_L
            (fst (handleKeyUp clock0 KEY_L
                    (fst (handleKeyDown clock0 KEY_L started)))))).
Proof.
  apply speed_within_limits.
  apply reach_keyDown. apply reach_keyUp. apply reach_keyDown.
  exact started_reachable.
Defined.

Lemma marksOk_same (e e' : GameEngine) :
  markIn e' = markIn e -> markOut e' = markOut e -> marksOk e -> marksOk e'.
Proof. unfold marksOk. intros -> ->. tauto. Qed.

Lemma marksOk_none (e : GameEngine) :
  markIn e = None -> markOut e = None -> marksOk e.
Proof.
  unfold marksOk. intros -> ->. repeat split; intros; discriminate.
Qed.

Lemma frameGrid_onFrameGrid (x : Q) : onFrameGrid (frameGrid x).
Proof. eexists. apply frameGrid_multiple. Qed.

Lemma handleKeyDown_marks (clk : Clock) (key : string) (e : GameEngine) :
  marksOk e -> marksOk (fst (handleKeyDown clk key e)).
Proof.
  intro H.
  destruct (handleKeyDown_keys clk key e)
    as [-> | [-> | [-> | [-> | [-> | [-> | ->]]]]]]; [.. | exact H].
  - rewrite handleKeyDown_K. destruct (isHoldingK e); [exact H |].
    revert H. apply marksOk_same; reflexivity.
  - rewrite handleKeyDown_L. destruct (isHoldingL e); [exact H |].
    revert H. apply marksOk_same; reflexivity.
  - rewrite handleKeyDown_J. destruct (isHoldingJ e); [exact H |].
    revert H. apply marksOk_same; reflexivity.
  - rewrite handleKeyDown_I. cbv zeta. cbn [fst].
    destruct H as [_ [Ho _]].
    set (g := frameGrid (getTapeXAtPlayhead e)).
    assert (Hg : onFrameGrid g) by apply frameGrid_onFrameGrid.
    destruct (markOut e) as [mo |] eqn:Hmo.
    + destruct (Qlt_bool mo g) eqn:Hlt; unfold marksOk; fields.
      * repeat split; intros; try discriminate. congruence.
      * rewrite Hmo. repeat split.
        -- intros m [= <-]. exact Hg.
        -- exact Ho.
        -- intros mi mo' [= <-] [= <-].
           apply Qnot_lt_le. intro F. apply Qlt_bool_iff in F. congruence.
    + unfold marksOk; fields. rewrite Hmo.
      repeat split; intros; try discriminate. congruence.
  - rewrite handleKeyDown_O. cbv zeta.
    destruct H as [Hi [Ho Hw]].
    set (g := frameGrid (getTapeXAtPlayhead e)).
    assert (Hg : onFrameGrid g) by apply frameGrid_onFrameGrid.
    destruct (markIn e) as [mi |] eqn:Hmi.
    + destruct (Qlt_bool mi g) eqn:Hlt; cbn [fst].
      * apply Qlt_bool_iff in Hlt. unfold marksOk; fields. rewrite Hmi.
        repeat split.
        -- exact Hi.
        -- intros m [= <-]. exact Hg.
        -- intros mi' mo [= <-] [= <-]. lra.
      * unfold marksOk. rewrite Hmi. auto.
    + cbn [fst]. unfold marksOk; fields. rewrite Hmi.
      repeat split; intros; try discriminate. congruence.
  - rewrite handleKeyDown_period.
    destruct (performExtract_outcomes clk e)
      as [-> | [-> | [s [t [_ [_ [_ [_ [_ [[_ ->] | [_ ->]]]]]]]]]]].
    + exact H.
    + revert H. apply marksOk_same; reflexivity.
    + revert H. apply marksOk_same; reflexivity.
    + apply marksOk_none; reflexivity.
Qed.

Lemma released_marks (clk : Clock) (key : string) (step : Q) (e : GameEngine) :
  markIn (fst (released clk key step e)) = markIn e /\
  markOut (fst (released clk key step e)) = markOut e.
Proof.
  unfold released.
  destruct (isHoldingK e); [| auto].
  destruct (inputTimestamps e !! key); [| auto].
  destruct (inputStartOffsets e !! key); [| auto].
  destruct (Qlt_bool _ 200); auto.
Qed.

Lemma handleKeyUp_marks (clk : Clock) (key : string) (e : GameEngine) :
  marksOk e -> marksOk (fst (handleKeyUp clk key e)).
Proof.
  destruct (handleKeyUp_keys clk key e) as [-> | [-> | [-> | ->]]];
    [| | | auto].
  - apply marksOk_same; reflexivity.
  - rewrite handleKeyUp_L.
    destruct (released_marks clk KEY_L FRAME_PIXELS (set_isHoldingL false e))
      as [H1 H2].
    apply marksOk_same; [rewrite H1 | rewrite H2]; reflexivity.
  - rewrite handleKeyUp_J.
    destruct (released_marks clk KEY_J (- FRAME_PIXELS)
                (set_isHoldingJ false e)) as [H1 H2].
    apply marksOk_same; [rewrite H1 | rewrite H2]; reflexivity.
Qed.

Lemma update_marks (timestamp : Q) (e : GameEngine) :
  marksOk e -> marksOk (fst (update timestamp e)).
Proof.
  destruct (update_moves timestamp e) as [_ [mood [timer ->]]].
  apply marksOk_same; reflexivity.
Qed.

(** X2. All along a run both marks sit on the frame grid, and when both are
    set [markOut] is not before [markIn]: the marked duration is never
    negative. *)
Theorem marks_on_grid_and_ordered (e : GameEngine) :
  reachable e -> marksOk e.
Proof.
  apply reachable_invariant.
  - intros. apply marksOk_none; reflexivity.
  - exact handleKeyDown_marks.
  - exact handleKeyUp_marks.
  - exact update_marks.
Qed.

Lemma marks_on_grid_and_ordered_witness :
  marksOk (fst (handleKeyDown clock0 KEY_I
                  (fst (handleKeyDown clock0 KEY_O started)))).
Proof.
  apply marks_on_grid_and_ordered.
  do 2 apply reach_keyDown. exact started_reachable.
Defined.

(** *** The tape and the clips *)

Lemma handleKeyDown_tape (clk : Clock) (key : string) (e : GameEngine) :
  sourceSegments (fst (handleKeyDown clk key e)) = sourceSegments e \/
  exists start end_,
    start < end_ /\
    sourceSegments (fst (handleKeyDown clk key e))
    = rippleDelete start end_ (sourceSegments e).
Proof.
  destruct (handleKeyDown_keys clk key e)
    as [-> | [-> | [-> | [-> | [-> | [-> | ->]]]]]]; [.. | left; reflexivity].
  - left. rewrite handleKeyDown_K. destruct (isHoldingK e); reflexivity.
  - left. rewrite handleKeyDown_L. destruct (isHoldingL e); reflexivity.
  - left. rewrite handleKeyDown_J. destruct (isHoldingJ e); reflexivity.
  - left. rewrite handleKeyDown_I. cbv zeta. cbn [fst].
    destruct (markOut e); [destruct (Qlt_bool _ _) |]; reflexivity.
  - left. rewrite handleKeyDown_O. cbv zeta.
    destruct (match markIn e with Some _ => _ | None => _ end); reflexivity.
  - rewrite handleKeyDown_period. apply performExtract_tape.
Qed.

Lemma handleKeyUp_tape (clk : Clock) (key : string) (e : GameEngine) :
  sourceSegments (fst (handleKeyUp clk key e)) = sourceSegments e.
Proof.
  destruct (handleKeyUp_keys clk key e) as [-> | [-> | [-> | ->]]];
    [reflexivity | | | reflexivity].
  - rewrite handleKeyUp_L. unfold released. cbn [isHoldingK set_isHoldingL].
    destruct (isHoldingK e); [| reflexivity].
    destruct (_ !! KEY_L); [| reflexivity].
    destruct (_ !! KEY_L); [| reflexivity].
    destruct (Qlt_bool _ 200); reflexivity.
  - rewrite handleKeyUp_J. unfold released. cbn [isHoldingK set_isHoldingJ].
    destruct (isHoldingK e); [| reflexivity].
    destruct (_ !! KEY_J); [| reflexivity].
    destruct (_ !! KEY_J); [| reflexivity].
    destruct (Qlt_bool _ 200); reflexivity.
Qed.

Lemma update_tape (timestamp : Q) (e : GameEngine) :
  sourceSegments (fst (update timestamp e)) = sourceSegments e.
Proof.
  destruct (update_moves timestamp e) as [_ [mood [timer ->]]]. reflexivity.
Qed.

Lemma randomColor_palette (r : Q) :
  unitDraw r -> In (randomColor r) AVAILABLE_COLORS.
Proof.
  intros [H0 H1]. unfold randomColor, Math_floor.
  change (inject_Z (Z.of_nat (length AVAILABLE_COLORS))) with 6.
  assert (Hlo : (0 <= Qfloor (r * 6))%Z).
  { change 0%Z with (Qfloor 0). apply Qfloor_resp_le. lra. }
  assert (Hhi : (Qfloor (r * 6) < 6)%Z).
  { apply Z.lt_nge. intro F. rewrite Zle_Qle in F.
    pose proof (Qfloor_le (r * 6)) as G. change (inject_Z 6) with 6 in F. lra. }
  set (k := Qfloor (r * 6)) in *. clearbody k.
  assert (Hk : (Z.to_nat k < 6)%nat) by lia.
  destruct (Z.to_nat k) as [| [| [| [| [| [| n]]]]]]; cbn; [auto 10 .. | lia].
Qed.

Lemma drawColor_source (prev : option string) (rnd : list Q) (c : string)
    (rest : list Q) :
  drawColor prev rnd = Some (c, rest) ->
  exists r, In r rnd /\ c = randomColor r.
Proof.
  revert c rest. induction rnd as [| r rnd IH]; intros c rest H; [discriminate |].
  cbn [drawColor] in H.
  destruct (match prev with
            | Some p => String.eqb (randomColor r) p
            | None => false
            end).
  - destruct (IH _ _ H) as [r' [Hin ->]]. exists r'. split; [right |]; auto.
  - injection H as <- <-. exists r. split; [left |]; reflexivity.
Qed.

Lemma frameGrid_upper (raw : Q) :
  raw <= SEGMENT_MAX_WIDTH -> frameGrid raw <= 300.
Proof.
  unfold SEGMENT_MAX_WIDTH, frameGrid, Math_round, FRAME_PIXELS. intro H.
  assert (Hk : (Qfloor (raw / 6 + (1 # 2)) <= 50)%Z).
  { change 50%Z with (Qfloor (300 / 6 + (1 # 2))).
    apply Qfloor_resp_le.
    assert (raw / 6 <= 300 / 6)
      by (apply Qle_shift_div_r; [lra |]; field_simplify; lra).
    lra. }
  rewrite Zle_Qle in Hk. change (inject_Z 50) with 50 in Hk. lra.
Qed.

Lemma totalWidth_snoc (segs : list TimelineSegment) (s : TimelineSegment) :
  totalWidth (segs ++ [s]) == totalWidth segs + seg_width s.
Proof.
  induction segs as [| t segs IH].
  - unfold totalWidth. cbn [app fold_right]. lra.
  - change (totalWidth ((t :: segs) ++ [s]))
      with (seg_width t + totalWidth (segs ++ [s])).
    change (totalWidth (t :: segs)) with (seg_width t + totalWidth segs).
    rewrite IH. lra.
Qed.

(** What the generator loop keeps beside [generated]: palette colors, and
    a position that grows by at most [SEGMENT_MAX_WIDTH] per segment. *)
Lemma generateLoop_palette (n : nat) :
  forall (i : nat) (currentX : Q) (segs : list TimelineSegment) (rnd : list Q)
         (tape : list TimelineSegment) (rest : list Q),
    paletteTape segs ->
    totalWidth segs <= inject_Z (Z.of_nat i) * 300 ->
    Forall unitDraw rnd ->
    generateLoop n i currentX segs rnd = Some (tape, rest) ->
    paletteTape tape /\ totalWidth tape <= inject_Z (Z.of_nat (i + n)) * 300.
Proof.
  induction n as [| n IH]; intros i X segs rnd tape rest Hpal Hlen Hrnd Hrun.
  - cbn in Hrun. injection Hrun as <- <-. rewrite Nat.add_0_r. auto.
  - cbn [generateLoop] in Hrun.
    destruct rnd as [| r rnd1]; [discriminate |].
    inversion Hrnd as [| ? ? [Hr0 Hr1] Hrnd1]; subst.
    set (rawWidth := r * (SEGMENT_MAX_WIDTH - SEGMENT_MIN_WIDTH)
                     + SEGMENT_MIN_WIDTH) in Hrun.
    set (prev := if (0 <? i)%nat
                 then option_map seg_color (nth_error segs (i - 1))
                 else None) in Hrun.
    destruct (drawColor prev rnd1) as [[color rnd2] |] eqn:Hdraw;
      [| discriminate].
    destruct (drawColor_spec _ _ _ _ Hdraw) as [_ [used Hused]].
    destruct (drawColor_source _ _ _ _ Hdraw) as [r' [Hr' ->]].
    assert (Hw : frameGrid rawWidth <= 300).
    { apply frameGrid_upper. subst rawWidth.
      unfold SEGMENT_MAX_WIDTH, SEGMENT_MIN_WIDTH. lra. }
    replace (i + S n)%nat with (S i + n)%nat by lia.
    apply (IH _ _ _ _ _ _) with (4 := Hrun).
    + apply Forall_app. split; [exact Hpal |].
      constructor; [| constructor]. cbn.
      apply randomColor_palette.
      rewrite List.Forall_forall in Hrnd1. exact (Hrnd1 _ Hr').
    + assert (E : totalWidth (segs ++ [mkSegment ("seg_" +:+ pretty i) X
                                         (frameGrid rawWidth) (randomColor r')])
                  == totalWidth segs + frameGrid rawWidth).
      { apply totalWidth_snoc. }
      rewrite E. rewrite Nat2Z.inj_succ, <- Z.add_1_r, inject_Z_plus.
      change (inject_Z 1) with 1. lra.
    + rewrite Hused in Hrnd1. apply Forall_app in Hrnd1. tauto.
Qed.

Lemma rippleDelete_palette (start end_ : Q) (segs : list TimelineSegment) :
  paletteTape segs -> paletteTape (rippleDelete start end_ segs).
Proof.
  unfold paletteTape. intro H. rewrite rippleDelete_passes.
  apply Forall_app. split; apply List.Forall_forall; intros s Hs;
    apply in_flat_map in Hs; destruct Hs as [t [Ht Hs]];
    rewrite List.Forall_forall in H; specialize (H t Ht).
  - unfold keepBefore in Hs.
    destruct (fullyBefore start t);
      [| destruct (Qlt_bool (seg_x t) start)];
      cbn in Hs; [destruct Hs as [<- | []] .. | destruct Hs]; exact H.
  - unfold keepAfter in Hs.
    destruct (fullyAfter end_ t);
      [| destruct (Qlt_bool end_ (seg_x t + seg_width t))];
      cbn in Hs; [destruct Hs as [<- | []] .. | destruct Hs]; exact H.
Qed.

Lemma runTape_same (e e' : GameEngine) :
  sourceSegments e' = sourceSegments e -> runTape e -> runTape e'.
Proof. unfold runTape. intros ->. tauto. Qed.

Lemma handleKeyDown_runTape (clk : Clock) (key : string) (e : GameEngine) :
  runTape e -> runTape (fst (handleKeyDown clk key e)).
Proof.
  intros [Hok [Hpal Hlen]].
  destruct (handleKeyDown_tape clk key e) as [E | [start [end_ [Hlt E]]]];
    unfold runTape; rewrite E; [auto |].
  destruct (rippleDelete_total start end_ _ Hok Hlt) as [Hok' Htot].
  split; [exact Hok' |]. split; [apply rippleDelete_palette; exact Hpal |].
  rewrite Htot.
  pose proof (coverage_nonneg start end_ (fun _ => true) (sourceSegments e)).
  lra.
Qed.

(** X3. All along a run the source tape is well formed (positive widths, no
    gaps), every segment has one of the six palette colors, and the tape is
    never longer than the 200 segments of at most 300 px it started with. *)
Theorem tape_of_a_run (e : GameEngine) :
  reachable e -> runTape e.
Proof.
  apply reachable_invariant.
  - intros target mode t_last t_start rnd tape rest e0 Hrnd Hgen.
    unfold runTape. fields.
    destruct (generateLoop_generated _ _ _ _ _ _ _ generated_nil Hrnd Hgen)
      as [X [_ [Hchain _]]].
    destruct (generateLoop_palette 200 0 0 [] rnd tape rest) as [Hpal Hlen];
      [exact (List.Forall_nil _) | vm_compute; discriminate | exact Hrnd
      | exact Hgen |].
    split; [exact (chain_tapeOk _ _ _ Hchain) |].
    split; [exact Hpal |].
    change (inject_Z (Z.of_nat (0 + 200)) * 300) with 60000 in Hlen.
    exact Hlen.
  - exact handleKeyDown_runTape.
  - intros clk key e0. apply runTape_same. apply handleKeyUp_tape.
  - intros t e0. apply runTape_same. apply update_tape.
Qed.

Lemma tape_of_a_run_witness :
  runTape (fst (handleKeyDown clock0 KEY_PERIOD
                  (fst (handleKeyDown clock0 KEY_O started)))).
Proof.
  apply tape_of_a_run.
  do 2 apply reach_keyDown. exact started_reachable.
Defined.







(** ** The shuttle keys *)

Lemma Qeq_bool_false_neq (x y : Q) : Qeq_bool x y = false -> ~ x == y.
Proof. intros H E. apply Qeq_bool_iff in E. congruence. Qed.

(** One tap of L with K up, on an engine moving forward or at rest. *)
Lemma tapKey_L_forward (clks : Clock * Clock) (e : GameEngine) :
  isHoldingK e = false -> isHoldingL e = false -> 0 <= currentSpeed e ->
  let e' := fst (tapKey KEY_L clks e) in
  isHoldingK e' = false /\ isHoldingL e' = false /\
  conveyorOffset e' = conveyorOffset e /\
  penaltyCount e' = penaltyCount e /\
  snd (tapKey KEY_L clks e) = [] /\
  (currentSpeed e == 0 -> currentSpeed e' == 1) /\
  (0 < currentSpeed e ->
   currentSpeed e' == Qmin (currentSpeed e * 2) MAX_SPEED).
Proof.
  intros HK HL Hs. unfold tapKey, andThen. cbv zeta.
  rewrite handleKeyDown_L, HL. cbn [fst snd].
  rewrite handleKeyUp_L. unfold released.
  cbn [isHoldingK set_isHoldingL pressed set_currentSpeed
       set_inputStartOffsets set_inputTimestamps].
  rewrite HK. cbn [fst snd app].
  fields. rewrite ?HK. do 5 (split; [reflexivity |]).
  unfold speedAfterL. rewrite ?HK.
  destruct (Qlt_bool (currentSpeed e) 0) eqn:E1;
    [apply Qlt_bool_iff in E1; lra |].
  destruct (Qeq_bool (currentSpeed e) 0) eqn:E2.
  - apply Qeq_bool_iff in E2. split; [intros _; reflexivity | intro; lra].
  - apply Qeq_bool_false_neq in E2.
    split; [intro; contradiction | intros _; reflexivity].
Qed.

Lemma tapKey_J_backward (clks : Clock * Clock) (e : GameEngine) :
  isHoldingK e = false -> isHoldingJ e = false -> currentSpeed e <= 0 ->
  let e' := fst (tapKey KEY_J clks e) in
  isHoldingK e' = false /\ isHoldingJ e' = false /\
  conveyorOffset e' = conveyorOffset e /\
  penaltyCount e' = penaltyCount e /\
  snd (tapKey KEY_J clks e) = [] /\
  (currentSpeed e == 0 -> currentSpeed e' == - (1)) /\
  (currentSpeed e < 0 ->
   currentSpeed e' == Qmax (currentSpeed e * 2) (- MAX_SPEED)).
Proof.
  intros HK HJ Hs. unfold tapKey, andThen. cbv zeta.
  rewrite handleKeyDown_J, HJ. cbn [fst snd].
  rewrite handleKeyUp_J. unfold released.
  cbn [isHoldingK set_isHoldingJ pressed set_currentSpeed
       set_inputStartOffsets set_inputTimestamps].
  rewrite HK. cbn [fst snd app].
  fields. rewrite ?HK. do 5 (split; [reflexivity |]).
  unfold speedAfterJ. rewrite ?HK.
  destruct (Qlt_bool 0 (currentSpeed e)) eqn:E1;
    [apply Qlt_bool_iff in E1; lra |].
  destruct (Qeq_bool (currentSpeed e) 0) eqn:E2.
  - apply Qeq_bool_iff in E2. split; [intros _; reflexivity | intro; lra].
  - apply Qeq_bool_false_neq in E2.
    split; [intro; contradiction | intros _; reflexivity].
Qed.

Lemma two_power_step (n : nat) :
  inject_Z (2 ^ Z.of_nat (S n)) == inject_Z (2 ^ Z.of_nat n) * 2.
Proof.
  rewrite Nat2Z.inj_succ, Z.pow_succ_r by lia.
  rewrite inject_Z_mult. change (inject_Z 2) with 2. ring.
Qed.

Lemma two_power_pos (n : nat) : 1 <= inject_Z (2 ^ Z.of_nat n).
Proof.
  change 1 with (inject_Z 1). rewrite <- Zle_Qle.
  pose proof (Z.pow_pos_nonneg 2 (Z.of_nat n)). lia.
Qed.

Lemma tapKeys_snoc (key : string) (clks : list (Clock * Clock))
    (c : Clock * Clock) (e : GameEngine) :
  tapKeys key (clks ++ [c]) e = fst (tapKey key c (tapKeys key clks e)).
Proof. unfold tapKeys. rewrite fold_left_app. reflexivity. Qed.

Lemma ladder_L (clks : list (Clock * Clock)) (c : Clock * Clock)
    (e : GameEngine) :
  isHoldingK e = false -> isHoldingL e = false -> currentSpeed e == 0 ->
  let e' := tapKeys KEY_L (clks ++ [c]) e in
  isHoldingK e' = false /\ isHoldingL e' = false /\
  conveyorOffset e' = conveyorOffset e /\
  penaltyCount e' = penaltyCount e /\
  currentSpeed e' == Qmin (inject_Z (2 ^ Z.of_nat (length clks))) MAX_SPEED.
Proof.
  intros HK HL H0. cbv zeta. revert c.
  induction clks as [| c' clks IH] using rev_ind; intro c.
  - cbn [app length]. unfold tapKeys. cbn [fold_left].
    destruct (tapKey_L_forward c e HK HL ltac:(lra))
      as [A [B [C [D [_ [E _]]]]]].
    repeat (split; [assumption |]).
    rewrite (E H0). unfold MAX_SPEED. vm_compute. reflexivity.
  - destruct (IH c') as [A [B [C [D E]]]].
    rewrite tapKeys_snoc. rewrite length_app. cbn [length].
    replace (length clks + 1)%nat with (S (length clks)) by lia.
    set (e1 := tapKeys KEY_L (clks ++ [c']) e) in *.
    pose proof (two_power_pos (length clks)) as Hp.
    assert (Hpos : 0 < currentSpeed e1)
      by (rewrite E; unfold MAX_SPEED; qminmax).
    destruct (tapKey_L_forward c e1 A B ltac:(lra))
      as [A' [B' [C' [D' [_ [_ F]]]]]].
    split; [exact A' |]. split; [exact B' |].
    split; [congruence |]. split; [congruence |].
    rewrite (F Hpos), two_power_step.
    revert E. unfold MAX_SPEED. generalize (currentSpeed e1).
    intros s E. qminmax.
Qed.

Lemma ladder_J (clks : list (Clock * Clock)) (c : Clock * Clock)
    (e : GameEngine) :
  isHoldingK e = false -> isHoldingJ e = false -> currentSpeed e == 0 ->
  let e' := tapKeys KEY_J (clks ++ [c]) e in
  isHoldingK e' = false /\ isHoldingJ e' = false /\
  conveyorOffset e' = conveyorOffset e /\
  penaltyCount e' = penaltyCount e /\
  currentSpeed e'
    == - Qmin (inject_Z (2 ^ Z.of_nat (length clks))) MAX_SPEED.
Proof.
  intros HK HJ H0. cbv zeta. revert c.
  induction clks as [| c' clks IH] using rev_ind; intro c.
  - cbn [app length]. unfold tapKeys. cbn [fold_left].
    destruct (tapKey_J_backward c e HK HJ ltac:(lra))
      as [A [B [C [D [_ [E _]]]]]].
    repeat (split; [assumption |]).
    rewrite (E H0). unfold MAX_SPEED. vm_compute. reflexivity.
  - destruct (IH c') as [A [B [C [D E]]]].
    rewrite tapKeys_snoc. rewrite length_app. cbn [length].
    replace (length clks + 1)%nat with (S (length clks)) by lia.
    set (e1 := tapKeys KEY_J (clks ++ [c']) e) in *.
    pose proof (two_power_pos (length clks)) as Hp.
    assert (Hneg : currentSpeed e1 < 0)
      by (rewrite E; unfold MAX_SPEED; qminmax).
    destruct (tapKey_J_backward c e1 A B ltac:(lra))
      as [A' [B' [C' [D' [_ [_ F]]]]]].
    split; [exact A' |]. split; [exact B' |].
    split; [congruence |]. split; [congruence |].
    rewrite (F Hneg), two_power_step.
    revert E. unfold MAX_SPEED. generalize (currentSpeed e1).
    intros s E. qminmax.
Qed.

(** X5. The shuttle ladder.  From rest, with K up, the n-th tap of L leaves
    the speed at [min (2^(n-1)) MAX_SPEED]: 1, 2, 4, 8, 16, 32, 32, ...;
    the taps themselves neither move the tape nor count as bad habits.  J
    climbs the same ladder with the sign reversed. *)
Theorem shuttle_ladder (key : string) (dir : Q)
    (clks : list (Clock * Clock)) (c : Clock * Clock) (e : GameEngine) :
  (key = KEY_L /\ dir = 1) \/ (key = KEY_J /\ dir = - (1)) ->
  isHoldingK e = false -> isHoldingL e = false -> isHoldingJ e = false ->
  currentSpeed e == 0 ->
  let e' := tapKeys key (clks ++ [c]) e in
  currentSpeed e'
    == dir * Qmin (inject_Z (2 ^ Z.of_nat (length clks))) MAX_SPEED /\
  conveyorOffset e' = conveyorOffset e /\
  penaltyCount e' = penaltyCount e.
Proof.
  intros [[-> ->] | [-> ->]] HK HL HJ H0; cbv zeta.
  - destruct (ladder_L clks c e HK HL H0) as [_ [_ [A [B C]]]].
    split; [rewrite C; ring | auto].
  - destruct (ladder_J clks c e HK HJ H0) as [_ [_ [A [B C]]]].
    split; [rewrite C; ring | auto].
Qed.

Lemma shuttle_ladder_witness :
  currentSpeed
    (tapKeys KEY_L
       ([(clock0, clock0); (clock0, clock0); (clock0, clock0)]
        ++ [(clock0, clock0)]) started) == 8.
Proof.
  destruct (shuttle_ladder KEY_L 1
              [(clock0, clock0); (clock0, clock0); (clock0, clock0)]
              (clock0, clock0) started) as [H _].
  - left. split; reflexivity.
  - vm_compute. reflexivity.
  - vm_compute. reflexivity.
  - vm_compute. reflexivity.
  - vm_compute. reflexivity.
  - rewrite H. vm_compute. reflexivity.
Defined.


(** [Math.round] moves a position by at most half a frame. *)
Lemma frameGrid_near (x : Q) :
  Qabs (frameGrid x - x) <= FRAME_PIXELS / 2.
Proof.
  unfold frameGrid, Math_round, FRAME_PIXELS.
  pose proof (Qfloor_le (x / 6 + (1 # 2))) as Hlo.
  pose proof (Qlt_floor (x / 6 + (1 # 2))) as Hhi.
  rewrite inject_Z_plus in Hhi. change (inject_Z 1) with 1 in Hhi.
  set (k := inject_Z (Qfloor (x / 6 + (1 # 2)))) in *. clearbody k.
  assert (E : x / 6 * 6 == x) by (field; lra).
  set (y := x / 6) in *. clearbody y.
  apply Qabs_Qle_condition.
  assert (H3 : 6 / 2 == 3) by reflexivity. rewrite H3. split; lra.
Qed.

(** X7. The K key parks the playhead.  A first key-down of K zeroes the
    speed and moves the playhead to the nearest frame boundary: its tape
    position becomes a multiple of [FRAME_PIXELS] at most half a frame from
    where it was; marks, tape, clips and penalties are untouched and the one
    effect is the audio stop. *)
Theorem K_parks_on_the_nearest_frame (clk : Clock) (e : GameEngine) :
  isHoldingK e = false ->
  let r := handleKeyDown clk KEY_K e in
  currentSpeed (fst r) = 0 /\
  isHoldingK (fst r) = true /\
  onFrameGrid (frameGrid (getTapeXAtPlayhead e)) /\
  getTapeXAtPlayhead (fst r) == frameGrid (getTapeXAtPlayhead e) /\
  Qabs (getTapeXAtPlayhead (fst r) - getTapeXAtPlayhead e)
    <= FRAME_PIXELS / 2 /\
  markIn (fst r) = markIn e /\ markOut (fst r) = markOut e /\
  sourceSegments (fst r) = sourceSegments e /\
  sequenceClips (fst r) = sequenceClips e /\
  penaltyCount (fst r) = penaltyCount e /\
  snd r = [StopAudio].
Proof.
  intros HK r. subst r. rewrite handleKeyDown_K, HK. cbn [fst snd].
  assert (Hx : getTapeXAtPlayhead
                 (snapped (set_currentSpeed 0 (set_isHoldingK true e)))
               == frameGrid (getTapeXAtPlayhead e)).
  { unfold snapped.
    rewrite (getTapeX_snapToFrame (set_currentSpeed 0 (set_isHoldingK true e))).
    reflexivity. }
  split; [reflexivity |]. split; [reflexivity |].
  split; [apply frameGrid_onFrameGrid |].
  split; [exact Hx |].
  split; [rewrite Hx; apply frameGrid_near |].
  repeat split; reflexivity.
Qed.

Lemma K_parks_on_the_nearest_frame_witness :
  getTapeXAtPlayhead
    (fst (handleKeyDown clock0 KEY_K
            (fst (update 1040 (fst (handleKeyDown clock0 KEY_L started))))))
  == 774.
Proof.
  destruct (K_parks_on_the_nearest_frame clock0
              (fst (update 1040 (fst (handleKeyDown clock0 KEY_L started)))))
    as [_ [_ [_ [H _]]]].
  - vm_compute. reflexivity.
  - rewrite H. vm_compute. reflexivity.
Defined.

(** X8. Reversing direction stops the tape where it is.  With K up, a first
    key-down of L while the tape runs backwards (or of J while it runs
    forwards) sets the speed to 0 and does nothing else to the transport: the
    conveyor offset is not snapped, no audio stop is issued, no callback
    fires. *)
Theorem reversal_stops_without_snapping
    (clk : Clock) (key : string) (e : GameEngine) :
  (key = KEY_L /\ isHoldingL e = false /\ currentSpeed e < 0) \/
  (key = KEY_J /\ isHoldingJ e = false /\ 0 < currentSpeed e) ->
  isHoldingK e = false ->
  let r := handleKeyDown clk key e in
  currentSpeed (fst r) = 0 /\
  conveyorOffset (fst r) = conveyorOffset e /\
  getTapeXAtPlayhead (fst r) = getTapeXAtPlayhead e /\
  inputStartOffsets (fst r) !! key = Some (conveyorOffset e) /\
  inputTimestamps (fst r) !! key = Some (now clk) /\
  snd r = [].
Proof.
  intros [[-> [Hh Hs]] | [-> [Hh Hs]]] HK r; subst r.
  - rewrite handleKeyDown_L, Hh. cbn [fst snd]. fields.
    unfold speedAfterL. rewrite HK.
    apply Qlt_bool_iff in Hs. rewrite Hs.
    repeat split; try reflexivity; apply lookup_insert_eq.
  - rewrite handleKeyDown_J, Hh. cbn [fst snd]. fields.
    unfold speedAfterJ. rewrite HK.
    apply Qlt_bool_iff in Hs. rewrite Hs.
    repeat split; try reflexivity; apply lookup_insert_eq.
Qed.

Lemma reversal_stops_without_snapping_witness :
  reachable reversing /\
  currentSpeed (fst (handleKeyDown clock0 KEY_L reversing)) = 0 /\
  ~ frameGrid (getTapeXAtPlayhead (fst (handleKeyDown clock0 KEY_L reversing)))
    == getTapeXAtPlayhead (fst (handleKeyDown clock0 KEY_L reversing)).
Proof.
  split.
  - unfold reversing.
    apply reach_keyUp. apply reach_update. apply reach_keyDown.
    exact started_reachable.
  - destruct (reversal_stops_without_snapping clock0 KEY_L reversing)
      as [H1 [_ [H2 _]]].
    + left. split; [reflexivity |]. split; vm_compute; reflexivity.
    + vm_compute. reflexivity.
    + split; [exact H1 |]. rewrite H2. vm_compute. discriminate.
Defined.

(** ** The tick, the reset and the score *)


Lemma start_of_tape (target : string) (mode : GameMode) (t_last t_start : Q)
    (rnd : list Q) (e : GameEngine) (tape : list TimelineSegment)
    (rest : list Q) :
  generateSourceTape rnd = Some (tape, rest) ->
  start target mode t_last t_start rnd e
    = Some (fresh target mode t_last t_start tape e,
            [ScoreUpdate 0; PenaltyUpdate 0%Z; StopAudio]).
Proof.
  unfold start. intros ->. reflexivity.
Qed.

(** X10. [start] is a reset.  Whatever the engine went through before, the
    new run has the chosen target and mode, a tape of 200 segments, no
    clips, no marks, zero speed and penalties, no key held, and the playhead
    on the frame nearest to the middle of the canvas (402 on the 800 px
    canvas); it reports score 0 and penalty 0 and stops the audio.  Of the
    old state only the canvas size, the two key tables and the mood timer
    survive, so two engines that agree on those start identical runs. *)
Theorem start_resets (target : string) (mode : GameMode) (t_last t_start : Q)
    (rnd : list Q) (e e' : GameEngine) (log : list Effect) :
  Forall unitDraw rnd ->
  start target mode t_last t_start rnd e = Some (e', log) ->
  log = [ScoreUpdate 0; PenaltyUpdate 0%Z; StopAudio] /\
  targetColor e' = target /\ gameMode e' = mode /\
  length (sourceSegments e') = 200%nat /\
  sequenceClips e' = [] /\ markIn e' = None /\ markOut e' = None /\
  currentSpeed e' = 0 /\ penaltyCount e' = 0%Z /\
  isHoldingK e' = false /\ isHoldingJ e' = false /\ isHoldingL e' = false /\
  lastTime e' = t_last /\ startTime e' = t_start /\
  characterMood e' = idle /\
  getTapeXAtPlayhead e' == frameGrid (width e / 2) /\
  (width e = CANVAS_WIDTH -> getTapeXAtPlayhead e' == 402) /\
  inputTimestamps e' = inputTimestamps e /\
  inputStartOffsets e' = inputStartOffsets e /\
  characterMoodTimer e' = characterMoodTimer e /\
  (forall e2,
     width e2 = width e -> height e2 = height e ->
     inputTimestamps e2 = inputTimestamps e ->
     inputStartOffsets e2 = inputStartOffsets e ->
     characterMoodTimer e2 = characterMoodTimer e ->
     start target mode t_last t_start rnd e2 = Some (e', log)).
Proof.
  intros Hrnd Hs.
  destruct (start_fresh _ _ _ _ _ _ _ _ Hs) as [tape [rest [Hg [-> ->]]]].
  destruct (generateLoop_generated _ _ _ _ _ _ _ generated_nil Hrnd Hg)
    as [X [Hlen _]].
  assert (Hx : getTapeXAtPlayhead (fresh target mode t_last t_start tape e)
               == frameGrid (width e / 2)).
  { unfold getTapeXAtPlayhead. fields.
    assert (E : frameGrid (width e / 2 - 0) = frameGrid (width e / 2)).
    { unfold frameGrid, Math_round. do 2 f_equal.
      apply Qfloor_comp. unfold FRAME_PIXELS. field. }
    rewrite E. ring. }
  split; [reflexivity |].
  do 2 (split; [reflexivity |]). split; [exact Hlen |].
  do 11 (split; [reflexivity |]).
  split; [exact Hx |].
  split; [intro Hw; rewrite Hx, Hw; vm_compute; reflexivity |].
  do 3 (split; [reflexivity |]).
  intros e2 H1 H2 H3 H4 H5.
  rewrite (start_of_tape target mode t_last t_start rnd e2 tape rest Hg).
  unfold fresh. rewrite H1, H2, H3, H4, H5. reflexivity.
Qed.

Lemma start_resets_witness :
  getTapeXAtPlayhead started == 402 /\
  length (sourceSegments started) = 200%nat.
Proof.
  assert (E : start RED STANDARD 0 0 sampleDraws newGameEngine
              = Some (started, [ScoreUpdate 0; PenaltyUpdate 0%Z; StopAudio])).
  { unfold started, start. rewrite sampleDraws_run. reflexivity. }
  destruct (start_resets RED STANDARD 0 0 sampleDraws newGameEngine started _
              sampleDraws_unit E)
    as [_ [_ [_ [H1 [_ [_ [_ [_ [_ [_ [_ [_ [_ [_ [_ [_ [H2 _]]]]]]]]]]]]]]]]].
  split; [apply H2; reflexivity | exact H1].
Defined.





(** ** Where an extraction leaves the transport *)

Lemma extractSucceeds_outcome (clk : Clock) (e : GameEngine) (start end_ : Q) :
  markIn e = Some start -> markOut e = Some end_ ->
  extractSucceeds clk e ->
  (WIN_PIXELS <= totalPixels (sequenceClips e) + (end_ - start) /\
   performExtract clk e =
     (withClip clk e start end_,
      [extractBurst e;
       ScoreUpdate (totalPixels (sequenceClips e) + (end_ - start));
       FinalScoreUpdate (calculateFinalScore clk e); StopAudio; Win])) \/
  (totalPixels (sequenceClips e) + (end_ - start) < WIN_PIXELS /\
   performExtract clk e =
     (afterRipple clk e start end_,
      [extractBurst e;
       ScoreUpdate (totalPixels (sequenceClips e) + (end_ - start));
       StopAudio])).
Proof.
  intros Hin Hout [clip Hclip].
  assert (Hne : sequenceClips e <> sequenceClips e ++ [clip]).
  { intro E. apply (f_equal (@length _)) in E.
    rewrite length_app in E. cbn in E. lia. }
  destruct (performExtract_outcomes clk e)
    as [E | [E | [s [t [Hs [Ht [_ [_ [_ H]]]]]]]]].
  - rewrite E in Hclip. cbn [fst] in Hclip. contradiction.
  - rewrite E in Hclip. cbn [fst] in Hclip. contradiction.
  - assert (s = start) by congruence. assert (t = end_) by congruence.
    subst s t. exact H.
Qed.

(** X12. Where a successful extraction leaves the transport.  When the run
    goes on, the tape is stopped, both marks are cleared and the playhead
    sits exactly on the former mark-in position (the frame it was set on),
    so that the material after the cut has moved under the playhead; held
    keys and penalties are untouched and the callbacks are the score update
    alone.  When the extraction wins the game, the tape, the marks, the
    speed and the tape offset are all left as they were. *)
Theorem extraction_leaves_transport (clk : Clock) (e : GameEngine)
    (start end_ : Q) :
  markIn e = Some start -> markOut e = Some end_ ->
  onFrameGrid start ->
  extractSucceeds clk e ->
  let total := totalPixels (sequenceClips e) + (end_ - start) in
  let e' := fst (performExtract clk e) in
  (total < WIN_PIXELS ->
   getTapeXAtPlayhead e' == start /\
   currentSpeed e' = 0 /\ markIn e' = None /\ markOut e' = None /\
   sourceSegments e' = rippleDelete start end_ (sourceSegments e) /\
   penaltyCount e' = penaltyCount e /\
   isHoldingK e' = isHoldingK e /\ isHoldingJ e' = isHoldingJ e /\
   isHoldingL e' = isHoldingL e /\
   snd (performExtract clk e) = [extractBurst e; ScoreUpdate total; StopAudio]) /\
  (WIN_PIXELS <= total ->
   sourceSegments e' = sourceSegments e /\
   markIn e' = markIn e /\ markOut e' = markOut e /\
   currentSpeed e' = currentSpeed e /\
   conveyorOffset e' = conveyorOffset e /\
   penaltyCount e' = penaltyCount e).
Proof.
  intros Hin Hout [k Hk] Hok. cbv zeta.
  destruct (extractSucceeds_outcome clk e start end_ Hin Hout Hok)
    as [[Hw E] | [Hw E]]; rewrite E; cbn [fst snd].
  - split; [intro; lra |]. intros _. fields. repeat split; reflexivity.
  - split; [| intro; lra]. intros _.
    split.
    { unfold getTapeXAtPlayhead. fields. unfold getTapeXAtPlayhead. fields.
      assert (G : width e / 2 - (width e / 2 - start)
                  == inject_Z k * FRAME_PIXELS) by (rewrite Hk; ring).
      rewrite (frameGrid_on_grid _ k G), Hk. ring. }
    fields. repeat split; reflexivity.
Qed.

Lemma extraction_leaves_transport_witness :
  getTapeXAtPlayhead
    (fst (performExtract clock0
            (engineWith rgbTape STANDARD (Some 114) (Some 426))))
  == 114.
Proof.
  pose proof (extraction_leaves_transport clock0
    (engineWith rgbTape STANDARD (Some 114) (Some 426)) 114 426
    eq_refl eq_refl) as H.
  cbv zeta in H.
  destruct H as [H _].
  - exists 19%Z. reflexivity.
  - eexists. vm_compute. reflexivity.
  - destruct H as [H _]; [vm_compute; reflexivity | exact H].
Defined.

(** ** Segment lookup *)

Lemma segmentAt_cons (x : Q) (h : TimelineSegment) (t : list TimelineSegment) :
  segmentAt x (h :: t)
  = if Qle_bool (seg_x h) x && Qlt_bool x (seg_x h + seg_width h)
    then Some h else segmentAt x t.
Proof. reflexivity. Qed.

Lemma under_playhead_iff (x : Q) (s : TimelineSegment) :
  Qle_bool (seg_x s) x && Qlt_bool x (seg_x s + seg_width s) = true
  <-> seg_x s <= x /\ x < seg_x s + seg_width s.
Proof.
  rewrite andb_true_iff, Qle_bool_iff, Qlt_bool_iff. reflexivity.
Qed.

Lemma segmentAt_gapless (a b x : Q) (segs : list TimelineSegment) :
  chain a segs b ->
  (a <= x /\ x < b <-> exists s, segmentAt x segs = Some s) /\
  (forall s,
     segmentAt x segs = Some s ->
     In s segs /\ seg_x s <= x /\ x < seg_x s + seg_width s /\
     0 < seg_width s /\
     forall s', In s' segs ->
       seg_x s' <= x -> x < seg_x s' + seg_width s' -> s' = s).
Proof.
  revert a. induction segs as [| h t IH]; intros a Hc.
  - cbn in Hc. split.
    + split; [intros [H1 H2]; lra | intros [s Hs]; discriminate].
    + intros s Hs. discriminate.
  - cbn [chain] in Hc. destruct Hc as [Hx [Hw Hc]].
    pose proof (chain_le _ _ _ Hc) as Hle.
    pose proof (chain_bounds _ _ _ Hc) as Hb.
    destruct (IH _ Hc) as [IH1 IH2].
    rewrite segmentAt_cons.
    destruct (Qle_bool (seg_x h) x && Qlt_bool x (seg_x h + seg_width h))
      eqn:E.
    + apply under_playhead_iff in E. destruct E as [E1 E2]. split.
      * split; [intros _; exists h; reflexivity | intros _; lra].
      * intros s [= <-].
        split; [left; reflexivity |]. do 3 (split; [assumption |]).
        intros s' [<- | Hin] H1 H2; [reflexivity |].
        rewrite List.Forall_forall in Hb. destruct (Hb _ Hin) as [G _]. lra.
    + assert (Hout : x < seg_x h \/ seg_x h + seg_width h <= x).
      { destruct (Qlt_le_dec x (seg_x h)) as [G | G]; [left; exact G |].
        right. destruct (Qlt_le_dec x (seg_x h + seg_width h)) as [G' | G'];
          [| exact G'].
        assert (T : Qle_bool (seg_x h) x
                    && Qlt_bool x (seg_x h + seg_width h) = true)
          by (apply under_playhead_iff; split; assumption).
        congruence. }
      split.
      * rewrite <- IH1. split; intros [H1 H2]; split; lra.
      * intros s Hs. destruct (IH2 s Hs) as [G1 [G2 [G3 [G4 G5]]]].
        split; [right; exact G1 |]. do 3 (split; [assumption |]).
        intros s' [<- | Hin] H1 H2; [lra | exact (G5 s' Hin H1 H2)].
Qed.

(** X13. The segment under the playhead.  On a gapless tape from [a] to [b]
    the lookup finds a segment exactly for the positions [a <= x < b]; the
    segment found is on the tape, contains [x] (left edge included, right
    edge excluded), has positive width, and is the only segment of the tape
    that contains [x]. *)
Theorem segment_under_playhead (a b x : Q) (segs : list TimelineSegment) :
  chain a segs b ->
  (a <= x /\ x < b <-> exists s, segmentAt x segs = Some s) /\
  (x < a \/ b <= x <-> segmentAt x segs = None) /\
  (forall s,
     segmentAt x segs = Some s ->
     In s segs /\ seg_x s <= x /\ x < seg_x s + seg_width s /\
     0 < seg_width s /\
     forall s', In s' segs ->
       seg_x s' <= x -> x < seg_x s' + seg_width s' -> s' = s).
Proof.
  intro Hc. destruct (segmentAt_gapless a b x segs Hc) as [H1 H2].
  split; [exact H1 |]. split; [| exact H2].
  split.
  - intro Hout. destruct (segmentAt x segs) as [s |] eqn:E; [| reflexivity].
    assert (G : a <= x /\ x < b) by (apply H1; exists s; reflexivity).
    lra.
  - intro Hn.
    destruct (Qlt_le_dec x a) as [G | G]; [left; exact G |].
    destruct (Qlt_le_dec x b) as [G' | G']; [| right; exact G'].
    assert (T : exists s, segmentAt x segs = Some s) by (apply H1; split; assumption).
    destruct T as [s Hs]. congruence.
Qed.

Lemma segment_under_playhead_witness :
  segmentAt 120 rgbTape = Some (mkSegment "seg_1" 120 300 RED) /\
  segmentAt 600 rgbTape = None.
Proof.
  assert (Hc : chain 0 rgbTape 600) by (cbn; repeat split; reflexivity).
  destruct (segment_under_playhead 0 600 600 rgbTape Hc) as [_ [H _]].
  split; [reflexivity |].
  apply H. right. apply Qle_refl.
Defined.

(** ** Audio feedback *)

Lemma Qeq_bool_false_iff (x y : Q) : Qeq_bool x y = false <-> ~ x == y.
Proof.
  split.
  - intros E H. apply Qeq_bool_iff in H. congruence.
  - intro H. destruct (Qeq_bool x y) eqn:E; [| reflexivity].
    apply Qeq_bool_iff in E. contradiction.
Qed.

Lemma palette_frequency (color : string) :
  In color AVAILABLE_COLORS ->
  exists f, COLOR_FREQUENCIES !! color = Some f /\ baseFrequency color = f /\
            (26163 # 100) <= f /\ f <= 440.
Proof.
  intros [<- | [<- | [<- | [<- | [<- | [<- | []]]]]]];
    eexists; (split; [vm_compute; reflexivity |]);
    (split; [vm_compute; reflexivity |]);
    split; vm_compute; discriminate.
Qed.

Lemma updateAudio_over_segment (a : AudioHandles) (e : GameEngine)
    (t : Q) (s : TimelineSegment) :
  audioCtx a = Some t -> isAudioInitialized a = true -> gainNode a = true ->
  ~ currentSpeed e == 0 ->
  segmentAt (getTapeXAtPlayhead e) (sourceSegments e) = Some s ->
  updateAudio a e =
    match gameMode e with
    | CAT_MODE =>
        match meowBuffer a with
        | Some duration =>
            if String.eqb (seg_color s) (targetColor e) then
              (if oscillator a then [GainTarget 0 t (1 # 100)] else [])
              ++ [PlayGrain t
                    (Qmax 0 (Qmin (scrubProgress e s * duration) duration))
                    (5 # 100)
                    (Qmax (1 # 10) (Qmin (Qabs (currentSpeed e)) 3));
                  GainTarget (3 # 10) t (1 # 100)]
            else [GainTarget 0 t (5 # 100)]
        | None => [GainTarget 0 t (5 # 100)]
        end
    | STANDARD =>
        if oscillator a then
          [FrequencyTarget (baseFrequency (seg_color s) * (1 + tonePitchShift e))
             t (5 # 100);
           GainTarget (1 # 10) t (5 # 100)]
        else []
    end.
Proof.
  intros Hc Hi Hg Hv Hs. apply Qeq_bool_false_iff in Hv.
  unfold updateAudio. rewrite Hc, Hi, Hg. cbn [negb orb].
  cbv zeta. rewrite Hs, Hv. cbn [negb]. reflexivity.
Qed.

(** X14. The color tone of STANDARD mode.  While the tape moves over a
    segment of a palette color, the oscillator is sent to the frequency the
    table gives for that color (never the 440 Hz fallback) scaled by
    [1 + speed * 0.05], and the gain to 0.1.  The scale is exact for speeds
    up to 10x and saturates beyond, so the pitch stays between half and one
    and a half times the base frequency. *)
Theorem color_tone (a : AudioHandles) (e : GameEngine) (t : Q)
    (s : TimelineSegment) :
  audioCtx a = Some t -> isAudioInitialized a = true -> gainNode a = true ->
  oscillator a = true ->
  gameMode e = STANDARD -> ~ currentSpeed e == 0 ->
  segmentAt (getTapeXAtPlayhead e) (sourceSegments e) = Some s ->
  In (seg_color s) AVAILABLE_COLORS ->
  exists f pitch,
    COLOR_FREQUENCIES !! seg_color s = Some f /\
    (26163 # 100) <= f /\ f <= 440 /\
    updateAudio a e
      = [FrequencyTarget pitch t (5 # 100); GainTarget (1 # 10) t (5 # 100)] /\
    f * (1 # 2) <= pitch /\ pitch <= f * (3 # 2) /\
    (- (10) <= currentSpeed e -> currentSpeed e <= 10 ->
     pitch == f * (1 + currentSpeed e * (5 # 100))) /\
    (10 <= currentSpeed e -> pitch == f * (3 # 2)) /\
    (currentSpeed e <= - (10) -> pitch == f * (1 # 2)).
Proof.
  intros Hc Hi Hg Ho Hm Hv Hs Hp.
  destruct (palette_frequency _ Hp) as [f [Hf [Hb [Hlo Hhi]]]].
  exists f, (f * (1 + tonePitchShift e)).
  split; [exact Hf |]. split; [exact Hlo |]. split; [exact Hhi |].
  split.
  { rewrite (updateAudio_over_segment a e t s Hc Hi Hg Hv Hs), Hm, Ho, Hb.
    reflexivity. }
  assert (Hf0 : 0 < f) by lra.
  unfold tonePitchShift.
  set (v := currentSpeed e). clearbody v.
  assert (Hs1 : - (1 # 2) <= Qmin (Qmax (v * (5 # 100)) (- (1 # 2))) (1 # 2))
    by qminmax.
  assert (Hs2 : Qmin (Qmax (v * (5 # 100)) (- (1 # 2))) (1 # 2) <= 1 # 2)
    by qminmax.
  set (p := Qmin (Qmax (v * (5 # 100)) (- (1 # 2))) (1 # 2)) in *.
  split.
  { assert (G : 0 <= f * (p + (1 # 2)))
      by (apply Qmult_le_0_compat; clearbody p; lra).
    clearbody p. lra. }
  split.
  { assert (G : 0 <= f * ((1 # 2) - p))
      by (apply Qmult_le_0_compat; clearbody p; lra).
    clearbody p. lra. }
  split.
  { intros H1 H2.
    assert (E : p == v * (5 # 100)) by (subst p; qminmax).
    rewrite E. reflexivity. }
  split.
  { intro H1. assert (E : p == 1 # 2) by (subst p; qminmax).
    rewrite E. field. }
  { intro H1. assert (E : p == - (1 # 2)) by (subst p; qminmax).
    rewrite E. field. }
Qed.

Lemma color_tone_witness :
  exists pitch,
    updateAudio (audioReady 0) (rolling STANDARD 2)
      = [FrequencyTarget pitch 0 (5 # 100); GainTarget (1 # 10) 0 (5 # 100)] /\
    pitch == (26163 # 100) * (1 + 2 * (5 # 100)).
Proof.
  destruct (color_tone (audioReady 0) (rolling STANDARD 2) 0
              (mkSegment "seg_1" 120 300 RED)
              eq_refl eq_refl eq_refl eq_refl eq_refl)
    as [f [pitch [Hf [_ [_ [Hu [_ [_ [Hex _]]]]]]]]].
  - vm_compute. discriminate.
  - reflexivity.
  - left. reflexivity.
  - exists pitch. split; [exact Hu |].
    assert (E : f = 26163 # 100) by (vm_compute in Hf; congruence).
    rewrite <- E. apply Hex; vm_compute; discriminate.
Defined.

(** X15. The scrubbed meow of CAT_MODE.  While the tape moves over a
    segment, a grain of the meow is played only if the segment has the
    target color; it starts at the fraction of the buffer that the playhead
    has covered of the segment (so the clamp of the offset never bites and
    the offset stays short of the end of the buffer), lasts 50 ms, and is
    played at the speed of the tape kept within 0.1 and 3; the oscillator
    frequency is never touched.  Over any other segment the gain is turned
    down. *)
Theorem cat_mode_meow (a : AudioHandles) (e : GameEngine) (t duration : Q)
    (s : TimelineSegment) :
  audioCtx a = Some t -> isAudioInitialized a = true -> gainNode a = true ->
  meowBuffer a = Some duration -> 0 < duration ->
  gameMode e = CAT_MODE -> ~ currentSpeed e == 0 ->
  segmentAt (getTapeXAtPlayhead e) (sourceSegments e) = Some s ->
  (seg_color s = targetColor e ->
   exists offset rate,
     updateAudio a e
       = (if oscillator a then [GainTarget 0 t (1 # 100)] else [])
         ++ [PlayGrain t offset (5 # 100) rate;
             GainTarget (3 # 10) t (1 # 100)] /\
     offset == scrubProgress e s * duration /\
     0 <= offset /\ offset < duration /\
     (1 # 10) <= rate /\ rate <= 3 /\
     ((1 # 10) <= Qabs (currentSpeed e) -> Qabs (currentSpeed e) <= 3 ->
      rate == Qabs (currentSpeed e))) /\
  (seg_color s <> targetColor e ->
   updateAudio a e = [GainTarget 0 t (5 # 100)]).
Proof.
  intros Hc Hi Hg Hb Hd Hm Hv Hs.
  rewrite (updateAudio_over_segment a e t s Hc Hi Hg Hv Hs), Hm, Hb.
  split.
  - intro Hcol. apply String.eqb_eq in Hcol. rewrite Hcol.
    exists (Qmax 0 (Qmin (scrubProgress e s * duration) duration)),
           (Qmax (1 # 10) (Qmin (Qabs (currentSpeed e)) 3)).
    split; [reflexivity |].
    assert (Hin : seg_x s <= getTapeXAtPlayhead e /\
                  getTapeXAtPlayhead e < seg_x s + seg_width s).
    { apply under_playhead_iff.
      unfold segmentAt in Hs. apply List.find_some in Hs. exact (proj2 Hs). }
    destruct Hin as [H1 H2].
    assert (Hw : 0 < seg_width s) by lra.
    assert (P0 : 0 <= scrubProgress e s).
    { unfold scrubProgress. apply Qle_shift_div_l; [exact Hw | lra]. }
    assert (P1 : scrubProgress e s < 1).
    { unfold scrubProgress. apply Qlt_shift_div_r; [exact Hw | lra]. }
    set (p := scrubProgress e s) in *. clearbody p.
    assert (G0 : 0 <= p * duration) by (apply Qmult_le_0_compat; lra).
    assert (G1 : p * duration < duration).
    { assert (G : 0 < (1 - p) * duration) by (apply Qmult_lt_0_compat; lra).
      lra. }
    set (pd := p * duration) in *. clearbody pd.
    set (v := Qabs (currentSpeed e)). clearbody v.
    repeat split; qminmax.
  - intro Hcol. apply String.eqb_neq in Hcol. rewrite Hcol. reflexivity.
Qed.

Lemma cat_mode_meow_witness :
  exists offset rate,
    updateAudio (audioReady 0) (rolling CAT_MODE 2)
      = [GainTarget 0 0 (1 # 100); PlayGrain 0 offset (5 # 100) rate;
         GainTarget (3 # 10) 0 (1 # 100)] /\
    offset == 14 # 15 /\ rate == 2.
Proof.
  destruct (cat_mode_meow (audioReady 0) (rolling CAT_MODE 2) 0 1
              (mkSegment "seg_1" 120 300 RED)
              eq_refl eq_refl eq_refl eq_refl eq_refl eq_refl)
    as [H _].
  - vm_compute. discriminate.
  - reflexivity.
  - destruct (H eq_refl) as [offset [rate [Hu [Ho [_ [_ [_ [_ Hr]]]]]]]].
    exists offset, rate. split; [exact Hu |].
    split; [rewrite Ho; vm_compute; reflexivity |].
    rewrite Hr; vm_compute; [reflexivity | discriminate | discriminate].
Defined.

(** X16. No sound without motion over the tape.  With the tape stopped, or
    with the playhead before the first or after the last segment of a
    gapless tape, every command [updateAudio] issues turns the gain down to
    zero: no tone is set and no grain is played.  Without an initialised
    audio graph it issues no command at all. *)
Theorem silent_unless_moving_over_tape (a : AudioHandles) (e : GameEngine)
    (x0 x1 : Q) :
  chain x0 (sourceSegments e) x1 ->
  (currentSpeed e == 0 \/ getTapeXAtPlayhead e < x0 \/
   x1 <= getTapeXAtPlayhead e ->
   forallb silences (updateAudio a e) = true) /\
  (isAudioInitialized a = false \/ audioCtx a = None \/ gainNode a = false ->
   updateAudio a e = []).
Proof.
  intro Hc. split.
  - intro H. unfold updateAudio.
    destruct (audioCtx a) as [t |]; [| reflexivity].
    destruct (negb (isAudioInitialized a) || negb (gainNode a));
      [reflexivity |].
    cbv zeta.
    destruct H as [H | H].
    + apply Qeq_bool_iff in H. rewrite H. cbn [negb].
      destruct (segmentAt _ _); reflexivity.
    + destruct (segmentAt_gapless x0 x1 (getTapeXAtPlayhead e)
                  (sourceSegments e) Hc) as [G _].
      destruct (segmentAt (getTapeXAtPlayhead e) (sourceSegments e))
        as [s |] eqn:E; [| reflexivity].
      assert (T : x0 <= getTapeXAtPlayhead e /\ getTapeXAtPlayhead e < x1)
        by (apply G; exists s; reflexivity).
      exfalso. lra.
  - unfold updateAudio. intros [H | [H | H]]; rewrite H.
    + destruct (audioCtx a); reflexivity.
    + reflexivity.
    + destruct (audioCtx a); [| reflexivity].
      rewrite orb_true_r. reflexivity.
Qed.

Lemma silent_unless_moving_over_tape_witness :
  forallb silences (updateAudio (audioReady 0) (rolling STANDARD 0)) = true.
Proof.
  assert (Hc : chain 0 (sourceSegments (rolling STANDARD 0)) 600)
    by (cbn; repeat split; reflexivity).
  destruct (silent_unless_moving_over_tape (audioReady 0) (rolling STANDARD 0)
              0 600 Hc) as [H _].
  apply H. left. reflexivity.
Defined.

(** ** The component *)

Lemma fold_quiet (log : list Effect) (app : App) :
  forallb quiet log = true -> fold_left applyEffect log app = app.
Proof.
  revert app. induction log as [| x log IH]; intros app H; [reflexivity |].
  cbn in H. apply andb_true_iff in H. destruct H as [Hx Hl].
  cbn [fold_left]. destruct x; try discriminate; exact (IH _ Hl).
Qed.

(** The ways a key-down can end, as the component sees them. *)
Lemma handleKeyDown_cases (clk : Clock) (key : string) (e : GameEngine) :
  let r := handleKeyDown clk key e in
  (forallb quiet (snd r) = true /\
   sequenceClips (fst r) = sequenceClips e /\
   penaltyCount (fst r) = penaltyCount e /\
   targetColor (fst r) = targetColor e /\
   gameMode (fst r) = gameMode e) \/
  r = (afterFailure e, [GameOver]) \/
  exists start end_,
    (WIN_PIXELS <= totalPixels (sequenceClips e) + (end_ - start) /\
     r = (withClip clk e start end_,
          [extractBurst e;
           ScoreUpdate (totalPixels (sequenceClips e) + (end_ - start));
           FinalScoreUpdate (calculateFinalScore clk e); StopAudio; Win])) \/
    (totalPixels (sequenceClips e) + (end_ - start) < WIN_PIXELS /\
     r = (afterRipple clk e start end_,
          [extractBurst e;
           ScoreUpdate (totalPixels (sequenceClips e) + (end_ - start));
           StopAudio])).
Proof.
  cbv zeta.
  destruct (handleKeyDown_keys clk key e)
    as [-> | [-> | [-> | [-> | [-> | [-> | E]]]]]].
  - left. rewrite handleKeyDown_K. destruct (isHoldingK e); fields; auto.
  - left. rewrite handleKeyDown_L. destruct (isHoldingL e); fields; auto.
  - left. rewrite handleKeyDown_J. destruct (isHoldingJ e); fields; auto.
  - left. rewrite handleKeyDown_I. cbv zeta.
    destruct (markOut e) as [mo |]; [destruct (Qlt_bool mo _) |];
      fields; auto.
  - left. rewrite handleKeyDown_O. cbv zeta.
    destruct (match markIn e with Some _ => _ | None => _ end); fields; auto.
  - rewrite handleKeyDown_period.
    destruct (performExtract_outcomes clk e)
      as [E | [E | [s [t [_ [_ [_ [_ [_ H]]]]]]]]].
    + left. rewrite E. auto.
    + right. left. exact E.
    + right. right. exists s, t. exact H.
  - left. rewrite E. auto.
Qed.

(** The ways a key-up can end. *)
Lemma handleKeyUp_cases (clk : Clock) (key : string) (e : GameEngine) :
  let r := handleKeyUp clk key e in
  sourceSegments (fst r) = sourceSegments e /\
  sequenceClips (fst r) = sequenceClips e /\
  markIn (fst r) = markIn e /\ markOut (fst r) = markOut e /\
  targetColor (fst r) = targetColor e /\ gameMode (fst r) = gameMode e /\
  ((forallb quiet (snd r) = true /\ penaltyCount (fst r) = penaltyCount e) \/
   (exists x,
      snd r = [StopAudio; PenaltyUpdate (penaltyCount e + 1)%Z; x] /\
      quiet x = true /\
      penaltyCount (fst r) = (penaltyCount e + 1)%Z /\
      currentSpeed (fst r) = 0 /\ isHoldingK e = true)).
Proof.
  cbv zeta.
  assert (R : forall k step e0,
            sourceSegments e0 = sourceSegments e ->
            sequenceClips e0 = sequenceClips e ->
            markIn e0 = markIn e -> markOut e0 = markOut e ->
            targetColor e0 = targetColor e -> gameMode e0 = gameMode e ->
            penaltyCount e0 = penaltyCount e -> isHoldingK e0 = isHoldingK e ->
            let r := released clk k step e0 in
            sourceSegments (fst r) = sourceSegments e /\
            sequenceClips (fst r) = sequenceClips e /\
            markIn (fst r) = markIn e /\ markOut (fst r) = markOut e /\
            targetColor (fst r) = targetColor e /\
            gameMode (fst r) = gameMode e /\
            ((forallb quiet (snd r) = true /\
              penaltyCount (fst r) = penaltyCount e) \/
             (exists x,
                snd r = [StopAudio; PenaltyUpdate (penaltyCount e + 1)%Z; x] /\
                quiet x = true /\
                penaltyCount (fst r) = (penaltyCount e + 1)%Z /\
                currentSpeed (fst r) = 0 /\ isHoldingK e = true))).
  { intros k step e0 H1 H2 H3 H4 H5 H6 H7 H8. cbv zeta. unfold released.
    destruct (isHoldingK e0) eqn:HK;
      [| cbn [fst snd]; repeat split; auto].
    assert (Hq : forall e1 : GameEngine * list Effect,
              e1 = (snapped (set_currentSpeed 0 e0), [StopAudio]) ->
              sourceSegments (fst e1) = sourceSegments e /\
              sequenceClips (fst e1) = sequenceClips e /\
              markIn (fst e1) = markIn e /\ markOut (fst e1) = markOut e /\
              targetColor (fst e1) = targetColor e /\
              gameMode (fst e1) = gameMode e /\
              ((forallb quiet (snd e1) = true /\
                penaltyCount (fst e1) = penaltyCount e) \/
               (exists x,
                  snd e1 = [StopAudio; PenaltyUpdate (penaltyCount e + 1)%Z; x] /\
                  quiet x = true /\
                  penaltyCount (fst e1) = (penaltyCount e + 1)%Z /\
                  currentSpeed (fst e1) = 0 /\ isHoldingK e = true))).
    { intros e1 ->. fields. repeat split; auto. }
    destruct (inputTimestamps e0 !! k) as [p |]; [| apply Hq; reflexivity].
    destruct (inputStartOffsets e0 !! k) as [o |]; [| apply Hq; reflexivity].
    destruct (Qlt_bool (now clk - p) 200); [| apply Hq; reflexivity].
    fields. do 6 (split; [assumption |]). right.
    eexists. split; [rewrite H7; reflexivity |].
    split; [reflexivity |]. split; [rewrite H7; reflexivity |].
    split; [reflexivity | congruence]. }
  destruct (handleKeyUp_keys clk key e) as [-> | [-> | [-> | E]]].
  - rewrite handleKeyUp_K. fields. repeat split; auto.
  - rewrite handleKeyUp_L. apply R; reflexivity.
  - rewrite handleKeyUp_J. apply R; reflexivity.
  - rewrite E. cbn [fst snd]. repeat split; auto.
Qed.

Lemma runEngine_quiet (c : Cmd) (app : App) :
  forallb quiet (snd (c (engine app))) = true ->
  runEngine c app
  = mkApp (gameState app) (ui_gameMode app) (score app) (ui_penaltyCount app)
      (finalScore app) (ui_targetColor app) (highScores app)
      (fst (c (engine app))).
Proof. intro H. unfold runEngine. cbv zeta. apply fold_quiet. exact H. Qed.

Ltac app_fields :=
  cbn [gameState ui_gameMode score ui_penaltyCount finalScore ui_targetColor
       highScores engine].

Ltac in_step :=
  unfold inStep, hudInSync; app_fields;
  refine (conj (conj _ (conj _ (conj _ _))) (conj _ (conj _ (conj _ _)))).

Lemma inStep_mount : inStep mountApp.
Proof.
  unfold mountApp. in_step.
  1-4: reflexivity.
  - intros _. reflexivity.
  - intro H. discriminate.
  - lia.
  - intro H. congruence.
Qed.

Lemma inStep_startGame (mode : GameMode) (t_last t_start : Q) (rnd : list Q)
    (app app' : App) :
  Forall unitDraw rnd ->
  startGame mode t_last t_start rnd app = Some app' ->
  inStep app' /\ gameState app' = PLAYING /\ highScores app' = highScores app.
Proof.
  intros Hrnd H. unfold startGame in H.
  destruct rnd as [| r rnd']; [discriminate |]. cbv zeta in H.
  destruct (start (randomColor r) mode t_last t_start rnd' (engine app))
    as [[e' log] |] eqn:E; [| discriminate].
  assert (Hrnd' : Forall unitDraw rnd') by (inversion Hrnd; assumption).
  pose proof (reach_start _ _ _ _ _ _ _ _ Hrnd' E) as Hreach.
  destruct (start_fresh _ _ _ _ _ _ _ _ E) as [tape [rest [_ [-> ->]]]].
  injection H as <-. cbn [fold_left applyEffect]. app_fields.
  split; [| split; reflexivity].
  in_step.
  1-4: reflexivity.
  - intros _. reflexivity.
  - intro H. discriminate.
  - lia.
  - intros _. exact Hreach.
Qed.

Lemma inStep_keyDown (clk : Clock) (key : string) (app : App) :
  inStep app -> inStep (onKeyDown clk key app).
Proof.
  intros [[H1 [H2 [H3 H4]]] [HP [HW [HF HR]]]]. unfold onKeyDown.
  destruct (gameState app) eqn:Hg;
    try (unfold inStep, hudInSync; rewrite Hg;
         refine (conj (conj _ (conj _ (conj _ _)))
                   (conj _ (conj _ (conj _ _)))); assumption).
  assert (Hreach : reachable (fst (handleKeyDown clk key (engine app))))
    by (apply reach_keyDown, HR; discriminate).
  assert (Hsc : score app < WIN_PIXELS) by (apply HP; left; reflexivity).
  destruct (handleKeyDown_cases clk key (engine app))
    as [[Hq [G1 [G2 [G3 G4]]]] | [E | [s [t [[Hw E] | [Hw E]]]]]].
  - rewrite (runEngine_quiet _ _ Hq).
    in_step; rewrite ?G1, ?G2, ?G3, ?G4, ?Hg.
    1-4: assumption.
    + intros _. exact Hsc.
    + intro H. discriminate.
    + exact HF.
    + intros _. exact Hreach.
  - unfold runEngine. cbv zeta. rewrite E in *. cbn [fst snd] in *.
    cbn [fold_left applyEffect].
    in_step.
    1-4: fields; assumption.
    + intros _. exact Hsc.
    + intro H. discriminate.
    + exact HF.
    + intros _. exact Hreach.
  - unfold runEngine. cbv zeta. rewrite E in *. cbn [fst snd] in *.
    unfold extractBurst. cbn [fold_left applyEffect]. app_fields.
    in_step.
    + fields. rewrite totalPixels_push. reflexivity.
    + exact H2.
    + exact H3.
    + exact H4.
    + intros [H | H]; discriminate.
    + intros _. exact Hw.
    + apply calculateFinalScore_nonneg.
    + intros _. exact Hreach.
  - unfold runEngine. cbv zeta. rewrite E in *. cbn [fst snd] in *.
    unfold extractBurst. cbn [fold_left applyEffect]. app_fields.
    in_step; rewrite ?Hg.
    + fields. rewrite totalPixels_push. reflexivity.
    + exact H2.
    + exact H3.
    + exact H4.
    + intros _. exact Hw.
    + intro H. discriminate.
    + exact HF.
    + intros _. exact Hreach.
Qed.

Lemma onKeyUp_app (clk : Clock) (key : string) (app : App) :
  let r := handleKeyUp clk key (engine app) in
  (onKeyUp clk key app
   = mkApp (gameState app) (ui_gameMode app) (score app)
       (ui_penaltyCount app) (finalScore app) (ui_targetColor app)
       (highScores app) (fst r) /\
   penaltyCount (fst r) = penaltyCount (engine app)) \/
  (onKeyUp clk key app
   = mkApp (gameState app) (ui_gameMode app) (score app)
       (penaltyCount (engine app) + 1)%Z (finalScore app) (ui_targetColor app)
       (highScores app) (fst r) /\
   penaltyCount (fst r) = (penaltyCount (engine app) + 1)%Z /\
   currentSpeed (fst r) = 0 /\ isHoldingK (engine app) = true).
Proof.
  cbv zeta.
  destruct (handleKeyUp_cases clk key (engine app))
    as [_ [_ [_ [_ [_ [_ [[Hq Hp] | [x [Hx [Hqx [Hp [Hv HK]]]]]]]]]]]].
  - left. split; [| exact Hp]. unfold onKeyUp. apply runEngine_quiet. exact Hq.
  - right. split; [| auto]. unfold onKeyUp, runEngine. cbv zeta.
    rewrite Hx. cbn [fold_left applyEffect]. app_fields.
    destruct x; try discriminate; reflexivity.
Qed.

Lemma inStep_keyUp (clk : Clock) (key : string) (app : App) :
  inStep app -> inStep (onKeyUp clk key app).
Proof.
  intros [[H1 [H2 [H3 H4]]] [HP [HW [HF HR]]]].
  destruct (handleKeyUp_cases clk key (engine app))
    as [_ [G2 [_ [_ [G5 [G6 _]]]]]].
  assert (Hreach : gameState app <> START ->
                   reachable (fst (handleKeyUp clk key (engine app))))
    by (intro H; apply reach_keyUp, HR, H).
  destruct (onKeyUp_app clk key app) as [[E Hp] | [E [Hp _]]]; rewrite E;
    in_step; rewrite ?G2, ?G5, ?G6, ?Hp; first [assumption | reflexivity].
Qed.

Lemma inStep_frame (time : Q) (app : App) :
  inStep app -> inStep (onFrame time app).
Proof.
  intros [[H1 [H2 [H3 H4]]] [HP [HW [HF HR]]]]. unfold onFrame.
  destruct (gameState app) eqn:Hg;
    try (unfold inStep, hudInSync; rewrite Hg;
         refine (conj (conj _ (conj _ (conj _ _)))
                   (conj _ (conj _ (conj _ _)))); assumption).
  assert (Hreach : reachable (fst (update time (engine app))))
    by (apply reach_update, HR; discriminate).
  destruct (update_moves time (engine app)) as [L [m [d Em]]].
  rewrite runEngine_quiet by (rewrite L; reflexivity).
  in_step; rewrite ?Hg.
  1-4: rewrite Em; fields; assumption.
  - intros _. apply HP. left. reflexivity.
  - intro H. discriminate.
  - exact HF.
  - intros _. exact Hreach.
Qed.

Lemma inStep_menu (app : App) : inStep app -> inStep (goToMenu app).
Proof.
  intros [[H1 [H2 [H3 H4]]] [HP [HW [HF HR]]]].
  unfold goToMenu, runEngine, stopAudio, emit. cbv zeta.
  cbn [fst snd fold_left applyEffect]. app_fields.
  in_step.
  1-4: assumption.
  - intros [H | H]; discriminate.
  - intro H. discriminate.
  - exact HF.
  - intro H. congruence.
Qed.

Lemma inStep_scores (app : App) (scores : list HighScore) :
  inStep app ->
  inStep (mkApp (gameState app) (ui_gameMode app) (score app)
            (ui_penaltyCount app) (finalScore app) (ui_targetColor app)
            scores (engine app)).
Proof. intro H. exact H. Qed.

Lemma appReachable_inStep (app : App) : appReachable app -> inStep app.
Proof.
  induction 1 as [| mode t_last t_start rnd app app' _ IH Hrnd Hs
                  | clk key app _ IH | clk key app _ IH | time app _ IH
                  | app _ IH | trim name dateNow app _ IH
                  | stored app _ IH].
  - exact inStep_mount.
  - exact (proj1 (inStep_startGame _ _ _ _ _ _ Hrnd Hs)).
  - exact (inStep_keyDown _ _ _ IH).
  - exact (inStep_keyUp _ _ _ IH).
  - exact (inStep_frame _ _ IH).
  - exact (inStep_menu _ IH).
  - exact (inStep_scores _ _ IH).
  - destruct stored as [scores |]; [exact (inStep_scores _ _ IH) | exact IH].
Qed.

Lemma playingApp_reachable : appReachable playingApp.
Proof.
  unfold playingApp.
  assert (Hrnd : Forall unitDraw ((1 # 12) :: sampleDraws)).
  { constructor; [unfold unitDraw; lra | exact sampleDraws_unit]. }
  destruct (startGame STANDARD 0 0 ((1 # 12) :: sampleDraws) mountApp)
    as [app |] eqn:E.
  - exact (app_startGame _ _ _ _ _ _ app_mount Hrnd E).
  - exact app_mount.
Qed.

(** X17. The component stays in step with the engine.  In every state the
    component reaches, whatever the order of games, key events, frames,
    menu visits and saved scores, the displayed score, penalty count, target
    color and mode are those of the engine; a game that is being played or
    was lost has a score below [WIN_PIXELS] and a game that was won has
    reached it; the final score is not negative; and outside the start
    screen the engine is in a state of a run. *)
Theorem component_in_step_with_engine (app : App) :
  appReachable app ->
  score app = totalPixels (sequenceClips (engine app)) /\
  ui_penaltyCount app = penaltyCount (engine app) /\
  ui_targetColor app = targetColor (engine app) /\
  ui_gameMode app = gameMode (engine app) /\
  (gameState app = PLAYING \/ gameState app = GAME_OVER ->
   score app < WIN_PIXELS) /\
  (gameState app = WON -> WIN_PIXELS <= score app) /\
  (0 <= finalScore app)%Z /\
  (gameState app <> START -> reachable (engine app)).
Proof.
  intro H. destruct (appReachable_inStep app H)
    as [[H1 [H2 [H3 H4]]] [HP [HW [HF HR]]]].
  repeat (split; [assumption |]). assumption.
Qed.

Lemma component_in_step_with_engine_witness :
  score (onKeyUp clock0 KEY_L (onKeyDown clock0 KEY_L playingApp))
  = totalPixels
      (sequenceClips
         (engine (onKeyUp clock0 KEY_L (onKeyDown clock0 KEY_L playingApp)))).
Proof.
  apply (component_in_step_with_engine
           (onKeyUp clock0 KEY_L (onKeyDown clock0 KEY_L playingApp))).
  apply app_keyUp, app_keyDown, playingApp_reachable.
Defined.

(** X18. A key release never decides a game.  In any state of the
    component, a key-up leaves the game state, the score, the final score,
    the leaderboard, the tape, the clips and both marks as they were.  The
    one callback it can trigger is the penalty update of a jog tap, which
    stops the tape and shows the engine's count plus one; since the key-up
    listener is installed in every game state, this also happens after the
    game is won or lost. *)
Theorem key_release_never_decides (clk : Clock) (key : string) (app : App) :
  let app' := onKeyUp clk key app in
  gameState app' = gameState app /\ score app' = score app /\
  finalScore app' = finalScore app /\ highScores app' = highScores app /\
  sourceSegments (engine app') = sourceSegments (engine app) /\
  sequenceClips (engine app') = sequenceClips (engine app) /\
  markIn (engine app') = markIn (engine app) /\
  markOut (engine app') = markOut (engine app) /\
  engine app' = fst (handleKeyUp clk key (engine app)) /\
  ((ui_penaltyCount app' = ui_penaltyCount app /\
    penaltyCount (engine app') = penaltyCount (engine app)) \/
   (ui_penaltyCount app' = (penaltyCount (engine app) + 1)%Z /\
    penaltyCount (engine app') = (penaltyCount (engine app) + 1)%Z /\
    currentSpeed (engine app') = 0 /\ isHoldingK (engine app) = true)).
Proof.
  cbv zeta.
  destruct (handleKeyUp_cases clk key (engine app))
    as [G1 [G2 [G3 [G4 _]]]].
  destruct (onKeyUp_app clk key app) as [[E Hp] | [E [Hp [Hv HK]]]];
    rewrite E; app_fields.
  - do 4 (split; [reflexivity |]). do 4 (split; [assumption |]).
    split; [reflexivity |]. left. split; [reflexivity | exact Hp].
  - do 4 (split; [reflexivity |]). do 4 (split; [assumption |]).
    split; [reflexivity |]. right. auto.
Qed.

(** ** The leaderboard *)

Lemma insertByScore_perm (h : HighScore) (l : list HighScore) :
  Permutation (insertByScore h l) (h :: l).
Proof.
  induction l as [| x l IH]; [reflexivity |]. cbn [insertByScore].
  destruct (hs_score x <=? hs_score h)%Z; [reflexivity |].
  rewrite IH. apply perm_swap.
Qed.

Lemma sortByScore_perm (l : list HighScore) : Permutation (sortByScore l) l.
Proof.
  induction l as [| x l IH]; [reflexivity |].
  unfold sortByScore in *. cbn [fold_right].
  rewrite insertByScore_perm, IH. reflexivity.
Qed.

Lemma insertByScore_sorted (h : HighScore) (l : list HighScore) :
  StronglySorted byScore l -> StronglySorted byScore (insertByScore h l).
Proof.
  induction 1 as [| x l Hs IH Hx]; cbn [insertByScore].
  - constructor; constructor.
  - destruct (hs_score x <=? hs_score h)%Z eqn:E.
    + apply Z.leb_le in E. constructor; [constructor; assumption |].
      constructor; [exact E |].
      eapply List.Forall_impl; [| exact Hx].
      unfold byScore. intros a Ha. lia.
    + apply Z.leb_gt in E. constructor; [exact IH |].
      apply List.Forall_forall. intros a Ha.
      apply (Permutation_in _ (insertByScore_perm h l)) in Ha.
      destruct Ha as [<- | Ha]; [unfold byScore; lia |].
      rewrite List.Forall_forall in Hx. exact (Hx a Ha).
Qed.

Lemma sortByScore_sorted (l : list HighScore) :
  StronglySorted byScore (sortByScore l).
Proof.
  induction l as [| x l IH]; [constructor |].
  exact (insertByScore_sorted x _ IH).
Qed.

Lemma sorted_app_order (l1 l2 : list HighScore) :
  StronglySorted byScore (l1 ++ l2) ->
  StronglySorted byScore l1 /\
  forall h d, In h l1 -> In d l2 -> byScore h d.
Proof.
  induction l1 as [| x l1 IH]; cbn [app]; intro H.
  - split; [constructor | intros h d []].
  - inversion H as [| ? ? Hs Hx]; subst.
    destruct (IH Hs) as [IH1 IH2].
    rewrite List.Forall_forall in Hx.
    split.
    + constructor; [exact IH1 |].
      apply List.Forall_forall. intros a Ha. apply Hx, in_or_app. auto.
    + intros h d [<- | Hh] Hd; [apply Hx, in_or_app; auto | exact (IH2 h d Hh Hd)].
Qed.

Lemma insertByScore_front (h : HighScore) (l : list HighScore) :
  Forall (byScore h) l -> insertByScore h l = h :: l.
Proof.
  intro H. destruct l as [| x l]; [reflexivity |]. cbn [insertByScore].
  inversion H as [| ? ? Hx _]; subst. unfold byScore in Hx.
  apply Z.leb_le in Hx. rewrite Hx. reflexivity.
Qed.

(** Sorting a sorted board with a new entry at its end: the entry goes after
    the last one that is at least as good. *)
Lemma sortByScore_sorted_snoc (new : HighScore) (l : list HighScore) :
  StronglySorted byScore l ->
  sortByScore (l ++ [new])
  = List.filter (fun h => (hs_score new <=? hs_score h)%Z) l
    ++ new :: List.filter (fun h => (hs_score h <? hs_score new)%Z) l.
Proof.
  unfold sortByScore. rewrite fold_right_app. cbn [fold_right insertByScore].
  induction 1 as [| x l Hs IH Hx]; [reflexivity |].
  cbn [fold_right]. rewrite IH. cbn [List.filter].
  destruct (hs_score new <=? hs_score x)%Z eqn:E.
  - apply Z.leb_le in E.
    assert (E' : (hs_score x <? hs_score new)%Z = false)
      by (apply Z.ltb_ge; exact E).
    rewrite E'. cbn [app]. apply insertByScore_front.
    apply Forall_app. split.
    + apply List.Forall_forall. intros a Ha.
      apply List.filter_In in Ha. destruct Ha as [Ha _].
      rewrite List.Forall_forall in Hx. exact (Hx a Ha).
    + constructor; [exact E |].
      apply List.Forall_forall. intros a Ha.
      apply List.filter_In in Ha. destruct Ha as [Ha _].
      rewrite List.Forall_forall in Hx. exact (Hx a Ha).
  - apply Z.leb_gt in E.
    assert (E' : (hs_score x <? hs_score new)%Z = true)
      by (apply Z.ltb_lt; exact E).
    rewrite E'.
    assert (F1 : List.filter (fun h => (hs_score new <=? hs_score h)%Z) l = []).
    { clear - Hx E. induction l as [| y l IHl]; [reflexivity |].
      inversion Hx as [| ? ? Hy Hl]; subst. unfold byScore in Hy.
      cbn [List.filter].
      assert (G : (hs_score new <=? hs_score y)%Z = false)
        by (apply Z.leb_gt; lia).
      rewrite G. exact (IHl Hl). }
    assert (F2 : List.filter (fun h => (hs_score h <? hs_score new)%Z) l = l).
    { clear - Hx E. induction l as [| y l IHl]; [reflexivity |].
      inversion Hx as [| ? ? Hy Hl]; subst. unfold byScore in Hy.
      cbn [List.filter].
      assert (G : (hs_score y <? hs_score new)%Z = true)
        by (apply Z.ltb_lt; lia).
      rewrite G, (IHl Hl). reflexivity. }
    rewrite F1, F2. cbn [app insertByScore].
    assert (G : (hs_score new <=? hs_score x)%Z = false)
      by (apply Z.leb_gt; exact E).
    rewrite G. f_equal. apply insertByScore_front. exact Hx.
Qed.

(** X19. Saving a score.  The leaderboard after [saveHighScore] is in
    descending order of score whatever the stored list was, holds the ten
    best of the old entries and the new one (one more entry than before, up
    to ten), and every entry it drops scores no more than every entry it
    keeps.  On a board that was already in order the new entry goes after
    the last entry that is at least as good, so a tie is resolved in favor
    of the older entry; a blank name is saved as Anonymous. *)
Theorem saveHighScore_keeps_the_best (trim : string -> string) (name : string)
    (dateNow : Z) (app : App) :
  let new :=
    mkHighScore
      (if String.eqb (trim name) EmptyString then "Anonymous" else trim name)
      (finalScore app) (ui_gameMode app) dateNow in
  let kept := highScores (saveHighScore trim name dateNow app) in
  StronglySorted byScore kept /\
  length kept = Nat.min 10 (S (length (highScores app))) /\
  (exists dropped,
     Permutation (kept ++ dropped) (highScores app ++ [new]) /\
     forall h d, In h kept -> In d dropped ->
       (hs_score d <= hs_score h)%Z) /\
  (StronglySorted byScore (highScores app) ->
   kept
   = firstn 10
       (List.filter (fun h => (hs_score new <=? hs_score h)%Z) (highScores app)
        ++ new
           :: List.filter (fun h => (hs_score h <? hs_score new)%Z)
                (highScores app))) /\
  (length (highScores app) < 10 -> In new kept)%nat.
Proof.
  cbv zeta. unfold saveHighScore. cbv zeta. app_fields.
  set (new := mkHighScore _ _ _ _).
  set (all := highScores app ++ [new]).
  pose proof (sortByScore_sorted all) as Hs.
  pose proof (sortByScore_perm all) as Hp.
  rewrite <- (firstn_skipn 10 (sortByScore all)) in Hs.
  destruct (sorted_app_order _ _ Hs) as [Hk Ho].
  assert (Hlen : length (sortByScore all) = S (length (highScores app))).
  { rewrite (Permutation_length Hp). unfold all.
    rewrite length_app. cbn. lia. }
  split; [exact Hk |].
  split; [rewrite length_firstn, Hlen; reflexivity |].
  split.
  { exists (skipn 10 (sortByScore all)).
    split; [rewrite firstn_skipn; exact Hp | exact Ho]. }
  split.
  { intro Hsorted. unfold all.
    rewrite (sortByScore_sorted_snoc new _ Hsorted). reflexivity. }
  intro Hlt.
  rewrite firstn_all2 by lia.
  apply (Permutation_in _ (Permutation_sym Hp)).
  unfold all. apply in_or_app. right. left. reflexivity.
Qed.

Lemma saveHighScore_keeps_the_best_witness :
  highScores
    (saveHighScore (fun s => s) "ed" 7
       (mkApp WON STANDARD 600 0 9000 RED
          [mkHighScore "al" 9500 STANDARD 1; mkHighScore "bo" 9000 CAT_MODE 2;
           mkHighScore "cy" 100 STANDARD 3] newGameEngine))
  = [mkHighScore "al" 9500 STANDARD 1; mkHighScore "bo" 9000 CAT_MODE 2;
     mkHighScore "ed" 9000 STANDARD 7; mkHighScore "cy" 100 STANDARD 3].
Proof.
  destruct (saveHighScore_keeps_the_best (fun s => s) "ed" 7
              (mkApp WON STANDARD 600 0 9000 RED
                 [mkHighScore "al" 9500 STANDARD 1;
                  mkHighScore "bo" 9000 CAT_MODE 2;
                  mkHighScore "cy" 100 STANDARD 3] newGameEngine))
    as [_ [_ [_ [H _]]]].
  rewrite H; [reflexivity |].
  repeat constructor; unfold byScore; cbn; lia.
Defined.
